(** * satori-cf: engine singleton, render entry points, batch and stream
      orchestration, style-attribute parsing.

    A shallow embedding of the TypeScript sources
    - [core/yoga.ts]          (the Yoga/WASM singleton),
    - [generators/single.ts]  ([generateOG]),
    - [generators/batch.ts]   ([generateOGBatch]),
    - [generators/stream.ts]  ([OGStream]),
    - [html/utils.ts]         ([sanitizeJSON], [getAttributes]),
    - [html/parser.ts]        ([parseHtml]),
    - [assets/emoji.ts]       ([toCodePoint], [getIconCode], [loadEmoji],
                               [loadDynamicAsset]),
    - [assets/font.ts]        ([loadGoogleFont]),
    - [errors.ts]             (the error classes).

    Numbers are integers, iterables are finite lists, strings are
    sequences of 8-bit code units.  What lies outside the repository
    (the WASM engine, satori, the HTMLRewriter, [JSON.parse], the font
    loader, just-camel-case) is a parameter: a field of [Types.Env] or a
    section variable.

    JavaScript runs each synchronous stretch of code to completion on one
    thread; an [await] is the only place where control is given up.  The
    embedding follows that: a promise is represented by the way it settles,
    a run of the event loop by a list of events, each handled atomically. *)

From Stdlib Require Import Ascii ZArith Lia.
From Stdlib Require String HexString.
From stdpp Require Import base numbers option list sorting strings pretty gmap.


(* ================================================================== *)
(** * JavaScript values shared by all modules                          *)
(* ================================================================== *)

Module Js.

(** An [Error] object: the [name] set by the class constructor and the
    [message] passed to it. *)
Record Error := mkError { name : string; message : string }.

(** Anything can be thrown in JavaScript.  [ThrownError] is a value for
    which [err instanceof Error] holds; [ThrownOther s] is any other value,
    kept as the text [String(err)] gives for it. *)
Inductive thrown :=
| ThrownError (e : Error)
| ThrownOther (text : string).

(** The two ways a promise settles. *)
Inductive settled (A : Type) :=
| Fulfilled (a : A)
| Rejected (e : thrown).
Arguments Fulfilled {A} a.
Arguments Rejected {A} e.

(** [await p] followed by the rest of an async function: a rejection
    skips the rest. *)
Definition await {A B} (p : settled A) (k : A -> settled B) : settled B :=
  match p with
  | Fulfilled a => k a
  | Rejected e => Rejected e
  end.

(** [try { body } catch (err) { handler }]. *)
Definition try_catch {A} (body : settled A) (handler : thrown -> settled A)
  : settled A :=
  match body with
  | Fulfilled a => Fulfilled a
  | Rejected e => handler e
  end.

(** [s.includes(search)]. *)
Fixpoint includes (s search : string) : bool :=
  String.prefix search s ||
  match s with
  | EmptyString => false
  | String _ rest => includes rest search
  end.

(** [s.endsWith(suffix)] for a one-character suffix. *)
Fixpoint endsWith_char (s : string) (c : ascii) : bool :=
  match s with
  | EmptyString => false
  | String a EmptyString => Ascii.eqb a c
  | String _ rest => endsWith_char rest c
  end.

(** [s.slice(0, -1)]. *)
Fixpoint drop_last (s : string) : string :=
  match s with
  | EmptyString => EmptyString
  | String _ EmptyString => EmptyString
  | String a rest => String a (drop_last rest)
  end.

(** [Array.prototype.slice(start, end)] with JavaScript's treatment of
    negative and out-of-range bounds. *)
Definition slice {A} (l : list A) (start end_ : Z) : list A :=
  let len := Z.of_nat (length l) in
  let k := if (start <? 0)%Z then Z.max (len + start) 0 else Z.min start len in
  let final := if (end_ <? 0)%Z then Z.max (len + end_) 0 else Z.min end_ len in
  take (Z.to_nat (final - k)) (drop (Z.to_nat k) l).

End Js.

Notation "'let!' x ':=' p 'in' k" := (Js.await p (fun x => k))
  (at level 10, x name, p at level 100, k at level 200).

(* ================================================================== *)
(** * errors.ts                                                        *)
(* ================================================================== *)

Module Errors.
Import Js.

Definition SatoriCFError (message : string) : Error :=
  mkError "SatoriCFError" message.
Definition WASMInitError (message : string) : Error :=
  mkError "WASMInitError" message.
Definition FontLoadError (message : string) : Error :=
  mkError "FontLoadError" message.
Definition HTMLParseError (message : string) : Error :=
  mkError "HTMLParseError" message.
Definition SVGGenerationError (message : string) : Error :=
  mkError "SVGGenerationError" message.

(** [err instanceof Error ? err : new SVGGenerationError(String(err))],
    the expression in every [catch] of the three generators. *)
Definition as_error (err : thrown) : Error :=
  match err with
  | ThrownError e => e
  | ThrownOther text => SVGGenerationError text
  end.

End Errors.

(* ================================================================== *)
(** * core/yoga.ts                                                     *)
(* ================================================================== *)

Module Yoga.
Import Js.

(** The object [initYoga] resolves with. *)
Inductive YogaModule := yoga_instance (id : nat).

Definition promise_id := nat.

(** The module-level [state] object. *)
Record yoga_state := mkState {
  yoga : option YogaModule;
  initialized : bool;
  initializing : option promise_id
}.

(** What one call of [ensureYogaInitialized] hands back.  The function is
    [async], so the caller always receives a promise: one that is already
    fulfilled when the body returns nothing, one that adopts [p] when the
    body returns the promise [p]. *)
Inductive call_return :=
| ReturnedUndefined
| ReturnedPromise (p : promise_id).

(** The process: the singleton, the promises created by the initializer
    (a promise absent from [promises] is still pending), and a log of the
    effects: how often [initYoga] and [initSatori] ran, how often an
    [await] suspended, and what each call returned, in call order. *)
Record world := mkWorld {
  state : yoga_state;
  promises : gmap promise_id (settled unit);
  next_promise : promise_id;
  initYoga_calls : nat;
  initSatori_calls : nat;
  suspensions : nat;
  returned : list call_return
}.

Definition initial_state : yoga_state :=
  {| yoga := None; initialized := false; initializing := None |}.

Definition initial_world : world :=
  {| state := initial_state; promises := ∅; next_promise := 0;
     initYoga_calls := 0; initSatori_calls := 0; suspensions := 0;
     returned := [] |}.

Definition returns (w : world) (r : call_return) : world :=
  {| state := state w; promises := promises w;
     next_promise := next_promise w;
     initYoga_calls := initYoga_calls w;
     initSatori_calls := initSatori_calls w;
     suspensions := suspensions w;
     returned := returned w ++ [r] |}.

(** One call of [ensureYogaInitialized], up to the point where it returns
    its promise.  The third branch is the start of the async arrow
    function: it runs synchronously up to [await initYoga(...)], so
    [initYoga] has been called and one suspension has happened when
    [state.initializing] is assigned. *)
Definition ensureYogaInitialized (w : world) : world :=
  if initialized (state w) then
    returns w ReturnedUndefined
  else
    match initializing (state w) with
    | Some p => returns w (ReturnedPromise p)
    | None =>
        let p := next_promise w in
        {| state := {| yoga := yoga (state w);
                       initialized := initialized (state w);
                       initializing := Some p |};
           promises := promises w;
           next_promise := S p;
           initYoga_calls := S (initYoga_calls w);
           initSatori_calls := initSatori_calls w;
           suspensions := S (suspensions w);
           returned := returned w ++ [ReturnedPromise p] |}
    end.

(** [err instanceof Error && err.message.includes("Already initialized")] *)
Definition already_initialized (err : thrown) : bool :=
  match err with
  | ThrownError e => includes (message e) "Already initialized"
  | ThrownOther _ => false
  end.

(** The rest of the async arrow function once [initYoga]'s promise has
    settled with [r].  [satori_throws] is what [initSatori(yoga)] does when
    it is reached: [None] when it returns, [Some e] when it throws [e].
    The result is the state after [finally] and the way the arrow
    function's own promise settles, with the number of [initSatori]
    calls made. *)
Definition initialization_body (st : yoga_state) (r : settled YogaModule)
    (satori_throws : option thrown) : yoga_state * settled unit * nat :=
  let catch (err : thrown) (st : yoga_state) : yoga_state * settled unit :=
    if already_initialized err then
      ({| yoga := yoga st; initialized := true;
          initializing := initializing st |}, Fulfilled tt)
    else (st, Rejected err) in
  let '(st1, outcome, satori_calls) :=
    match r with
    | Fulfilled y =>
        match satori_throws with
        | None =>
            ({| yoga := Some y; initialized := true;
                initializing := initializing st |}, Fulfilled tt, 1)
        | Some err => (catch err st, 1)
        end
    | Rejected err => (catch err st, 0)
    end in
  (* finally *)
  ({| yoga := yoga st1; initialized := initialized st1;
      initializing := None |}, outcome, satori_calls).

(** What can happen in the process. *)
Inductive event :=
| Call
| InitYogaSettles (r : settled YogaModule) (satori_throws : option thrown).

(** One event.  [InitYogaSettles] is only possible while an attempt is in
    flight; the continuation of the arrow function then runs to its end
    and settles the promise stored in [state.initializing]. *)
Definition step (w : world) (ev : event) : option world :=
  match ev with
  | Call => Some (ensureYogaInitialized w)
  | InitYogaSettles r satori_throws =>
      match initializing (state w) with
      | None => None
      | Some p =>
          let '(st, outcome, satori_calls) :=
            initialization_body (state w) r satori_throws in
          Some {| state := st;
                  promises := <[p := outcome]> (promises w);
                  next_promise := next_promise w;
                  initYoga_calls := initYoga_calls w;
                  initSatori_calls := initSatori_calls w + satori_calls;
                  suspensions := suspensions w;
                  returned := returned w |}
      end
  end.

Fixpoint run (w : world) (evs : list event) : option world :=
  match evs with
  | [] => Some w
  | ev :: evs' =>
      match step w ev with
      | Some w' => run w' evs'
      | None => None
      end
  end.

(** How the promise handed to the [c]-th caller has settled in [w];
    [None] while it is pending (or when there was no such call). *)
Definition observe (w : world) (c : nat) : option (settled unit) :=
  match returned w !! c with
  | Some ReturnedUndefined => Some (Fulfilled tt)
  | Some (ReturnedPromise p) => promises w !! p
  | None => None
  end.

(** How an attempt ends for those waiting on it. *)
Definition attempt_outcome (r : settled YogaModule)
    (satori_throws : option thrown) : settled unit :=
  (initialization_body initial_state r satori_throws).1.2.

(** A genuine failure: the attempt ends in an error that is not the
    "Already initialized" signal. *)
Definition genuine_failure (r : settled YogaModule)
    (satori_throws : option thrown) : option thrown :=
  match attempt_outcome r satori_throws with
  | Rejected e => Some e
  | Fulfilled _ => None
  end.

Definition reachable (w : world) : Prop :=
  exists evs, run initial_world evs = Some w.

(** The invariant of the singleton: an attempt in flight means the engine
    is not ready, its promise is pending, and promises not yet created
    are not in the store. *)
Record wf (w : world) : Prop := {
  wf_flight : forall p, initializing (state w) = Some p ->
                initialized (state w) = false /\ p < next_promise w;
  wf_fresh : forall q, next_promise w <= q -> promises w !! q = None;
  wf_pending : forall p, initializing (state w) = Some p ->
                promises w !! p = None;
}.

(** isInitialized() *)
Definition isInitialized (w : world) : bool := initialized (state w).

End Yoga.

(* ================================================================== *)
(** * types.ts and the collaborators of the generators                 *)
(* ================================================================== *)

Module Types.
Import Js.

Inductive EmojiType :=
| twemoji | openmoji | blobmoji | noto | fluent | fluentFlat.

(** A satori [Font]. *)
Record Font := mkFont {
  font_name : string;
  font_data : list N;
  font_weight : Z;
  font_style : string
}.

(** [OGOptions]: every field is optional. *)
Record OGOptions := mkOGOptions {
  width : option Z;
  height : option Z;
  fonts : option (list Font);
  emoji : option EmojiType;
  debug : option bool
}.

Definition no_options : OGOptions :=
  {| width := None; height := None; fonts := None; emoji := None;
     debug := None |}.

(** [OGResult<T>] = [OGSuccess<T> | OGError]. *)
Inductive OGResult (T : Type) :=
| OGSuccess (value : T)
| OGError (error : Error).
Arguments OGSuccess {T} value.
Arguments OGError {T} error.

(** The discriminant [result.ok]. *)
Definition ok {T} (r : OGResult T) : bool :=
  match r with
  | OGSuccess _ => true
  | OGError _ => false
  end.

(** A non-null [React.ReactNode], as far as the generators look at it. *)
Inductive ReactNode := react_node (vdom : string).

(** [React.ReactNode | string]; [Node None] is the node [null]. *)
Inductive element :=
| HtmlString (html : string)
| Node (n : option ReactNode).

(** [BatchItem] and [StreamItem] have the same fields. *)
Record Item := mkItem {
  item_element : element;
  item_options : option OGOptions
}.
Definition BatchItem := Item.
Definition StreamItem := Item.

Record BatchResult := mkBatchResult {
  index : Z;
  result : OGResult string
}.

Record BatchOptions := mkBatchOptions {
  concurrency : option Z;
  failFast : option bool;
  batch_defaults : OGOptions
}.

Record StreamResult := mkStreamResult {
  stream_index : nat;
  stream_result : OGResult string
}.

Record StreamOptions := mkStreamOptions {
  prefetch : option Z;
  stream_defaults : OGOptions
}.

Record GoogleFontOptions := mkGoogleFontOptions {
  family : string;
  weight : option Z;
  text : option string
}.

(** The object handed to [satori]. *)
Record SatoriOptions := mkSatoriOptions {
  satori_width : Z;
  satori_height : Z;
  satori_fonts : list Font;
  loadAdditionalAsset : option EmojiType
}.

(** The functions the generators import and await: how the promise of
    [ensureYogaInitialized()] settles for this caller, and what
    [parseHtml], [loadGoogleFont] and [satori] do on each input. *)
Record Env := mkEnv {
  ensureYogaInitialized : settled unit;
  parseHtml : string -> settled (option ReactNode);
  loadGoogleFont : GoogleFontOptions -> settled (list N);
  satori : ReactNode -> SatoriOptions -> settled string
}.

(** [x ?? d] *)
Definition nullish {A} (x : option A) (d : A) : A :=
  match x with Some a => a | None => d end.

(** [options.fonts?.length ? options.fonts : fallback] *)
Definition fonts_or (o : option OGOptions) (fallback : list Font)
  : list Font :=
  match o with
  | Some opts =>
      match fonts opts with
      | Some (f :: fs) => f :: fs
      | _ => fallback
      end
  | None => fallback
  end.

Definition has_fonts (o : OGOptions) : bool :=
  match fonts o with
  | Some (_ :: _) => true
  | _ => false
  end.

(** The default font: loaded as Bitter 600, registered with weight 500. *)
Definition load_default_fonts (env : Env) : settled (list Font) :=
  let! data :=
    loadGoogleFont env
      {| family := "Bitter"; weight := Some 600%Z; text := None |} in
  Fulfilled
    [ {| font_name := "Bitter"; font_data := data; font_weight := 500;
         font_style := "normal" |} ].

(** [typeof element === "string" ? await parseHtml(element) : element] *)
Definition resolve_element (env : Env) (e : element)
  : settled (option ReactNode) :=
  match e with
  | HtmlString html => parseHtml env html
  | Node n => Fulfilled n
  end.

Definition parse_failure : Error :=
  Errors.SVGGenerationError "Failed to parse HTML element".

End Types.

(* ================================================================== *)
(** * generators/single.ts                                             *)
(* ================================================================== *)

Module Single.
Import Js Types.

(** How the promise returned by [generateOG(element, options)] settles. *)
Definition generateOG (env : Env) (e : element) (options : OGOptions)
  : settled (OGResult string) :=
  try_catch
    ((* 1. Ensure WASM is initialized *)
     let! _ := ensureYogaInitialized env in
     (* 2. Parse HTML if string input *)
     let! reactElement := resolve_element env e in
     match reactElement with
     | None => Fulfilled (OGError parse_failure)
     | Some node =>
         (* 3. Prepare dimensions *)
         let width := nullish (width options) 1200%Z in
         let height := nullish (height options) 630%Z in
         (* 4. Load fonts if not provided *)
         let! fonts :=
           (if has_fonts options
            then Fulfilled (fonts_or (Some options) [])
            else load_default_fonts env) in
         (* 5. Generate SVG with Satori *)
         let! svg :=
           satori env node
             {| satori_width := width; satori_height := height;
                satori_fonts := fonts;
                loadAdditionalAsset := emoji options |} in
         Fulfilled (OGSuccess svg)
     end)
    (fun err => Fulfilled (OGError (Errors.as_error err))).

End Single.

(* ================================================================== *)
(** * Rendering one item of a batch or a stream                        *)
(* ================================================================== *)

Module Render.
Import Js Types.

(** The values both orchestrators fix before they start any render. *)
Record defaults := mkDefaults {
  defaultFonts : list Font;
  defaultWidth : Z;
  defaultHeight : Z;
  defaultEmoji : option EmojiType
}.

Definition item_emoji (item : Item) (d : defaults) : option EmojiType :=
  match item_options item with
  | Some o => match emoji o with Some e => Some e | None => defaultEmoji d end
  | None => defaultEmoji d
  end.

Definition item_width (item : Item) (d : defaults) : Z :=
  nullish (item_options item ≫= width) (defaultWidth d).

Definition item_height (item : Item) (d : defaults) : Z :=
  nullish (item_options item ≫= height) (defaultHeight d).

(** The body shared by the callback given to [chunk.map] in batch.ts and
    by [generateItem] in stream.ts, without the index: the [OGResult] the
    item ends with.  Its [try]/[catch] turns everything thrown into an
    error result, so the promise of the callback is always fulfilled. *)
Definition render_item (env : Env) (d : defaults) (item : Item)
  : OGResult string :=
  match
    try_catch
      (let! reactElement := resolve_element env (item_element item) in
       match reactElement with
       | None => Fulfilled (OGError parse_failure)
       | Some node =>
           let! svg :=
             satori env node
               {| satori_width := item_width item d;
                  satori_height := item_height item d;
                  satori_fonts := fonts_or (item_options item) (defaultFonts d);
                  loadAdditionalAsset := item_emoji item d |} in
           Fulfilled (OGSuccess svg)
       end)
      (fun err => Fulfilled (OGError (Errors.as_error err)))
  with
  | Fulfilled r => r
  | Rejected err => OGError (Errors.as_error err)
  end.

(** Steps 1 and 2 of both orchestrators: wait for the engine, then
    resolve the default fonts once.  Neither is inside a [try]. *)
Definition prepare (env : Env) (defaultOptions : OGOptions)
  : settled defaults :=
  let! _ := ensureYogaInitialized env in
  let! defaultFonts :=
    (if has_fonts defaultOptions
     then Fulfilled (fonts_or (Some defaultOptions) [])
     else load_default_fonts env) in
  Fulfilled
    {| defaultFonts := defaultFonts;
       defaultWidth := nullish (width defaultOptions) 1200%Z;
       defaultHeight := nullish (height defaultOptions) 630%Z;
       defaultEmoji := emoji defaultOptions |}.

End Render.

(* ================================================================== *)
(** * generators/batch.ts                                              *)
(* ================================================================== *)

Module Batch.
Import Js Types Render.

(** [results.sort((a, b) => a.index - b.index)]: [Array.prototype.sort]
    is stable, so an element moves behind another one only when the
    comparator is positive. *)
Fixpoint insert_by_index (x : BatchResult) (l : list BatchResult)
  : list BatchResult :=
  match l with
  | [] => [x]
  | y :: l' =>
      if (index x - index y <=? 0)%Z then x :: y :: l'
      else y :: insert_by_index x l'
  end.

Definition sort_by_index (l : list BatchResult) : list BatchResult :=
  foldr insert_by_index [] l.

Section ChunkLoop.
Context (env : Env) (d : defaults) (items : list BatchItem)
        (concurrency : Z) (failFast : bool).

(** The promises of one chunk, awaited together by [Promise.all], which
    keeps the order of the chunk. *)
Definition run_chunk (i : Z) (chunk : list BatchItem) : list BatchResult :=
  imap (fun chunkIndex item =>
          {| index := i + Z.of_nat chunkIndex;
             result := render_item env d item |}) chunk.

(** [for (let i = 0; i < items.length && !stopped; i += concurrency)].
    [started] logs the index of every render the loop has started.
    The loop need not end ([concurrency] may be [0]), so it runs on
    fuel: [None] means the fuel ran out before the loop condition
    became false. *)
Fixpoint chunk_loop (fuel : nat) (i : Z) (results : list BatchResult)
    (stopped : bool) (started : list Z)
  : option (list BatchResult * list Z) :=
  if (i <? Z.of_nat (length items))%Z && negb stopped then
    match fuel with
    | 0 => None
    | S fuel' =>
        let chunk := slice items i (i + concurrency) in
        let chunkResults := run_chunk i chunk in
        let results := results ++ chunkResults in
        let stopped :=
          if failFast then
            if existsb (fun r => negb (ok (result r))) chunkResults
            then true else stopped
          else stopped in
        chunk_loop fuel' (i + concurrency)%Z results stopped
          (started ++ map index chunkResults)
    end
  else Some (results, started).
End ChunkLoop.

(** [generateOGBatch(items, options)] with the log of started renders.
    [None]: not finished within [fuel] iterations of the chunk loop;
    [Some (Rejected e)]: the returned promise rejects. *)
Definition generateOGBatch_started (fuel : nat) (env : Env)
    (items : list BatchItem) (options : BatchOptions)
  : option (settled (list BatchResult * list Z)) :=
  let concurrency := nullish (concurrency options) 5%Z in
  let failFast := nullish (failFast options) false in
  (* 1. Single WASM initialization for the entire batch
     2. Pre-load default fonts once for the batch *)
  match prepare env (batch_defaults options) with
  | Rejected err => Some (Rejected err)
  | Fulfilled d =>
      (* 3. Process items in chunks based on concurrency *)
      match chunk_loop env d items concurrency failFast fuel 0 [] false [] with
      | None => None
      | Some (results, started) =>
          (* Sort by index to maintain order *)
          Some (Fulfilled (sort_by_index results, started))
      end
  end.

(** The entry every item gets when its render is started: its position
    in [items] and the outcome of its render. *)
Definition all_results (env : Env) (d : defaults) (items : list BatchItem)
  : list BatchResult :=
  imap (fun k item =>
          {| index := Z.of_nat k; result := render_item env d item |}) items.

(** Some render among the positions [lo .. hi-1] fails. *)
Definition fails_in (env : Env) (d : defaults) (items : list BatchItem)
    (lo hi : nat) : Prop :=
  exists j r, lo <= j < hi /\ all_results env d items !! j = Some r /\
              ok (result r) = false.

(** The position of the first item whose render fails, if there is one. *)
Definition first_failure (env : Env) (d : defaults) (items : list BatchItem)
  : option nat :=
  fst <$> list_find (fun r => ok (result r) = false) (all_results env d items).

(** The number of items in the chunks up to and including the chunk of
    item [j], for [n] items in chunks of [c]. *)
Definition scheduled_through_chunk_of (n : nat) (c : Z) (j : nat) : nat :=
  Nat.min n ((j / Z.to_nat c + 1) * Z.to_nat c).

(** The length the batch result is said to have: all items, or under
    [failFast] the items scheduled through the first failing chunk. *)
Definition scheduled_length (n : nat) (c : Z) (failFast : bool)
    (failure : option nat) : nat :=
  match failure with
  | Some j => if failFast then scheduled_through_chunk_of n c j else n
  | None => n
  end.

Definition generateOGBatch (fuel : nat) (env : Env)
    (items : list BatchItem) (options : BatchOptions)
  : option (settled (list BatchResult)) :=
  match generateOGBatch_started fuel env items options with
  | None => None
  | Some (Rejected err) => Some (Rejected err)
  | Some (Fulfilled (results, _)) => Some (Fulfilled results)
  end.

End Batch.

(* ================================================================== *)
(** * generators/stream.ts                                             *)
(* ================================================================== *)

Module Stream.
Import Js Types Render.

(** A promise returned by [generateItem]: the index it was started for,
    the value it is fulfilled with, the time its render was started and
    the time it settles. *)
Record handle := mkHandle {
  h_index : nat;
  h_value : StreamResult;
  h_started_at : nat;
  h_settles_at : nat
}.

(** Where the generator object is suspended. *)
Inductive position :=
| NotStarted
| AtYield
| Completed.

(** The local variables of the generator function, the clock, and the
    log of what each [await pending.shift()] waited for: the handle and
    the window it was the head of. *)
Record generator := mkGenerator {
  pos : position;
  stream_d : option defaults;
  pending : list handle;
  index : nat;
  iterator : list StreamItem;
  clock : nat;
  awaited : list (handle * list handle)
}.

(** What [next()] on the generator resolves or rejects with. *)
Inductive iter_result :=
| IterValue (r : StreamResult)
| IterDone
| IterThrow (e : thrown).

Section Pipeline.
(** [latency i] is the time the render of item [i] takes. *)
Context (env : Env) (latency : nat -> nat) (options : StreamOptions).

Definition prefetch_size : Z := nullish (prefetch options) 3%Z.

(** [generateItem(item, index)], called at time [now]. *)
Definition generateItem (d : defaults) (item : StreamItem) (index now : nat)
  : handle :=
  {| h_index := index;
     h_value := {| stream_index := index;
                   stream_result := render_item env d item |};
     h_started_at := now;
     h_settles_at := now + latency index |}.

(** [OGStream(items, options)]: the generator object; nothing of the
    body has run yet. *)
Definition OGStream (items : list StreamItem) : generator :=
  {| pos := NotStarted; stream_d := None; pending := []; index := 0;
     iterator := items; clock := 0; awaited := [] |}.

(** [for (let i = 0; i < prefetch; i++)]: fill the initial buffer. *)
Fixpoint fill (d : defaults) (now : nat) (i : Z) (it : list StreamItem)
    (pending : list handle) (index : nat)
  : list handle * nat * list StreamItem :=
  if (i <? prefetch_size)%Z then
    match it with
    | [] => (pending, index, [])
    | item :: it' =>
        fill d now (i + 1)%Z it'
          (pending ++ [generateItem d item index now]) (S index)
    end
  else (pending, index, it).

(** From the test of [while (pending.length > 0)] to the [yield]. *)
Definition await_head (g : generator) : generator * iter_result :=
  match pending g with
  | [] =>
      ({| pos := Completed; stream_d := stream_d g; pending := [];
          index := index g; iterator := iterator g; clock := clock g;
          awaited := awaited g |}, IterDone)
  | h :: rest =>
      ({| pos := AtYield; stream_d := stream_d g; pending := rest;
          index := index g; iterator := iterator g;
          clock := Nat.max (clock g) (h_settles_at h);
          awaited := awaited g ++ [(h, h :: rest)] |},
       IterValue (h_value h))
  end.

(** After the [yield]: refill the prefetch buffer. *)
Definition refill (g : generator) : generator :=
  match stream_d g, iterator g with
  | Some d, item :: it' =>
      {| pos := pos g; stream_d := stream_d g;
         pending := pending g ++ [generateItem d item (index g) (clock g)];
         index := S (index g); iterator := it'; clock := clock g;
         awaited := awaited g |}
  | _, _ => g
  end.

(** One [next()] of the consumer: the generator runs from where it is
    suspended to its next [yield], to its end, or to a throw. *)
Definition next (g : generator) : generator * iter_result :=
  match pos g with
  | NotStarted =>
      match prepare env (stream_defaults options) with
      | Rejected err =>
          ({| pos := Completed; stream_d := None; pending := pending g;
              index := index g; iterator := iterator g; clock := clock g;
              awaited := awaited g |}, IterThrow err)
      | Fulfilled d =>
          let '(pending, index, it) :=
            fill d (clock g) 0 (iterator g) [] 0 in
          await_head
            {| pos := NotStarted; stream_d := Some d; pending := pending;
               index := index; iterator := it; clock := clock g;
               awaited := awaited g |}
      end
  | AtYield => await_head (refill g)
  | Completed => (g, IterDone)
  end.

(** [for await (const r of stream) out.push(r)]: the consumer takes
    every result.  [None]: not finished after [fuel] calls of
    [next()]. *)
Fixpoint for_await (fuel : nat) (g : generator) (out : list StreamResult)
  : option (list StreamResult * option thrown * generator) :=
  match fuel with
  | 0 => None
  | S fuel' =>
      match next g with
      | (g', IterValue r) => for_await fuel' g' (out ++ [r])
      | (g', IterDone) => Some (out, None, g')
      | (g', IterThrow e) => Some (out, Some e, g')
      end
  end.

(** The renders started so far: those awaited and those in flight. *)
Definition started (g : generator) : list nat :=
  map (fun a => h_index a.1) (awaited g) ++ map h_index (pending g).

End Pipeline.

(** The results of the items of [it], in order, numbered from [index]. *)
Fixpoint results_from (env : Env) (d : defaults) (index : nat)
    (it : list StreamItem) : list StreamResult :=
  match it with
  | [] => []
  | item :: it' =>
      {| stream_index := index; stream_result := render_item env d item |}
      :: results_from env d (S index) it'
  end.

(** What is still to come out of a generator whose consumer keeps asking:
    the values of the renders in flight, then the results of the items
    not yet pulled. *)
Definition future (env : Env) (d : defaults) (g : generator)
  : list StreamResult :=
  map h_value (pending g) ++ results_from env d (index g) (iterator g).

(** [h] was started for an earlier item than [h'], and not later. *)
Definition before (h h' : handle) : Prop :=
  h_index h < h_index h' /\ h_started_at h <= h_started_at h'.

(** An entry of the [awaited] log in which the awaited handle is the head
    of the window and every other render in flight was started for a
    later item, at the same time or later. *)
Definition awaits_head (a : handle * list handle) : Prop :=
  exists rest, a.2 = a.1 :: rest /\ Forall (before a.1) rest.

(** The order kept by the pipeline: the window is in start order, and
    every await so far was an await of the window head. *)
Record ordered (g : generator) : Prop := mkOrdered {
  ordered_pending : StronglySorted before (pending g);
  ordered_bound :
    Forall (fun h => h_index h < index g /\ h_started_at h <= clock g)
           (pending g);
  ordered_awaited : Forall awaits_head (awaited g)
}.

End Stream.

(* ================================================================== *)
(** * html/utils.ts                                                    *)
(* ================================================================== *)

(** Strings are sequences of 8-bit code units, read as the first 256 code
    points; the whitespace and line-terminator classes below are the
    members of the JavaScript classes in that range. *)

Module Utils.

Definition dquote : string := String "034"%char EmptyString.

(** Members of the class [\s]: tab, line feed, vertical tab, form feed,
    carriage return, space, no-break space. *)
Definition is_whitespace (c : ascii) : bool :=
  let n := nat_of_ascii c in
  (n =? 9) || (n =? 10) || (n =? 11) || (n =? 12) || (n =? 13) ||
  (n =? 32) || (n =? 160).

(** The characters [.] does not match. *)
Definition is_line_terminator (c : ascii) : bool :=
  let n := nat_of_ascii c in (n =? 10) || (n =? 13).

Definition is_empty (s : string) : bool :=
  match s with EmptyString => true | String _ _ => false end.

(** [s.replace(/c/g, by)] for a single character [c]. *)
Fixpoint replace_char (c : ascii) (by_ : string) (s : string) : string :=
  match s with
  | EmptyString => EmptyString
  | String a rest =>
      if Ascii.eqb a c then by_ +:+ replace_char c by_ rest
      else String a (replace_char c by_ rest)
  end.

Definition backslash : string := String "092"%char EmptyString.

(** [sanitizeJSON]: the six replacements, in the order of the source. *)
Definition sanitizeJSON (unsanitized : string) : string :=
  let s := replace_char "092"%char (backslash +:+ backslash) unsanitized in
  let s := replace_char "010"%char (backslash +:+ "n") s in
  let s := replace_char "013"%char (backslash +:+ "r") s in
  let s := replace_char "009"%char (backslash +:+ "t") s in
  let s := replace_char "012"%char (backslash +:+ "f") s in
  replace_char "034"%char (backslash +:+ dquote) s.

(** [str.endsWith(",") ? str.slice(0, -1) : str] *)
Definition maybeRemoveTrailingComma (str : string) : string :=
  if Js.endsWith_char str ","%char then Js.drop_last str else str.

(** [s.replace(/\s\s+/g, " ")]: every maximal run of two or more
    whitespace characters becomes one space; a single whitespace
    character stays.  [run] is the run being read: its first character
    and whether it has more than one. *)
Fixpoint collapse_whitespace (run : option (ascii * bool)) (s : string)
  : string :=
  let flush :=
    match run with
    | None => EmptyString
    | Some (c, false) => String c EmptyString
    | Some (_, true) => " "
    end in
  match s with
  | EmptyString => flush
  | String a rest =>
      if is_whitespace a then
        collapse_whitespace
          (match run with
           | None => Some (a, false)
           | Some (c, _) => Some (c, true)
           end) rest
      else flush +:+ String a (collapse_whitespace None rest)
  end.

(** [style.replace(/\n/g, "").replace(/\s\s+/g, " ")] *)
Definition cleanStyle (style : string) : string :=
  collapse_whitespace None (replace_char "010"%char EmptyString style).

(** The lookahead body [[^(]*\)] at the start of [s]: a [)] comes before
    any [(]. *)
Fixpoint closes_before_open (s : string) : bool :=
  match s with
  | EmptyString => false
  | String c rest =>
      if Ascii.eqb c ")"%char then true
      else if Ascii.eqb c "("%char then false
      else closes_before_open rest
  end.

(** [s.split(/;(?![^(]*\))/)]: cut at every [;] that is not followed by
    a [)] coming before any [(]. *)
Fixpoint split_style (s : string) : list string :=
  match s with
  | EmptyString => [EmptyString]
  | String c rest =>
      if Ascii.eqb c ";"%char && negb (closes_before_open rest) then
        EmptyString :: split_style rest
      else
        match split_style rest with
        | piece :: pieces => String c piece :: pieces
        | [] => [String c EmptyString]
        end
  end.

(** The positions at which [split_style] cuts, counted from [i]. *)
Fixpoint split_positions (i : nat) (s : string) : list nat :=
  match s with
  | EmptyString => []
  | String c rest =>
      if Ascii.eqb c ";"%char && negb (closes_before_open rest) then
        i :: split_positions (S i) rest
      else split_positions (S i) rest
  end.

(** The longest prefix without a line terminator: what [.+] takes. *)
Fixpoint line_prefix (s : string) : string :=
  match s with
  | EmptyString => EmptyString
  | String c rest =>
      if is_line_terminator c then EmptyString
      else String c (line_prefix rest)
  end.

(** [const [k, v] = cur.split(/:(.+)/)]: the text before the first colon
    that is followed by a character [.] matches, and what [(.+)] captures
    after it; [v] is [undefined] when there is no such colon. *)
Fixpoint split_first_colon (cur : string) : string * option string :=
  match cur with
  | EmptyString => (EmptyString, None)
  | String c rest =>
      if Ascii.eqb c ":"%char && negb (is_empty (line_prefix rest)) then
        (EmptyString, Some (line_prefix rest))
      else
        let '(k, v) := split_first_colon rest in (String c k, v)
  end.

Fixpoint trim_start (s : string) : string :=
  match s with
  | EmptyString => EmptyString
  | String c rest => if is_whitespace c then trim_start rest else s
  end.

Fixpoint trim_end (s : string) : string :=
  match s with
  | EmptyString => EmptyString
  | String c rest =>
      let rest' := trim_end rest in
      if is_whitespace c && is_empty rest' then EmptyString
      else String c rest'
  end.

(** [s.trim()] *)
Definition trim (s : string) : string := trim_end (trim_start s).

(** An element as the HTMLRewriter hands it to the handler. *)
Record Element := mkElement {
  tagName : string;
  attributes : list (string * string)
}.

Fixpoint getAttribute (attrs : list (string * string)) (name : string)
  : option string :=
  match attrs with
  | [] => None
  | (n, v) :: attrs' =>
      if String.eqb n name then Some v else getAttribute attrs' name
  end.

(** A string used as a condition. *)
Definition truthy (s : option string) : bool :=
  match s with
  | Some (String _ _) => true
  | _ => false
  end.

Section GetAttributes.
(** The default export of the package just-camel-case. *)
Context (camelCase : string -> string).

(** The pair a piece of the style contributes, if [k && v] holds. *)
Definition style_entry (cur : string) : option (string * string) :=
  match split_first_colon cur with
  | (String c k, Some (String a v)) =>
      Some (camelCase (trim (String c k)),
            sanitizeJSON (trim (String a v)))
  | _ => None
  end.

(** The key/value pairs of a cleaned style, in order. *)
Definition style_entries (clean : string) : list (string * string) :=
  omap style_entry (split_style clean).

Definition entry_text (e : string * string) : string :=
  dquote +:+ e.1 +:+ dquote +:+ ": " +:+ dquote +:+ e.2 +:+ dquote +:+ ",".

(** The callback of [reduce]. *)
Definition style_step (acc cur : string) : string :=
  match style_entry cur with
  | Some e => acc +:+ entry_text e
  | None => acc
  end.

(** [getAttributes(element)] together with the warnings it prints. *)
Definition getAttributes_log (element : Element) : string * list string :=
  let attrs := EmptyString in
  let style := getAttribute (attributes element) "style" in
  let attrs :=
    if truthy style then
      let clean := cleanStyle (default EmptyString style) in
      let styleStr :=
        fold_left style_step (split_style clean) EmptyString in
      let styleStr := maybeRemoveTrailingComma styleStr in
      if is_empty styleStr then attrs
      else attrs +:+ dquote +:+ "style" +:+ dquote +:+ ":{" +:+ styleStr
                 +:+ "},"
    else attrs in
  let src := getAttribute (attributes element) "src" in
  if truthy src then
    let width := getAttribute (attributes element) "width" in
    let height := getAttribute (attributes element) "height" in
    if truthy width && truthy height then
      (attrs +:+ dquote +:+ "src" +:+ dquote +:+ ":" +:+ dquote
             +:+ sanitizeJSON (default EmptyString src) +:+ dquote
             +:+ ", " +:+ dquote +:+ "width" +:+ dquote +:+ ":" +:+ dquote
             +:+ default EmptyString width +:+ dquote
             +:+ ", " +:+ dquote +:+ "height" +:+ dquote +:+ ":" +:+ dquote
             +:+ default EmptyString height +:+ dquote +:+ ",", [])
    else
      (attrs +:+ dquote +:+ "src" +:+ dquote +:+ ":" +:+ dquote
             +:+ sanitizeJSON (default EmptyString src) +:+ dquote +:+ ",",
       ["Image missing width or height attribute as required by Satori"])
  else (attrs, []).

Definition getAttributes (element : Element) : string :=
  (getAttributes_log element).1.

End GetAttributes.

(** The nesting depth of parentheses after the first [i] characters of
    [s], starting from depth [depth]. *)
Fixpoint depth_at (depth : nat) (s : string) (i : nat) : nat :=
  match i, s with
  | 0, _ => depth
  | S _, EmptyString => depth
  | S i', String c rest =>
      if Ascii.eqb c "("%char then depth_at (S depth) rest i'
      else if Ascii.eqb c ")"%char then depth_at (Nat.pred depth) rest i'
      else depth_at depth rest i'
  end.

(** No parenthesis occurs in [s]. *)
Fixpoint no_parentheses (s : string) : bool :=
  match s with
  | EmptyString => true
  | String c rest =>
      negb (Ascii.eqb c "("%char) && negb (Ascii.eqb c ")"%char)
      && no_parentheses rest
  end.

End Utils.

(* ================================================================== *)
(** * html/parser.ts                                                   *)
(* ================================================================== *)

Module Parser.
Import Js Utils.

(** What the HTMLRewriter reports while it streams over the document:
    an element (with [void] set when [element.onEndTag] throws because the
    element has no end tag), the end tag of the innermost open element,
    and a chunk of text. *)
Inductive rewriter_event :=
| ElementEvent (element : Element) (void : bool)
| EndTagEvent
| TextEvent (text : string).

Definition close_element (vdomStr : string) : string :=
  maybeRemoveTrailingComma vdomStr +:+ "]}},".

(** The synthetic parent put around the input. *)
Definition wrap (html : string) : string :=
  "<div style=" +:+ dquote +:+ "display: flex; flex-direction: column;"
  +:+ dquote +:+ ">" +:+ html +:+ "</div>".

Section ParseHtml.
(** The runtime's HTMLRewriter, as the events it produces for a document
    (or the error [rewriter.text()] rejects with), [JSON.parse] ([None]
    when it throws), and just-camel-case. *)
Context (rewrite : string -> settled (list rewriter_event))
        (JSON_parse : string -> option Types.ReactNode)
        (camelCase : string -> string).

(** The [element] and [text] handlers and the end-tag callback. *)
Definition handle (vdomStr : string) (ev : rewriter_event) : string :=
  match ev with
  | ElementEvent element void =>
      let attrs := getAttributes camelCase element in
      let vdomStr :=
        vdomStr +:+ "{" +:+ dquote +:+ "type" +:+ dquote +:+ ":" +:+ dquote
                +:+ tagName element +:+ dquote +:+ ", " +:+ dquote +:+ "props"
                +:+ dquote +:+ ":{" +:+ attrs +:+ dquote +:+ "children"
                +:+ dquote +:+ ": [" in
      if void then close_element vdomStr else vdomStr
  | EndTagEvent => close_element vdomStr
  | TextEvent text =>
      if is_empty text then vdomStr
      else
        let sanitized := sanitizeJSON text in
        if is_empty sanitized then vdomStr
        else vdomStr +:+ dquote +:+ sanitized +:+ dquote +:+ ","
  end.

(** The string handed to [JSON.parse]. *)
Definition vdom_text (events : list rewriter_event) : string :=
  maybeRemoveTrailingComma (fold_left handle events EmptyString).

(** [parseHtml(html)]: [null] when [JSON.parse] throws. *)
Definition parseHtml (html : string) : settled (option Types.ReactNode) :=
  let! events := rewrite (wrap html) in
  Fulfilled (JSON_parse (vdom_text events)).

End ParseHtml.
End Parser.

(* ================================================================== *)
(** * Environments and inputs used in the examples                     *)
(* ================================================================== *)

Module Samples.
Import Js Types.

Definition svg_of (node : ReactNode) : string :=
  match node with react_node vdom => "<svg>" +:+ vdom +:+ "</svg>" end.

(** A healthy runtime: the engine is ready, every string parses, the
    font loads, satori renders. *)
Definition healthy : Env :=
  {| ensureYogaInitialized := Fulfilled tt;
     parseHtml := fun html => Fulfilled (Some (react_node html));
     loadGoogleFont := fun _ => Fulfilled [0%N; 1%N];
     satori := fun node _ => Fulfilled (svg_of node) |}.

Definition wasm_failure : thrown :=
  ThrownError (mkError "CompileError" "WebAssembly.instantiate(): out of memory").

(** The same runtime with an engine whose initialization has failed. *)
Definition engine_down : Env :=
  {| ensureYogaInitialized := Rejected wasm_failure;
     parseHtml := parseHtml healthy;
     loadGoogleFont := loadGoogleFont healthy;
     satori := satori healthy |}.

(** A runtime in which the string ["<div"] does not parse. *)
Definition strict_parser : Env :=
  {| ensureYogaInitialized := Fulfilled tt;
     parseHtml := fun html =>
       if String.eqb html "<div" then Fulfilled None
       else Fulfilled (Some (react_node html));
     loadGoogleFont := loadGoogleFont healthy;
     satori := satori healthy |}.

Definition html_item (html : string) : Item :=
  {| item_element := HtmlString html; item_options := None |}.

Definition no_batch_options : BatchOptions :=
  {| concurrency := None; failFast := None; batch_defaults := no_options |}.

Definition no_stream_options : StreamOptions :=
  {| prefetch := None; stream_defaults := no_options |}.

(** Six items of which the second does not parse. *)
Definition six_items : list Item :=
  [ html_item "<p>0</p>"; html_item "<div"; html_item "<p>2</p>";
    html_item "<p>3</p>"; html_item "<p>4</p>"; html_item "<p>5</p>" ].

Definition fail_fast_pairs : BatchOptions :=
  {| concurrency := Some 2%Z; failFast := Some true;
     batch_defaults := no_options |}.

(** Three items, a window of two, and a first render that takes a
    hundred times as long as the others. *)
Definition three_items : list Item :=
  [ html_item "<p>0</p>"; html_item "<p>1</p>"; html_item "<p>2</p>" ].

Definition window (size : Z) : StreamOptions :=
  {| prefetch := Some size; stream_defaults := no_options |}.

Definition slow_first (index : nat) : nat :=
  match index with 0 => 100 | _ => 1 end.

Definition bitter_defaults : Render.defaults :=
  {| Render.defaultFonts :=
       [ {| font_name := "Bitter"; font_data := [0%N; 1%N];
            font_weight := 500; font_style := "normal" |} ];
     Render.defaultWidth := 1200; Render.defaultHeight := 630;
     Render.defaultEmoji := None |}.

(** Text written with ['] where the JSON has a double quote. *)
Definition quoted (s : string) : string :=
  Utils.replace_char "'"%char Utils.dquote s.

(** A camel-casing of plain hyphen-case keys in lower-case ASCII, which
    is what just-camel-case does on them: drop each hyphen and raise the
    letter after it. *)
Fixpoint hyphen_to_camel (raise : bool) (s : string) : string :=
  match s with
  | EmptyString => EmptyString
  | String c rest =>
      if Ascii.eqb c "-"%char then hyphen_to_camel true rest
      else
        let n := nat_of_ascii c in
        let c' := if raise && (97 <=? n) && (n <=? 122)
                  then ascii_of_nat (n - 32) else c in
        String c' (hyphen_to_camel false rest)
  end.

(** The events of the example document of the specification, inside the
    synthetic parent. *)
Definition example_events : list Parser.rewriter_event :=
  [ Parser.ElementEvent
      {| Utils.tagName := "div";
         Utils.attributes :=
           [("style", "display: flex; flex-direction: column;")] |} false;
    Parser.ElementEvent
      {| Utils.tagName := "div";
         Utils.attributes :=
           [("style",
             "color: red; background: linear-gradient(90deg, red, blue)")] |}
      false;
    Parser.ElementEvent
      {| Utils.tagName := "span"; Utils.attributes := [] |} false;
    Parser.TextEvent "Hi";
    Parser.EndTagEvent; Parser.EndTagEvent; Parser.EndTagEvent ].

End Samples.

(* ================================================================== *)
(** * assets/emoji.ts                                                  *)
(* ================================================================== *)

Module Emoji.
Import Js Types.

(** The text segments satori passes are JavaScript strings that may hold
    any character, so here a string is its list of UTF-16 code units, each
    what [charCodeAt] returns. *)
Notation units := (list Z) (only parsing).

(** [n.toString(16)] for an integer. *)
Definition toString16 (n : Z) : string :=
  match n with
  | Z0 => "0"
  | Zpos p => HexString.Raw.of_pos p ""
  | Zneg p => "-" +:+ HexString.Raw.of_pos p ""
  end.

Definition U200D : Z := 8205.
Definition UFE0F : Z := 65039.

(** The [while] loop of [toCodePoint]: [p] is the pending high surrogate
    ([0] when there is none), [r] the codes pushed so far. *)
Fixpoint toCodePoint_loop (unicodeSurrogates : units) (p : Z)
    (r : list string) : list string :=
  match unicodeSurrogates with
  | [] => r
  | c2 :: rest =>
      if negb (p =? 0)%Z then
        toCodePoint_loop rest 0
          (r ++ [toString16 (65536 + Z.shiftl (p - 55296) 10 + (c2 - 56320))])
      else if (55296 <=? c2)%Z && (c2 <=? 56319)%Z then
        toCodePoint_loop rest c2 r
      else
        toCodePoint_loop rest p (r ++ [toString16 c2])
  end.

Definition toCodePoint (unicodeSurrogates : units) : string :=
  String.concat "-" (toCodePoint_loop unicodeSurrogates 0 []).

(** [char.indexOf(U200D) < 0 ? char.replace(UFE0Fg, "") : char] *)
Definition getIconCode (char : units) : string :=
  toCodePoint
    (if negb (existsb (Z.eqb U200D) char)
     then filter (fun c => c <> UFE0F) char
     else char).

(** What satori's [loadAdditionalAsset] may be given back. *)
Inductive asset :=
| AssetData (url : string)
| AssetFonts (fonts : list Font).

(** An asset used as a condition: an array is always truthy. *)
Definition asset_truthy (a : asset) : bool :=
  match a with
  | AssetData (String _ _) => true
  | AssetData EmptyString => false
  | AssetFonts _ => true
  end.

(** The module-level [assetCache], and the URLs fetched so far. *)
Record loader_state := mkLoaderState {
  assetCache : gmap string asset;
  fetched : list string
}.

Section Loader.
(** The builtins and the network: [toLowerCase], [toUpperCase], [btoa]
    (which throws on characters above 255), [JSON.stringify] of the
    array [[languageCode, segment]] used as cache key, and what fetching
    a URL and reading its text gives. *)
Context (toLowerCase toUpperCase : string -> string)
        (btoa : string -> settled string)
        (stringify_pair : string -> units -> string)
        (fetch_text : string -> settled string).

(** [apis[type]] applied as [loadEmoji] applies it. *)
Definition emoji_url (code : string) (type : EmojiType) : string :=
  match type with
  | twemoji =>
      "https://cdn.jsdelivr.net/gh/twitter/twemoji@14.0.2/assets/svg/"
      +:+ toLowerCase code +:+ ".svg"
  | openmoji =>
      "https://cdn.jsdelivr.net/npm/@svgmoji/openmoji@2.0.0/svg/"
      +:+ toUpperCase code +:+ ".svg"
  | blobmoji =>
      "https://cdn.jsdelivr.net/npm/@svgmoji/blob@2.0.0/svg/"
      +:+ toUpperCase code +:+ ".svg"
  | noto =>
      "https://cdn.jsdelivr.net/gh/svgmoji/svgmoji/packages/svgmoji__noto/svg/"
      +:+ toUpperCase code +:+ ".svg"
  | fluent =>
      "https://cdn.jsdelivr.net/gh/shuding/fluentui-emoji-unicode/assets/"
      +:+ toLowerCase code +:+ "_color.svg"
  | fluentFlat =>
      "https://cdn.jsdelivr.net/gh/shuding/fluentui-emoji-unicode/assets/"
      +:+ toLowerCase code +:+ "_flat.svg"
  end.

Definition record_fetch (st : loader_state) (url : string) : loader_state :=
  {| assetCache := assetCache st; fetched := fetched st ++ [url] |}.

(** The inner [fn(code, text)]: [undefined] unless [code] is "emoji". *)
Definition fn (emoji : EmojiType) (code : string) (text : units)
    (st : loader_state) : settled (option asset) * loader_state :=
  if String.eqb code "emoji" then
    let url := emoji_url (getIconCode text) emoji in
    (let! svg := fetch_text url in
     let! encoded := btoa svg in
     Fulfilled (Some (AssetData ("data:image/svg+xml;base64," +:+ encoded))),
     record_fetch st url)
  else (Fulfilled None, st).

(** The function [loadDynamicAsset({ emoji })] returns, applied to
    [(languageCode, segment)]. *)
Definition loadDynamicAsset (emoji : EmojiType) (languageCode : string)
    (segment : units) (st : loader_state) : settled asset * loader_state :=
  let key := stringify_pair languageCode segment in
  let miss :=
    match fn emoji languageCode segment st with
    | (Rejected err, st') => (Rejected err, st')
    | (Fulfilled (Some a), st') =>
        if asset_truthy a then
          (Fulfilled a,
           {| assetCache := <[key := a]> (assetCache st');
              fetched := fetched st' |})
        else (Fulfilled (AssetFonts []), st')
    | (Fulfilled None, st') => (Fulfilled (AssetFonts []), st')
    end in
  match assetCache st !! key with
  | Some cached => if asset_truthy cached then (Fulfilled cached, st) else miss
  | None => miss
  end.

End Loader.

(** The UTF-16 code units of a code point. *)
Definition utf16 (cp : Z) : units :=
  if (cp <? 65536)%Z then [cp]
  else [ (55296 + Z.shiftr (cp - 65536) 10)%Z;
         (56320 + Z.land (cp - 65536) 1023)%Z ].

(** The JavaScript string made of the given code points. *)
Definition of_code_points (cps : list Z) : units :=
  concat (map utf16 cps).

(** A Unicode scalar value: a code point that is not a surrogate. *)
Definition scalar (cp : Z) : Prop :=
  (0 <= cp < 55296 \/ 57344 <= cp <= 1114111)%Z.

End Emoji.

(* ================================================================== *)
(** * assets/font.ts                                                   *)
(* ================================================================== *)

Module FontLoader.
Import Js Types.

(** A response as far as [loadGoogleFont] looks at it. *)
Record Response := mkResponse {
  body : string;
  headers : list (string * string)
}.

Inductive request :=
| CssRequest (url : string) (user_agent : string)
| FontRequest (url : string).

(** [caches.default], the requests sent so far, and the calls of
    [cache.put] made so far. *)
Record network := mkNetwork {
  cache : gmap string Response;
  requests : list request;
  puts : list (string * Response)
}.

(** What lies outside: [encodeURIComponent], what the two kinds of fetch
    settle with ([fetch_font] stands for
    [fetch(fontUrl).then((res) => res.arrayBuffer())]), and the platform's
    cache.  The promise of [cache.put] rejects for some responses
    ([cache_put]); when it is fulfilled the platform has kept the response
    or not: it resolves without storing a response it may not cache, one
    sent with [Cache-Control: private] for instance ([cache_keeps]). *)
Record Runtime := mkRuntime {
  encodeURIComponent : string -> string;
  fetch_css : string -> settled Response;
  cache_put : string -> Response -> settled unit;
  cache_keeps : string -> Response -> bool;
  fetch_font : string -> settled (list N)
}.

Definition user_agent : string :=
  "Mozilla/5.0 (Macintosh; U; Intel Mac OS X 10_6_8; de-at) AppleWebKit/533.21.1 (KHTML, like Gecko) Version/5.0.5 Safari/533.21.1".

(** The entries of [params], in insertion order. *)
Definition params (rt : Runtime) (o : GoogleFontOptions)
  : list (string * string) :=
  [ ("family",
     encodeURIComponent rt (family o) +:+
     match weight o with
     | Some w => if (w =? 0)%Z then "" else ":wght@" +:+ pretty w
     | None => ""
     end);
    match text o with
    | Some (String c t) => ("text", String c t)
    | _ => ("subset", "latin")
    end ].

Definition css_url (rt : Runtime) (o : GoogleFontOptions) : string :=
  "https://fonts.googleapis.com/css2?" +:+
  String.concat "&" (map (fun kv => kv.1 +:+ "=" +:+ kv.2) (params rt o)).

Fixpoint skip (n : nat) (s : string) : string :=
  match n, s with
  | S n', String _ rest => skip n' rest
  | _, _ => s
  end.

(** The text after the capture: [\) format\('(opentype|truetype)'\)]. *)
Definition at_format (s : string) : bool :=
  String.prefix ") format('opentype')" s ||
  String.prefix ") format('truetype')" s.

(** The longest run of characters [.] matches at the start of [s] that
    is followed by the format text: what a greedy [.*] captures after
    backtracking. *)
Fixpoint capture_rest (s : string) : option string :=
  match s with
  | EmptyString => None
  | String c rest =>
      if Utils.is_line_terminator c then
        if at_format s then Some EmptyString else None
      else
        match capture_rest rest with
        | Some u => Some (String c u)
        | None => if at_format s then Some EmptyString else None
        end
  end.

(** [(.+)]: at least one character. *)
Definition capture (s : string) : option string :=
  match s with
  | EmptyString => None
  | String c rest =>
      if Utils.is_line_terminator c then None
      else String c <$> capture_rest rest
  end.

(** [body.match(/src: url\((.+)\) format\('(opentype|truetype)'\)/)?.[1]]:
    the capture of the leftmost match. *)
Fixpoint match_font_url (body : string) : option string :=
  match body with
  | EmptyString => None
  | String _ rest =>
      if String.prefix "src: url(" body then
        match capture (skip 9 body) with
        | Some u => Some u
        | None => match_font_url rest
        end
      else match_font_url rest
  end.

Definition cached (res : Response) : Response :=
  {| body := body res;
     headers := headers res ++ [("Cache-Control", "s-maxage=3600")] |}.

Definition sent (nw : network) (r : request) : network :=
  {| cache := cache nw; requests := requests nw ++ [r]; puts := puts nw |}.

(** [await cache.put(key, res)] seen from the cache: the call is made,
    and the response is there afterwards when the promise was fulfilled
    and the platform kept it. *)
Definition put (rt : Runtime) (key : string) (res : Response)
    (nw : network) : network :=
  {| cache :=
       match cache_put rt key res with
       | Fulfilled _ =>
           if cache_keeps rt key res then <[key := res]> (cache nw)
           else cache nw
       | Rejected _ => cache nw
       end;
     requests := requests nw;
     puts := puts nw ++ [(key, res)] |}.

(** From [const body = await res.text()] on. *)
Definition load_from_css (rt : Runtime) (o : GoogleFontOptions)
    (res : Response) (nw : network) : settled (list N) * network :=
  match match_font_url (body res) with
  | Some fontUrl => (fetch_font rt fontUrl, sent nw (FontRequest fontUrl))
  | None =>
      (Rejected (ThrownError
         (Errors.FontLoadError ("Could not find font URL for " +:+ family o))),
       nw)
  end.

(** [loadGoogleFont(options)]: the way its promise settles and the
    network and cache after it. *)
Definition loadGoogleFont (rt : Runtime) (o : GoogleFontOptions)
    (nw : network) : settled (list N) * network :=
  let url := css_url rt o in
  match cache nw !! url with
  | Some res => load_from_css rt o res nw
  | None =>
      let nw := sent nw (CssRequest url user_agent) in
      match fetch_css rt url with
      | Rejected err => (Rejected err, nw)
      | Fulfilled res =>
          let res := cached res in
          let nw := put rt url res nw in
          match cache_put rt url res with
          | Rejected err => (Rejected err, nw)
          | Fulfilled _ => load_from_css rt o res nw
          end
      end
  end.

End FontLoader.

(* ================================================================== *)
(** * Further notions used to state properties of the code            *)
(* ================================================================== *)

Module YogaInvariants.
Import Js Yoga.

(** The number of attempts in flight: zero or one. *)
Definition in_flight (w : world) : nat :=
  match initializing (state w) with Some _ => 1 | None => 0 end.

(** The bookkeeping of attempts: every call of [initYoga] belongs to an
    attempt that has settled or to the one in flight; each attempt
    suspended once and created one promise; the engine object is only
    stored once the engine is flagged ready. *)
Record accounted (w : world) : Prop := mkAccounted {
  acc_calls : initYoga_calls w = size (promises w) + in_flight w;
  acc_suspensions : suspensions w = initYoga_calls w;
  acc_promises : next_promise w = initYoga_calls w;
  acc_yoga : initialized (state w) = false -> yoga (state w) = None;
  acc_satori : initSatori_calls w <= size (promises w)
}.

End YogaInvariants.

Module SingleSpec.
Import Js Types.

(** Step 4 of [generateOG]: the fonts handed to satori. *)
Definition resolve_fonts (env : Env) (options : OGOptions)
  : settled (list Font) :=
  if has_fonts options then Fulfilled (fonts_or (Some options) [])
  else load_default_fonts env.

(** The options [generateOG] hands to satori. *)
Definition satori_options (options : OGOptions) (fonts : list Font)
  : SatoriOptions :=
  {| satori_width := nullish (width options) 1200%Z;
     satori_height := nullish (height options) 630%Z;
     satori_fonts := fonts;
     loadAdditionalAsset := emoji options |}.

(** [env] with another font loader. *)
Definition with_font_loader (env : Env)
    (loader : GoogleFontOptions -> settled (list N)) : Env :=
  {| ensureYogaInitialized := ensureYogaInitialized env;
     parseHtml := parseHtml env;
     loadGoogleFont := loader;
     satori := satori env |}.

End SingleSpec.

Module StreamSpec.
Import Js Types Render Stream.

(** The generator after [k] calls of [next()]. *)
Fixpoint nexts (env : Env) (latency : nat -> nat) (options : StreamOptions)
    (k : nat) (g : generator) : generator :=
  match k with
  | 0 => g
  | S k' => nexts env latency options k' (next env latency options g).1
  end.

End StreamSpec.

Module UtilsSpec.
Import Utils.

(** The escape of one character: what [sanitizeJSON] makes of it. *)
Definition escape_char (c : ascii) : string :=
  if Ascii.eqb c "092"%char then backslash +:+ backslash
  else if Ascii.eqb c "010"%char then backslash +:+ "n"
  else if Ascii.eqb c "013"%char then backslash +:+ "r"
  else if Ascii.eqb c "009"%char then backslash +:+ "t"
  else if Ascii.eqb c "012"%char then backslash +:+ "f"
  else if Ascii.eqb c "034"%char then backslash +:+ dquote
  else String c EmptyString.

(** Escaping in one pass, character by character. *)
Fixpoint escape (s : string) : string :=
  match s with
  | EmptyString => EmptyString
  | String c rest => escape_char c +:+ escape rest
  end.

(** Reading the escapes back, as a JSON parser does inside a string. *)
Fixpoint unescape (s : string) : string :=
  match s with
  | EmptyString => EmptyString
  | String c rest =>
      if Ascii.eqb c "092"%char then
        match rest with
        | EmptyString => String c EmptyString
        | String x rest' =>
            let decoded :=
              if Ascii.eqb x "n"%char then "010"%char
              else if Ascii.eqb x "r"%char then "013"%char
              else if Ascii.eqb x "t"%char then "009"%char
              else if Ascii.eqb x "f"%char then "012"%char
              else x in
            String decoded (unescape rest')
        end
      else String c (unescape rest)
  end.

(** [c] occurs in [s]. *)
Fixpoint occurs (c : ascii) (s : string) : bool :=
  match s with
  | EmptyString => false
  | String a rest => Ascii.eqb a c || occurs c rest
  end.

(** Two whitespace characters stand next to each other in [s]. *)
Fixpoint adjacent_whitespace (s : string) : bool :=
  match s with
  | EmptyString => false
  | String a rest =>
      match rest with
      | EmptyString => false
      | String b _ =>
          (is_whitespace a && is_whitespace b) || adjacent_whitespace rest
      end
  end.

(** A style written out from its declarations: [k: v] joined by [; ]. *)
Definition declaration_text (kv : string * string) : string :=
  kv.1 +:+ ": " +:+ kv.2.

Definition style_text (declarations : list (string * string)) : string :=
  String.concat "; " (map declaration_text declarations).

(** None of the characters [cs] occurs in [s]. *)
Definition free_of (cs : list ascii) (s : string) : bool :=
  forallb (fun c => negb (occurs c s)) cs.

(** Semicolon, parentheses, line feed, carriage return. *)
Definition structural : list ascii := [";"; "("; ")"; "010"; "013"]%char.

(** A declaration the style grammar of [getAttributes] reads back as it
    is: key and value are not empty and carry no outer whitespace; the key
    has no colon; neither has a semicolon, a parenthesis or a line
    terminator; the value needs no escaping. *)
Definition plain_declaration (kv : string * string) : Prop :=
  kv.1 <> EmptyString /\ kv.2 <> EmptyString /\
  trim kv.1 = kv.1 /\ trim kv.2 = kv.2 /\
  sanitizeJSON kv.2 = kv.2 /\
  occurs ":" kv.1 = false /\
  free_of structural kv.1 = true /\ free_of structural kv.2 = true.

End UtilsSpec.

Module MarkupSpec.
Import Utils Parser.

(** A document as a tree: text, an element without end tag, an element
    with its children. *)
Inductive markup :=
| MText (text : string)
| MVoid (element : Element)
| MElement (element : Element) (children : list markup).

(** The events the rewriter reports for a tree, in document order. *)
Fixpoint events (m : markup) : list rewriter_event :=
  match m with
  | MText text => [TextEvent text]
  | MVoid element => [ElementEvent element true]
  | MElement element children =>
      ElementEvent element false :: concat (map events children)
      ++ [EndTagEvent]
  end.

Section Json.
Context (camelCase : string -> string).

(** The text that opens the JSON object of an element, up to the bracket
    of its children. *)
Definition open_text (element : Element) : string :=
  "{" +:+ dquote +:+ "type" +:+ dquote +:+ ":" +:+ dquote
  +:+ tagName element +:+ dquote +:+ ", " +:+ dquote +:+ "props"
  +:+ dquote +:+ ":{" +:+ getAttributes camelCase element +:+ dquote
  +:+ "children" +:+ dquote +:+ ": [".

(** The JSON text of a tree: nothing for an empty text, a quoted string
    for any other text, an object whose children are separated by single
    commas for an element. *)
Fixpoint json (m : markup) : option string :=
  match m with
  | MText text =>
      if is_empty text then None
      else Some (dquote +:+ sanitizeJSON text +:+ dquote)
  | MVoid element => Some (open_text element +:+ "]}}")
  | MElement element children =>
      Some (open_text element
            +:+ String.concat "," (omap json children) +:+ "]}}")
  end.

(** Each text followed by a comma, as the handlers append them. *)
Definition emitted (texts : list string) : string :=
  fold_right (fun j t => j +:+ "," +:+ t) EmptyString texts.

Definition option_texts (o : option string) : list string :=
  match o with Some j => [j] | None => [] end.

End Json.
End MarkupSpec.

Module FontSpec.
Import FontLoader.

(** No character of [u] is a line terminator. *)
Fixpoint one_line (u : string) : bool :=
  match u with
  | EmptyString => true
  | String c rest => negb (Utils.is_line_terminator c) && one_line rest
  end.

(** The style sheet [css] declares the font file [u]: it reads
    [src: url(u) format('opentype')], or the same with [truetype],
    somewhere on one line. *)
Definition font_source (css u : string) : Prop :=
  exists pre fmt post,
    css = pre +:+ "src: url(" +:+ u +:+ ") format('" +:+ fmt +:+ "')" +:+ post /\
    (fmt = "opentype" \/ fmt = "truetype") /\
    u <> "" /\ one_line u = true.

(** The requests sent between two states of the network. *)
Definition sent_between (before after : network) (rs : list request) : Prop :=
  requests after = requests before ++ rs.

End FontSpec.

Module AssetSamples.
Import Js Types.

(** U+1F600 as a JavaScript string. *)
Definition grinning : list Z := Emoji.of_code_points [128512%Z].

(** Upper case of the characters a hexadecimal code is written with. *)
Definition upper_char (c : ascii) : ascii :=
  let n := nat_of_ascii c in
  if (97 <=? n) && (n <=? 122) then ascii_of_nat (n - 32) else c.

Fixpoint upper (s : string) : string :=
  match s with
  | EmptyString => EmptyString
  | String c rest => String (upper_char c) (upper rest)
  end.

(** A key that tells pairs apart as [JSON.stringify] does. *)
Definition key_of (languageCode : string) (segment : list Z) : string :=
  languageCode +:+ ":" +:+ String.concat "," (map pretty segment).

(** A CDN that serves the same small picture for every emoji; [btoa] on
    that picture. *)
Definition picture : string := "<svg/>".

Definition btoa_picture (s : string) : settled string :=
  if String.eqb s picture then Fulfilled "PHN2Zy8+"
  else Rejected (ThrownOther "InvalidCharacterError").

Definition cdn_up (url : string) : settled string := Fulfilled picture.

Definition cdn_down (url : string) : settled string :=
  Rejected (ThrownOther "fetch failed").

Definition no_assets : Emoji.loader_state :=
  {| Emoji.assetCache := ∅; Emoji.fetched := [] |}.

Definition load_up :=
  Emoji.loadDynamicAsset id upper btoa_picture key_of cdn_up.

Definition load_down :=
  Emoji.loadDynamicAsset id upper btoa_picture key_of cdn_down.

(** Google Fonts answering with a sheet that offers woff2 only, sent as
    private, and with one that offers a TrueType file. *)
Definition woff2_sheet : FontLoader.Response :=
  {| FontLoader.body :=
       "@font-face { src: url(https://fonts.gstatic.com/s/bitter/a.woff2) format('woff2'); }";
     FontLoader.headers :=
       [("Content-Type", "text/css");
        ("Cache-Control", "private, max-age=86400")] |}.

Definition truetype_sheet : FontLoader.Response :=
  {| FontLoader.body :=
       "@font-face { src: url(https://fonts.gstatic.com/s/bitter/a.ttf) format('truetype'); }";
     FontLoader.headers := [("Content-Type", "text/css")] |}.

(** A cache that keeps what is not marked private. *)
Definition keeps_public (key : string) (res : FontLoader.Response) : bool :=
  negb (existsb
          (fun h => String.eqb h.1 "Cache-Control"
                    && String.prefix "private" h.2)
          (FontLoader.headers res)).

Definition woff2_only : FontLoader.Runtime :=
  {| FontLoader.encodeURIComponent := id;
     FontLoader.fetch_css := fun _ => Fulfilled woff2_sheet;
     FontLoader.cache_put := fun _ _ => Fulfilled tt;
     FontLoader.cache_keeps := keeps_public;
     FontLoader.fetch_font := fun _ => Fulfilled [0%N; 1%N] |}.

Definition bitter : GoogleFontOptions :=
  {| family := "Bitter"; weight := Some 600%Z; text := None |}.

Definition cold : FontLoader.network :=
  {| FontLoader.cache := ∅; FontLoader.requests := [];
     FontLoader.puts := [] |}.

Definition warm : FontLoader.network :=
  {| FontLoader.cache :=
       {[ FontLoader.css_url woff2_only bitter := truetype_sheet ]};
     FontLoader.requests := []; FontLoader.puts := [] |}.

End AssetSamples.

(* ================================================================== *)
(** * The engine singleton                                             *)
(* ================================================================== *)

Section YogaSingleton.
Import Js Yoga.

Lemma run_app (w : world) (evs1 evs2 : list event) :
  run w (evs1 ++ evs2) =
  match run w evs1 with
  | Some w' => run w' evs2
  | None => None
  end.
Proof.
  revert w. induction evs1 as [|ev evs1 IH]; intros w; simpl; [done|].
  destruct (step w ev); [apply IH | done].
Qed.

(** The outcome of the arrow function does not depend on the state it
    starts from. *)
Lemma initialization_body_outcome st r s :
  (initialization_body st r s).1.2 = attempt_outcome r s.
Proof.
  unfold attempt_outcome, initialization_body.
  destruct r as [y|err]; [destruct s as [err|]|];
    try destruct (already_initialized err); reflexivity.
Qed.

Lemma initialization_body_clears st r s :
  initializing (initialization_body st r s).1.1 = None.
Proof.
  unfold initialization_body.
  destruct r as [y|err]; [destruct s as [err|]|];
    try destruct (already_initialized err); reflexivity.
Qed.

Lemma initialization_body_failure st r s e :
  genuine_failure r s = Some e ->
  initialized (initialization_body st r s).1.1 = initialized st /\
  yoga (initialization_body st r s).1.1 = yoga st.
Proof.
  unfold genuine_failure, attempt_outcome, initialization_body.
  destruct r as [y|err]; [destruct s as [err|]|];
    try destruct (already_initialized err); simpl; intros; done.
Qed.

Lemma initialization_body_success st r s :
  attempt_outcome r s = Fulfilled tt ->
  initialized (initialization_body st r s).1.1 = true.
Proof.
  unfold attempt_outcome, initialization_body.
  destruct r as [y|err]; [destruct s as [err|]|];
    try destruct (already_initialized err); simpl; intros; done.
Qed.

Lemma initialization_body_satori_calls st r s :
  (initialization_body st r s).2 =
  match r with Fulfilled _ => 1 | Rejected _ => 0 end.
Proof.
  unfold initialization_body.
  destruct r as [y|err]; [destruct s as [err|]|];
    try destruct (already_initialized err); reflexivity.
Qed.

(** While an attempt is in flight every further caller is handed the
    promise of that attempt and nothing else happens. *)
Lemma late_callers_attach (k : nat) (w : world) (p : promise_id) :
  initialized (state w) = false ->
  initializing (state w) = Some p ->
  run w (replicate k Call) =
  Some {| state := state w; promises := promises w;
          next_promise := next_promise w;
          initYoga_calls := initYoga_calls w;
          initSatori_calls := initSatori_calls w;
          suspensions := suspensions w;
          returned := returned w ++ replicate k (ReturnedPromise p) |}.
Proof.
  revert w. induction k as [|k IH]; intros w Hi Hp; simpl.
  - rewrite app_nil_r. by destruct w.
  - unfold ensureYogaInitialized. rewrite Hi, Hp.
    rewrite IH by done. simpl. by rewrite <- app_assoc.
Qed.

Lemma wf_initial : wf initial_world.
Proof. split; simpl; intros; try done. Qed.

Lemma wf_step w ev w' : wf w -> step w ev = Some w' -> wf w'.
Proof.
  intros [Hf Hn Hp]. destruct ev as [|r s]; simpl.
  - intros [= <-]. unfold ensureYogaInitialized.
    destruct (initialized (state w)) eqn:Hi.
    { split; simpl; auto. intros p Hq. destruct (Hf p Hq). congruence. }
    destruct (initializing (state w)) as [p|] eqn:Hq.
    { split; simpl; auto; intros q Hq'; rewrite ?Hi; rewrite Hq in Hq'; auto. }
    split; simpl.
    + intros p [= <-]. split; [done | lia].
    + intros q Hq'. apply Hn. lia.
    + intros p [= <-]. apply Hn. lia.
  - destruct (initializing (state w)) as [p|] eqn:Hq; [|done].
    destruct (initialization_body (state w) r s) as [[st o] n] eqn:Hb.
    intros [= <-].
    pose proof (initialization_body_clears (state w) r s) as Hc.
    rewrite Hb in Hc. simpl in Hc.
    split; simpl.
    + intros q Hq'. congruence.
    + intros q Hq'. destruct (Hf p eq_refl) as [_ Hlt].
      rewrite lookup_insert_ne by lia. by apply Hn.
    + intros q Hq'. congruence.
Qed.

Lemma wf_run evs : forall w w', wf w -> run w evs = Some w' -> wf w'.
Proof.
  induction evs as [|ev evs IH]; intros w w' Hw; simpl.
  - by intros [= <-].
  - destruct (step w ev) as [w1|] eqn:Hs; [|done].
    apply IH. by eapply wf_step.
Qed.

Lemma wf_reachable w : reachable w -> wf w.
Proof. intros [evs H]. eapply wf_run; [apply wf_initial | exact H]. Qed.

(** After a successful attempt no later caller, however many there are,
    makes [initYoga] or [initSatori] run again. *)
Lemma ready_stays_ready (k : nat) (w : world) :
  isInitialized w = true ->
  run w (replicate k Call) =
  Some {| state := state w; promises := promises w;
          next_promise := next_promise w;
          initYoga_calls := initYoga_calls w;
          initSatori_calls := initSatori_calls w;
          suspensions := suspensions w;
          returned := returned w ++ replicate k ReturnedUndefined |}.
Proof.
  unfold isInitialized. revert w.
  induction k as [|k IH]; intros w Hi; simpl.
  - rewrite app_nil_r. by destruct w.
  - unfold ensureYogaInitialized. rewrite Hi.
    rewrite IH by done. simpl. by rewrite <- app_assoc.
Qed.

(** The world right after the first of [n] callers on a fresh process. *)
Lemma first_call_starts_attempt :
  ensureYogaInitialized initial_world =
  {| state := {| yoga := None; initialized := false;
                 initializing := Some 0 |};
     promises := ∅; next_promise := 1;
     initYoga_calls := 1; initSatori_calls := 0; suspensions := 1;
     returned := [ReturnedPromise 0] |}.
Proof. reflexivity. Qed.

(** C1.  [n >= 1] callers invoke [ensureYogaInitialized] on a fresh
    process before the attempt settles; then [initYoga]'s promise settles
    in any way [r] (and [initSatori], if reached, returns or throws).
    The run is possible, and in the world it ends in: [initYoga] was
    called exactly once, the arrow function was entered (suspended)
    exactly once, [initSatori] was called once when [initYoga] resolved
    and not at all when it rejected, and every one of the [n] callers
    observes the same outcome, the one of that single attempt.  Until
    the attempt settles all [n] promises are pending.  When the attempt
    succeeded, any number of later calls leaves both counts as they are
    and each of them is fulfilled. *)
Theorem concurrent_first_callers_share_one_attempt
    (n : nat) (r : settled YogaModule) (satori_throws : option thrown) :
  1 <= n ->
  exists w0 w,
    run initial_world (replicate n Call) = Some w0 /\
    (forall c, c < n -> observe w0 c = None) /\
    step w0 (InitYogaSettles r satori_throws) = Some w /\
    run initial_world (replicate n Call ++ [InitYogaSettles r satori_throws])
      = Some w /\
    initYoga_calls w = 1 /\
    suspensions w = 1 /\
    initSatori_calls w = match r with Fulfilled _ => 1 | Rejected _ => 0 end /\
    (forall c, c < n ->
       observe w c = Some (attempt_outcome r satori_throws)) /\
    (attempt_outcome r satori_throws = Fulfilled tt ->
     forall k, exists w',
       run w (replicate k Call) = Some w' /\
       initYoga_calls w' = 1 /\
       initSatori_calls w' = initSatori_calls w /\
       forall c, c < n + k -> observe w' c = Some (Fulfilled tt)).
Proof.
  intros Hn. destruct n as [|k0]; [lia|].
  pose proof (late_callers_attach k0 (ensureYogaInitialized initial_world) 0
                eq_refl eq_refl) as Hk.
  rewrite first_call_starts_attempt in Hk. simpl in Hk.
  assert (Hret : forall c, c < S k0 ->
            (ReturnedPromise 0 :: replicate k0 (ReturnedPromise 0)) !! c
            = Some (ReturnedPromise 0)).
  { intros c Hc. change (replicate (S k0) (ReturnedPromise 0) !! c = Some (ReturnedPromise 0)).
    apply lookup_replicate. split; [done | lia]. }
  pose proof (initialization_body_outcome
                {| yoga := None; initialized := false; initializing := Some 0 |}
                r satori_throws) as Ho.
  pose proof (initialization_body_satori_calls
                {| yoga := None; initialized := false; initializing := Some 0 |}
                r satori_throws) as Hm.
  destruct (initialization_body
              {| yoga := None; initialized := false; initializing := Some 0 |}
              r satori_throws) as [[st o] m] eqn:Hb.
  simpl in Ho, Hm. subst o m.
  eexists. eexists. split; [exact Hk|].
  split.
  { intros c Hc. unfold observe. simpl returned. rewrite (Hret c Hc). done. }
  unfold step. simpl state. simpl initializing. rewrite Hb.
  split; [reflexivity|].
  split.
  { rewrite run_app.
    change (run initial_world (replicate (S k0) Call))
      with (run (ensureYogaInitialized initial_world) (replicate k0 Call)).
    rewrite first_call_starts_attempt, Hk. simpl. rewrite Hb. reflexivity. }
  simpl. split; [done|]. split; [done|]. split; [done|].
  split.
  { intros c Hc. unfold observe. simpl returned. rewrite (Hret c Hc).
    simpl. apply lookup_insert_eq. }
  intros Hok k.
  pose proof (initialization_body_success
                {| yoga := None; initialized := false; initializing := Some 0 |}
                r satori_throws Hok) as Hready.
  rewrite Hb in Hready. simpl in Hready.
  rewrite ready_stays_ready by exact Hready.
  eexists. split; [reflexivity|].
  split; [done|]. split; [done|].
  intros c Hc. unfold observe. cbn [returned promises].
  assert (Hlen : length (ReturnedPromise 0 :: replicate k0 (ReturnedPromise 0))
                 = S k0) by (simpl; by rewrite length_replicate).
  destruct (decide (c < S k0)) as [Hlt|Hge].
  - rewrite lookup_app_l by lia.
    rewrite (Hret c Hlt). rewrite lookup_insert_eq. by rewrite Hok.
  - rewrite lookup_app_r by lia.
    rewrite lookup_replicate_2; [done|]. lia.
Qed.

(** The instance of C1 with three callers and an [initYoga] that rejects
    with a plain error. *)
Lemma concurrent_first_callers_witness :
  1 <= 3 /\
  exists w0 w,
    run initial_world (replicate 3 Call) = Some w0 /\
    (forall c, c < 3 -> observe w0 c = None) /\
    step w0 (InitYogaSettles
               (Rejected (ThrownError (mkError "Error" "out of memory"))) None)
      = Some w /\
    run initial_world
      (replicate 3 Call ++
         [InitYogaSettles
            (Rejected (ThrownError (mkError "Error" "out of memory"))) None])
      = Some w /\
    initYoga_calls w = 1 /\
    suspensions w = 1 /\
    initSatori_calls w = 0 /\
    (forall c, c < 3 ->
       observe w c =
       Some (attempt_outcome
               (Rejected (ThrownError (mkError "Error" "out of memory")))
               None)) /\
    (attempt_outcome
       (Rejected (ThrownError (mkError "Error" "out of memory"))) None
     = Fulfilled tt ->
     forall k, exists w',
       run w (replicate k Call) = Some w' /\
       initYoga_calls w' = 1 /\
       initSatori_calls w' = initSatori_calls w /\
       forall c, c < 3 + k -> observe w' c = Some (Fulfilled tt)).
Proof.
  split; [lia|].
  apply (concurrent_first_callers_share_one_attempt 3
           (Rejected (ThrownError (mkError "Error" "out of memory"))) None).
  lia.
Defined.

(** C1 as stated, once per process lifetime, does not hold.  Two callers
    share a first attempt in which [initYoga] resolves and [initSatori]
    throws: both are rejected with that error, and the singleton is
    uninitialized again.  A third call then starts a second attempt, which
    succeeds: in this one process [initYoga] and [initSatori] have each
    run twice.  And when it is [initYoga] that rejects, the two callers
    are rejected without [initSatori] having run at all. *)
Lemma initialization_runs_again_after_failure :
  (fun w => (initYoga_calls w, initSatori_calls w,
             observe w 0, observe w 1, observe w 2)) <$>
    run initial_world
      [Call; Call;
       InitYogaSettles (Fulfilled (yoga_instance 0))
         (Some (ThrownError (mkError "Error" "out of memory")));
       Call;
       InitYogaSettles (Fulfilled (yoga_instance 1)) None]
  = Some (2, 2,
          Some (Rejected (ThrownError (mkError "Error" "out of memory"))),
          Some (Rejected (ThrownError (mkError "Error" "out of memory"))),
          Some (Fulfilled tt)) /\
  (fun w => (initYoga_calls w, initSatori_calls w,
             observe w 0, observe w 1)) <$>
    run initial_world
      [Call; Call;
       InitYogaSettles
         (Rejected (ThrownError (mkError "Error" "out of memory"))) None]
  = Some (1, 0,
          Some (Rejected (ThrownError (mkError "Error" "out of memory"))),
          Some (Rejected (ThrownError (mkError "Error" "out of memory")))).
Proof. split; vm_compute; reflexivity. Qed.

(** What the three callers of the witness see: the rejection itself. *)
Example rejected_attempt_outcome :
  attempt_outcome (Rejected (ThrownError (mkError "Error" "out of memory")))
    None
  = Rejected (ThrownError (mkError "Error" "out of memory")).
Proof. reflexivity. Qed.

(** The lower-level signal of a double initialization counts as success,
    also when it is [initSatori] that raises it. *)
Example already_initialized_is_success :
  attempt_outcome
    (Rejected (ThrownError (mkError "Error" "Yoga: Already initialized.")))
    None = Fulfilled tt /\
  attempt_outcome (Fulfilled (yoga_instance 0))
    (Some (ThrownError (mkError "Error" "Already initialized")))
    = Fulfilled tt.
Proof. split; reflexivity. Qed.



(** C9.  Once the engine is ready, a call of [ensureYogaInitialized]
    takes the first branch: the only change to the process is the record
    of what this call returned, an already fulfilled promise.  The
    singleton's state, the initialization promises and the counts of
    [initYoga], [initSatori] and suspensions are what they were, so
    calling again changes nothing either. *)
Theorem ready_call_returns_immediately (w : world) :
  isInitialized w = true ->
  let w' := ensureYogaInitialized w in
  w' = returns w ReturnedUndefined /\
  observe w' (length (returned w)) = Some (Fulfilled tt) /\
  state w' = state w /\
  promises w' = promises w /\
  next_promise w' = next_promise w /\
  initYoga_calls w' = initYoga_calls w /\
  initSatori_calls w' = initSatori_calls w /\
  suspensions w' = suspensions w /\
  isInitialized w' = true /\
  ensureYogaInitialized w' = returns w' ReturnedUndefined.
Proof.
  unfold isInitialized. intros Hi. simpl.
  assert (H1 : ensureYogaInitialized w = returns w ReturnedUndefined).
  { unfold ensureYogaInitialized. by rewrite Hi. }
  rewrite H1. split; [done|].
  split.
  { unfold observe, returns. simpl.
    rewrite lookup_app_r by lia. by rewrite Nat.sub_diag. }
  repeat (split; [done|]).
  unfold ensureYogaInitialized. simpl. by rewrite Hi.
Qed.

(** C9 on the world reached by one caller and a successful attempt. *)
Lemma ready_call_witness :
  let w := {| state := {| yoga := Some (yoga_instance 7);
                          initialized := true; initializing := None |};
              promises := {[ 0 := Fulfilled tt ]}; next_promise := 1;
              initYoga_calls := 1; initSatori_calls := 1; suspensions := 1;
              returned := [ReturnedPromise 0] |} in
  run initial_world [Call; InitYogaSettles (Fulfilled (yoga_instance 7)) None]
    = Some w /\
  isInitialized w = true /\
  let w' := ensureYogaInitialized w in
  w' = returns w ReturnedUndefined /\
  observe w' (length (returned w)) = Some (Fulfilled tt) /\
  state w' = state w /\
  promises w' = promises w /\
  next_promise w' = next_promise w /\
  initYoga_calls w' = initYoga_calls w /\
  initSatori_calls w' = initSatori_calls w /\
  suspensions w' = suspensions w /\
  isInitialized w' = true /\
  ensureYogaInitialized w' = returns w' ReturnedUndefined.
Proof.
  intros w. split; [reflexivity|]. split; [reflexivity|].
  exact (ready_call_returns_immediately w eq_refl).
Defined.

End YogaSingleton.

(* ================================================================== *)
(** * generateOG                                                       *)
(* ================================================================== *)

Section SingleRender.
Import Js Types Single.

(** The promise of [generateOG] is never rejected: whatever the engine,
    the parser, the font loader or satori do, the caller gets an
    [OGResult]. *)
Lemma generateOG_never_rejects (env : Env) (e : element) (options : OGOptions) :
  exists r, generateOG env e options = Fulfilled r.
Proof.
  unfold generateOG, try_catch.
  match goal with |- context [match ?b with _ => _ end] => destruct b end;
    eauto.
Qed.

(** A failed engine initialization comes back from [generateOG] as the
    error variant, carrying the error the readiness promise rejected
    with. *)
Lemma generateOG_init_failure (env : Env) (e : element) (options : OGOptions)
    (err : thrown) :
  ensureYogaInitialized env = Rejected err ->
  generateOG env e options = Fulfilled (OGError (Errors.as_error err)).
Proof. intros H. unfold generateOG. rewrite H. reflexivity. Qed.

(** When the engine is ready and the parser yields [null], [generateOG]
    is fulfilled with the error variant built at that place of the
    source: an [SVGGenerationError] with the message
    "Failed to parse HTML element". *)
Lemma generateOG_parse_null (env : Env) (html : string) (options : OGOptions) :
  ensureYogaInitialized env = Fulfilled tt ->
  parseHtml env html = Fulfilled None ->
  generateOG env (HtmlString html) options
  = Fulfilled (OGError (Errors.SVGGenerationError "Failed to parse HTML element")).
Proof. intros Hi Hp. unfold generateOG. simpl. rewrite Hi. simpl. rewrite Hp. reflexivity. Qed.

(** C7, at the input ["<div"] in a runtime whose parser yields [null] for
    it.  The call is fulfilled with an error result that carries a
    message, but the error is an [SVGGenerationError]; it is not the
    [HTMLParseError] that errors.ts declares for a failed parse. *)
Theorem generateOG_parse_failure_kind :
  parseHtml Samples.strict_parser "<div" = Fulfilled None /\
  generateOG Samples.strict_parser (HtmlString "<div") no_options
  = Fulfilled (OGError (mkError "SVGGenerationError"
                                "Failed to parse HTML element")) /\
  generateOG Samples.strict_parser (HtmlString "<div") no_options
  <> Fulfilled (OGError (Errors.HTMLParseError "Failed to parse HTML element")).
Proof. split; [reflexivity|]. split; [reflexivity|]. discriminate. Qed.

End SingleRender.

(* ================================================================== *)
(** * generateOGBatch                                                  *)
(* ================================================================== *)

Section BatchOrchestration.
Import Js Types Render Batch.

(** Sorting a list whose entries already carry their positions (counted
    from [base]) leaves it as it is. *)
Lemma sort_by_index_positions (l : list BatchResult) : forall base : nat,
  (forall j r, l !! j = Some r -> index r = Z.of_nat (base + j)) ->
  sort_by_index l = l.
Proof.
  induction l as [|x l IH]; intros base H; [done|].
  simpl. rewrite (IH (S base)).
  2:{ intros j r Hj. rewrite (H (S j) r Hj). f_equal. lia. }
  destruct l as [|y l']; [done|]. simpl.
  rewrite (H 0 x eq_refl), (H 1 y eq_refl).
  destruct (Z.leb_spec (Z.of_nat (base + 0) - Z.of_nat (base + 1)) 0); [done|lia].
Qed.

Lemma stopped_loop_exits env d items c failFast fuel i results started :
  chunk_loop env d items c failFast fuel i results true started
  = Some (results, started).
Proof. destruct fuel; simpl; by rewrite andb_false_r. Qed.

Context (env : Env) (d : defaults) (items : list BatchItem)
        (c : Z) (failFast : bool).
Hypothesis concurrency_positive : (1 <= c)%Z.

Local Abbreviation all := (all_results env d items).
Local Abbreviation n := (length items).
Local Abbreviation c' := (Z.to_nat c).
Local Abbreviation fails_in := (Batch.fails_in env d items).

Lemma length_all_results : length all = n.
Proof. apply length_imap. Qed.

Lemma all_results_lookup (j : nat) (r : BatchResult) :
  all !! j = Some r ->
  index r = Z.of_nat j /\
  exists item, items !! j = Some item /\ result r = render_item env d item.
Proof.
  unfold all_results. rewrite list_lookup_imap, fmap_Some.
  intros (item & Hitem & ->). simpl. eauto.
Qed.

(** [items.slice(i, i + concurrency)] is the window of [concurrency]
    items at [i]. *)
Lemma slice_window (a : nat) :
  slice items (Z.of_nat a) (Z.of_nat a + c) = take c' (drop a items).
Proof.
  unfold slice.
  destruct (Z.ltb_spec (Z.of_nat a) 0); [lia|].
  destruct (Z.ltb_spec (Z.of_nat a + c) 0); [lia|].
  destruct (decide (a <= n)) as [Hle|Hgt].
  - replace (Z.to_nat (Z.min (Z.of_nat a) (Z.of_nat n))) with a by lia.
    replace (Z.to_nat (Z.min (Z.of_nat a + c) (Z.of_nat n)
                       - Z.min (Z.of_nat a) (Z.of_nat n)))
      with (Nat.min c' (n - a)) by lia.
    rewrite <- take_take.
    f_equal. apply take_ge. rewrite length_drop. lia.
  - replace (Z.to_nat (Z.min (Z.of_nat a + c) (Z.of_nat n)
                       - Z.min (Z.of_nat a) (Z.of_nat n))) with 0 by lia.
    rewrite (drop_ge items a) by lia. by rewrite take_nil.
Qed.

(** The results of the chunk at [a] are that window of [all_results]. *)
Lemma run_chunk_window (a : nat) :
  run_chunk env d (Z.of_nat a) (take c' (drop a items))
  = take c' (drop a all).
Proof.
  apply list_eq. intros j. unfold run_chunk, all_results.
  rewrite list_lookup_imap.
  destruct (decide (j < c')) as [Hlt|Hge].
  - rewrite !lookup_take_lt by done. rewrite !lookup_drop.
    rewrite list_lookup_imap.
    by rewrite Nat2Z.inj_add.
  - rewrite !lookup_take_ge by lia. done.
Qed.

Lemma chunk_has_error (a : nat) :
  existsb (fun r => negb (ok (result r))) (take c' (drop a all)) = true
  <-> fails_in a (a + c').
Proof.
  rewrite existsb_exists. split.
  - intros (r & Hin & Hr). apply list_elem_of_In, list_elem_of_lookup in Hin.
    destruct Hin as [j Hj].
    assert (j < c') as Hlt.
    { destruct (decide (j < c')); [done|].
      rewrite lookup_take_ge in Hj by lia. done. }
    rewrite lookup_take_lt, lookup_drop in Hj by done.
    exists (a + j), r. split; [lia|]. split; [done|].
    by destruct (ok (result r)).
  - intros (j & r & Hj & Hl & Hr).
    exists r. split.
    + apply list_elem_of_In, list_elem_of_lookup. exists (j - a).
      rewrite lookup_take_lt, lookup_drop by lia.
      replace (a + (j - a)) with j by lia. done.
    + by rewrite Hr.
Qed.

Lemma fails_in_split (lo mid hi : nat) :
  fails_in lo hi -> lo <= mid -> fails_in lo mid \/ fails_in mid hi.
Proof.
  intros (j & r & Hj & Hl & Hr) Hm.
  destruct (decide (j < mid)); [left|right]; exists j, r; (split; [lia|done]).
Qed.

(** The chunk loop, entered at position [a] with everything before [a]
    rendered and nothing stopped: it ends with the first [m] entries of
    [all_results], and has started exactly those renders.  Either [m]
    covers all items, or [failFast] is set, the chunk at [a + k * c] is
    the first one from [a] on with a failure, and [m] is the end of that
    chunk. *)
Lemma chunk_loop_spec (fuel : nat) : forall a : nat,
  n - a <= fuel ->
  exists m,
    chunk_loop env d items c failFast fuel (Z.of_nat a)
      (take a all) false (map index (take a all))
    = Some (take m all, map index (take m all)) /\
    a <= m /\
    ((n <= m /\ (failFast = true -> ~ fails_in a n)) \/
     (failFast = true /\
      exists k, a + k * c' < n /\
                ~ fails_in a (a + k * c') /\
                fails_in (a + k * c') (a + k * c' + c') /\
                m = a + k * c' + c')).
Proof.
  induction fuel as [|fuel IH]; intros a Hfuel.
  - exists a. simpl.
    destruct (Z.ltb_spec (Z.of_nat a) (Z.of_nat n)); [lia|]. simpl.
    split; [done|]. split; [done|]. left. split; [lia|].
    intros _ (j & r & Hj & _). lia.
  - simpl.
    destruct (Z.ltb_spec (Z.of_nat a) (Z.of_nat n)) as [Hlt|Hge]; simpl.
    2:{ exists a. split; [done|]. split; [done|]. left. split; [lia|].
        intros _ (j & r & Hj & _). lia. }
    rewrite slice_window, run_chunk_window.
    rewrite take_take_drop. rewrite <- map_app, take_take_drop.
    replace (Z.of_nat a + c)%Z with (Z.of_nat (a + c')) by lia.
    pose proof (chunk_has_error a) as Herr.
    destruct failFast eqn:Hff.
    + destruct (existsb _ (take c' (drop a all))) eqn:Hex.
      * rewrite stopped_loop_exits. exists (a + c').
        split; [done|]. split; [lia|]. right. split; [done|].
        exists 0. rewrite Nat.mul_0_l, Nat.add_0_r.
        split; [lia|]. split.
        { intros (j & r & Hj & _). lia. }
        split; [by apply Herr | done].
      * destruct (IH (a + c')) as (m & Hrun & Hm & Hpost); [lia|].
        exists m. split; [exact Hrun|]. split; [lia|].
        assert (Hnone : ~ fails_in a (a + c')).
        { intros Hf. apply Herr in Hf. congruence. }
        destruct Hpost as [[Hn Hno]|[_ (k & Hk & Hbefore & Hat & ->)]].
        -- left. split; [done|]. intros _ Hf.
           destruct (decide (a + c' <= n)) as [Hle|Hgt'].
           ++ destruct (fails_in_split a (a + c') n Hf) as [?|?]; [lia|done|].
              by apply Hno.
           ++ apply Hnone. destruct Hf as (j & r & Hj & Hrest).
              exists j, r. split; [lia|done].
        -- right. split; [done|]. exists (S k).
           replace (a + S k * c') with (a + c' + k * c') by lia.
           split; [done|]. split; [|done].
           intros Hf.
           destruct (fails_in_split a (a + c') _ Hf) as [?|?]; [lia|done|done].
    + destruct (IH (a + c')) as (m & Hrun & Hm & Hpost); [lia|].
      exists m. split; [exact Hrun|]. split; [lia|].
      destruct Hpost as [[Hn _]|[? _]]; [|done].
      left. split; [done|]. done.
Qed.

End BatchOrchestration.

Section BatchResults.
Import Js Types Render Batch.

(** C3.  With a concurrency of at least one, an engine that became ready
    and default fonts that resolved, [generateOGBatch] settles (any fuel
    of at least [length items] is enough), and it is fulfilled with a
    list [results] such that
    - its length is the number of items, or, when [failFast] is set and
      some render fails, the number of items scheduled through the chunk
      of the first failing item;
    - the entry at position [i] has [index] [i] and holds the outcome of
      rendering the [i]-th item, so the list ascends by index. *)
Theorem generateOGBatch_length_and_order
    (env : Env) (items : list BatchItem) (options : BatchOptions)
    (d : defaults) (fuel : nat) :
  (1 <= nullish (concurrency options) 5)%Z ->
  prepare env (batch_defaults options) = Fulfilled d ->
  length items <= fuel ->
  exists results,
    generateOGBatch fuel env items options = Some (Fulfilled results) /\
    length results =
      scheduled_length (length items) (nullish (concurrency options) 5%Z)
        (nullish (failFast options) false) (first_failure env d items) /\
    (forall i r, results !! i = Some r ->
       index r = Z.of_nat i /\
       exists item, items !! i = Some item /\
                    result r = render_item env d item) /\
    (forall i j ri rj, i < j -> results !! i = Some ri ->
       results !! j = Some rj -> (index ri < index rj)%Z).
Proof.
  intros Hc Hprep Hfuel.
  set (c := nullish (concurrency options) 5%Z) in *.
  set (ff := nullish (failFast options) false).
  destruct (chunk_loop_spec env d items c ff Hc fuel 0) as (m & Hrun & _ & Hpost);
    [lia|].
  rewrite take_0 in Hrun. change (Z.of_nat 0) with 0%Z in Hrun.
  change (map index []) with (@nil Z) in Hrun.
  assert (Hpos : forall i r, take m (all_results env d items) !! i = Some r ->
            index r = Z.of_nat i /\
            exists item, items !! i = Some item /\
                         result r = render_item env d item).
  { intros i r Hi. apply lookup_take_Some in Hi as [Hi _].
    by apply all_results_lookup. }
  exists (take m (all_results env d items)).
  split.
  { unfold generateOGBatch, generateOGBatch_started.
    rewrite Hprep. fold c ff. rewrite Hrun.
    rewrite (sort_by_index_positions _ 0); [done|].
    intros j r Hj. by destruct (Hpos j r Hj). }
  split.
  2:{ split; [exact Hpos|]. intros i j ri rj Hij Hi Hj.
      destruct (Hpos i ri Hi) as [-> _]. destruct (Hpos j rj Hj) as [-> _]. lia. }
  rewrite length_take, length_all_results.
  unfold scheduled_length, first_failure.
  destruct (list_find _ (all_results env d items)) as [[j r]|] eqn:Hfind; simpl.
  - apply list_find_Some in Hfind as (Hj & Hr & Hmin).
    assert (Hjn : j < length items).
    { apply lookup_lt_Some in Hj. by rewrite length_all_results in Hj. }
    destruct Hpost as [[Hn Hno]|[Hff (k & Hk & Hbefore & Hat & ->)]].
    + destruct ff; [|lia].
      exfalso. apply Hno; [done|]. exists j, r. split; [lia|done].
    + rewrite Hff. unfold scheduled_through_chunk_of. simpl in *.
      destruct Hat as (j0 & r0 & Hj0 & Hl0 & Hr0).
      assert (k * Z.to_nat c <= j).
      { destruct (decide (k * Z.to_nat c <= j)); [done|].
        exfalso. apply Hbefore. exists j, r. split; [lia|done]. }
      assert (j <= j0).
      { destruct (decide (j <= j0)); [done|].
        exfalso. apply (Hmin j0 r0); [done|lia|done]. }
      assert (Hdiv : j / Z.to_nat c = k).
      { symmetry. apply (Nat.div_unique j (Z.to_nat c) k (j - k * Z.to_nat c)); lia. }
      rewrite Hdiv. lia.
  - apply list_find_None in Hfind.
    destruct Hpost as [[Hn _]|[_ (k & _ & _ & Hat & _)]]; [lia|].
    exfalso. destruct Hat as (j0 & r0 & _ & Hl0 & Hr0).
    rewrite Forall_forall in Hfind.
    apply (Hfind r0); [|done].
    apply list_elem_of_lookup. eauto.
Qed.

(** C3 on the six sample items in pairs with [failFast]: the second item
    fails, so two entries come back. *)
Lemma generateOGBatch_length_and_order_witness :
  let d := {| defaultFonts :=
                [ {| font_name := "Bitter"; font_data := [0%N; 1%N];
                     font_weight := 500; font_style := "normal" |} ];
              defaultWidth := 1200; defaultHeight := 630;
              defaultEmoji := None |} in
  (1 <= nullish (concurrency Samples.fail_fast_pairs) 5)%Z /\
  prepare Samples.strict_parser (batch_defaults Samples.fail_fast_pairs)
    = Fulfilled d /\
  length Samples.six_items <= 6 /\
  scheduled_length (length Samples.six_items) 2%Z true
    (first_failure Samples.strict_parser d Samples.six_items) = 2 /\
  exists results,
    generateOGBatch 6 Samples.strict_parser Samples.six_items
      Samples.fail_fast_pairs = Some (Fulfilled results) /\
    length results =
      scheduled_length (length Samples.six_items)
        (nullish (concurrency Samples.fail_fast_pairs) 5%Z)
        (nullish (failFast Samples.fail_fast_pairs) false)
        (first_failure Samples.strict_parser d Samples.six_items) /\
    (forall i r, results !! i = Some r ->
       index r = Z.of_nat i /\
       exists item, Samples.six_items !! i = Some item /\
                    result r = render_item Samples.strict_parser d item) /\
    (forall i j ri rj, i < j -> results !! i = Some ri ->
       results !! j = Some rj -> (index ri < index rj)%Z).
Proof.
  intros d.
  assert (H1 : (1 <= nullish (concurrency Samples.fail_fast_pairs) 5)%Z)
    by (simpl; lia).
  assert (H3 : length Samples.six_items <= 6) by (simpl; lia).
  split; [exact H1|]. split; [reflexivity|]. split; [exact H3|].
  split; [reflexivity|].
  exact (generateOGBatch_length_and_order Samples.strict_parser
           Samples.six_items Samples.fail_fast_pairs d 6 H1 eq_refl H3).
Defined.

(** With [concurrency: 0] the loop variable never moves: on a non-empty
    batch the chunk loop does not end, whatever the fuel. *)
Lemma zero_concurrency_never_settles (env : Env) (d : defaults)
    (items : list BatchItem) (failFast : bool) (fuel : nat) :
  items <> [] ->
  chunk_loop env d items 0 failFast fuel 0 [] false [] = None.
Proof.
  intros Hne. induction fuel as [|fuel IH]; simpl.
  - destruct items; [done|]. reflexivity.
  - destruct items as [|x l] eqn:E; [done|]. rewrite <- E in *.
    assert (Hlt : (0 <? Z.of_nat (length items))%Z = true).
    { apply Z.ltb_lt. rewrite E. simpl length. lia. }
    rewrite Hlt. simpl.
    assert (Hs : slice items 0 (0 + 0) = []).
    { unfold slice. simpl. rewrite !Z.min_l by lia. reflexivity. }
    rewrite Hs. simpl. destruct failFast; exact IH.
Qed.

(** C3 as stated, for every non-empty list, does not hold.  With
    [concurrency: 0] the batch of six items never settles, so no list is
    returned; and in a runtime whose engine initialization has failed the
    promise of the batch rejects, again with no list. *)
Lemma batch_without_result_list :
  (~ exists fuel r,
       generateOGBatch fuel Samples.healthy Samples.six_items
         {| concurrency := Some 0%Z; failFast := None;
            batch_defaults := no_options |} = Some r) /\
  generateOGBatch 6 Samples.engine_down Samples.six_items
    Samples.no_batch_options = Some (Rejected Samples.wasm_failure).
Proof.
  split; [|reflexivity].
  intros (fuel & r & H).
  unfold generateOGBatch, generateOGBatch_started in H.
  destruct (prepare Samples.healthy _) as [d|err] eqn:Hp;
    [|vm_compute in Hp; discriminate].
  cbn [nullish concurrency failFast] in H.
  rewrite zero_concurrency_never_settles in H by (unfold Samples.six_items; discriminate).
  discriminate.
Qed.



End BatchResults.

(* ================================================================== *)
(** * OGStream                                                         *)
(* ================================================================== *)

Section StreamOrchestration.
Import Js Types Render Stream.

Context (env : Env) (latency : nat -> nat) (options : StreamOptions)
        (d : defaults).

Local Abbreviation w := (prefetch_size options).
Local Abbreviation results_from := (Stream.results_from env d).
Local Abbreviation future := (Stream.future env d).

Lemma length_results_from (it : list StreamItem) : forall index,
  length (results_from index it) = length it.
Proof. induction it as [|x it IH]; intros index; simpl; [done|]. by rewrite IH. Qed.

Lemma lookup_results_from (it : list StreamItem) : forall index j r,
  results_from index it !! j = Some r ->
  stream_index r = index + j /\
  exists item, it !! j = Some item /\
               stream_result r = render_item env d item.
Proof.
  induction it as [|x it IH]; intros index j r; simpl; [done|].
  destruct j as [|j]; simpl.
  - intros [= <-]. simpl. split; [lia|]. eauto.
  - intros H. destruct (IH _ _ _ H) as (Hi & item & Hitem & Hr).
    split; [lia|]. eauto.
Qed.

(** Starting a render for the next item, at the current time, keeps the
    window in start order. *)
Lemma push_ordered (pending : list handle) (index now : nat) (item : StreamItem) :
  StronglySorted before pending ->
  Forall (fun h => h_index h < index /\ h_started_at h <= now) pending ->
  StronglySorted before (pending ++ [generateItem env latency d item index now]) /\
  Forall (fun h => h_index h < S index /\ h_started_at h <= now)
         (pending ++ [generateItem env latency d item index now]).
Proof.
  intros Hs Hb. split.
  - apply StronglySorted_app_2; [|done|repeat constructor].
    intros h1 h2 Hin1 Hin2. apply list_elem_of_singleton in Hin2 as ->.
    rewrite Forall_forall in Hb. destruct (Hb h1 Hin1). by split.
  - apply Forall_app. split.
    + eapply Forall_impl; [exact Hb|]. simpl. intros h [? ?]. split; lia.
    + apply Forall_singleton. simpl. split; lia.
Qed.

(** The initial fill: it only starts renders for the next items of the
    iterator, in order; it starts at least one when the window size
    allows it and an item is there. *)
Lemma fill_spec (it : list StreamItem) :
  forall (now : nat) (i : Z) (pending : list handle) (index : nat)
         pending' index' it',
  fill env latency options d now i it pending index = (pending', index', it') ->
  (map h_value pending' ++ results_from index' it'
   = map h_value pending ++ results_from index it) /\
  length pending <= length pending' /\
  ((i < w)%Z -> it <> [] -> length pending < length pending') /\
  (StronglySorted before pending ->
   Forall (fun h => h_index h < index /\ h_started_at h <= now) pending ->
   StronglySorted before pending' /\
   Forall (fun h => h_index h < index' /\ h_started_at h <= now) pending').
Proof.
  induction it as [|item it IH]; intros now i pending index pending' index' it'; simpl.
  - destruct (Z.ltb_spec i w); intros [= <- <- <-]; repeat split; try done; tauto.
  - destruct (Z.ltb_spec i w) as [Hlt|Hge].
    + intros Hfill.
      destruct (IH _ _ _ _ _ _ _ Hfill) as (Hfut & Hlen & _ & Hord).
      rewrite length_app in Hlen. simpl in Hlen.
      split.
      { rewrite Hfut. rewrite map_app. simpl. by rewrite <- app_assoc. }
      split; [lia|]. split; [lia|].
      intros Hs Hb. apply Hord; by apply push_ordered.
    + intros [= <- <- <-]. repeat split; try done; try lia; tauto.
Qed.

(** After a [yield]: the refill changes neither what is still to come
    nor the order of the window. *)
Lemma refill_spec (g : generator) :
  stream_d g = Some d ->
  let g1 := refill env latency g in
  pos g1 = pos g /\ stream_d g1 = Some d /\
  future g1 = future g /\
  awaited g1 = awaited g /\
  (pending g1 = [] -> iterator g1 = []) /\
  (ordered g -> ordered g1).
Proof.
  intros Hd. unfold refill. rewrite Hd.
  destruct (iterator g) as [|item it'] eqn:Hit; simpl.
  - split; [done|]. split; [done|]. split; [done|]. split; [done|]. split; done.
  - split; [done|]. split; [done|]. split; [|split; [done|split]].
    + unfold Stream.future. simpl. rewrite Hit. simpl.
      rewrite map_app. simpl. by rewrite <- app_assoc.
    + by destruct (pending g).
    + intros [Hs Hb Ha].
      destruct (push_ordered (pending g) (index g) (clock g) item Hs Hb).
      by split.
Qed.

(** Awaiting the head of a non-empty window yields the value of the
    head, logs an await of the head, and leaves the rest in order. *)
Lemma await_head_spec (g : generator) (h : handle) (rest : list handle) :
  pending g = h :: rest ->
  ordered g ->
  exists g2,
    await_head g = (g2, IterValue (h_value h)) /\
    pos g2 = AtYield /\ stream_d g2 = stream_d g /\
    future g = h_value h :: future g2 /\
    awaited g2 = awaited g ++ [(h, h :: rest)] /\
    ordered g2.
Proof.
  intros Hp [Hs Hb Ha]. unfold await_head. rewrite Hp.
  eexists. split; [reflexivity|]. simpl.
  split; [done|]. split; [done|].
  split. { unfold Stream.future. by rewrite Hp. }
  split; [done|].
  rewrite Hp in Hs, Hb.
  apply StronglySorted_cons in Hs as [Hh Hs].
  apply Forall_cons in Hb as [_ Hb].
  split; simpl.
  - done.
  - eapply Forall_impl; [exact Hb|]. simpl. intros h' [? ?]. split; lia.
  - apply Forall_app. split; [done|]. apply Forall_singleton.
    exists rest. by split.
Qed.

(** The consumer, from a generator suspended at its [yield]: it receives
    exactly what was still to come, in that order, each value being the
    value of the handle awaited for it, and the generator ends. *)
Lemma drain (fuel : nat) : forall (g : generator) (out : list StreamResult),
  pos g = AtYield ->
  stream_d g = Some d ->
  ordered g ->
  length (future g) < fuel ->
  exists g',
    for_await env latency options fuel g out = Some (out ++ future g, None, g') /\
    pos g' = Completed /\ ordered g' /\ pending g' = [] /\
    map (fun a => h_value a.1) (awaited g')
    = map (fun a => h_value a.1) (awaited g) ++ future g.
Proof.
  induction fuel as [|fuel IH]; intros g out Hpos Hd Hord Hfuel; [lia|].
  destruct (refill_spec g Hd) as (Hpos1 & Hd1 & Hfut1 & Haw1 & Hempty & Hord1).
  specialize (Hord1 Hord).
  simpl. unfold next. rewrite Hpos.
  set (g1 := refill env latency g) in *.
  destruct (pending g1) as [|h rest] eqn:Hp.
  - unfold await_head. rewrite Hp.
    assert (Hnil : future g = []).
    { rewrite <- Hfut1. unfold Stream.future. by rewrite Hp, (Hempty eq_refl). }
    eexists. split.
    { rewrite Hnil. by rewrite app_nil_r. }
    simpl. split; [done|]. split.
    { destruct Hord1 as [_ _ Ha]. split; simpl; [constructor|constructor|done]. }
    split; [done|]. by rewrite Hnil, app_nil_r, Haw1.
  - destruct (await_head_spec g1 h rest Hp Hord1)
      as (g2 & Hawait & Hpos2 & Hd2 & Hfut2 & Haw2 & Hord2).
    rewrite Hawait.
    destruct (IH g2 (out ++ [h_value h]) Hpos2)
      as (g' & Hrun & Hpos' & Hord' & Hpend' & Haw').
    { congruence. }
    { done. }
    { rewrite <- Hfut1, Hfut2 in Hfuel. simpl in Hfuel. lia. }
    exists g'. split.
    { rewrite Hrun, <- Hfut1, Hfut2. by rewrite <- app_assoc. }
    split; [done|]. split; [done|]. split; [done|].
    rewrite Haw', Haw2, Haw1, <- Hfut1, Hfut2.
    rewrite map_app. simpl. by rewrite <- app_assoc.
Qed.

(** When the window size is not positive the fill loop starts nothing. *)
Lemma fill_closed (dd : defaults) (now : nat) (i : Z) (it : list StreamItem)
    (pending : list handle) (index : nat) :
  (w <= i)%Z ->
  fill env latency options dd now i it pending index = (pending, index, it).
Proof.
  intros Hw. destruct it; simpl;
    destruct (Z.ltb_spec i w); try lia; reflexivity.
Qed.

(** C2.  For a window size of at least one, an engine that became ready
    and default fonts that resolved: the consumer of [OGStream(items)]
    comes to the end of the stream (any fuel above [length items] is
    enough) and has received exactly the results of the items, one per
    item, the [i]-th being the result of the [i]-th item with index [i].
    The list does not mention [latency]: the order is the same however
    long each render takes.  Every value received is the value of the
    handle awaited for it, and every await was an await of the window
    head, the render started for the earliest item among those in
    flight and started no later than any of them. *)
Theorem OGStream_yields_in_input_order (items : list StreamItem) (fuel : nat) :
  (1 <= prefetch_size options)%Z ->
  prepare env (stream_defaults options) = Fulfilled d ->
  length items < fuel ->
  exists g',
    for_await env latency options fuel (OGStream items) []
      = Some (results_from 0 items, None, g') /\
    length (results_from 0 items) = length items /\
    (forall i r, results_from 0 items !! i = Some r ->
       stream_index r = i /\
       exists item, items !! i = Some item /\
                    stream_result r = render_item env d item) /\
    pos g' = Completed /\ pending g' = [] /\
    map (fun a => h_value a.1) (awaited g') = results_from 0 items /\
    Forall awaits_head (awaited g').
Proof.
  intros Hw Hprep Hfuel.
  destruct fuel as [|fuel]; [lia|].
  assert (Hlook : forall i r, results_from 0 items !! i = Some r ->
            stream_index r = i /\
            exists item, items !! i = Some item /\
                         stream_result r = render_item env d item).
  { intros i r Hi. by apply lookup_results_from in Hi. }
  simpl. unfold next. simpl. rewrite Hprep.
  destruct (fill env latency options d 0 0 items [] 0)
    as [[pending0 index0] it0] eqn:Hfill.
  destruct (fill_spec _ _ _ _ _ _ _ _ Hfill) as (Hfut & _ & Hnonempty & Hord).
  simpl in Hfut.
  destruct Hord as [Hs Hb]; [constructor|constructor|].
  set (g0 := {| pos := NotStarted; stream_d := Some d; pending := pending0;
                index := index0; iterator := it0; clock := 0;
                awaited := [] |}).
  assert (Hord0 : ordered g0) by (split; simpl; [done|done|constructor]).
  destruct pending0 as [|h rest] eqn:Hp.
  - (* nothing was started: there is no item *)
    destruct items as [|item items'].
    2:{ exfalso. simpl in Hnonempty.
        assert (0 < 0); [apply Hnonempty; [lia|done]|lia]. }
    unfold await_head. simpl.
    eexists. split; [reflexivity|]. simpl. repeat split; done.
  - destruct (await_head_spec g0 h rest eq_refl Hord0)
      as (g2 & Hawait & Hpos2 & Hd2 & Hfut2 & Haw2 & Hord2).
    rewrite Hawait.
    assert (Hall : results_from 0 items = h_value h :: future g2).
    { rewrite <- Hfut, <- Hfut2. reflexivity. }
    destruct (drain fuel g2 [h_value h] Hpos2)
      as (g' & Hrun & Hpos' & Hord' & Hpend' & Haw').
    { done. }
    { done. }
    { apply (f_equal length) in Hall. rewrite length_results_from in Hall.
      simpl in Hall. lia. }
    exists g'. rewrite Hrun.
    split; [by rewrite Hall|].
    split; [apply length_results_from|].
    split; [exact Hlook|].
    split; [done|]. split; [done|].
    split. { rewrite Haw', Haw2, Hall. reflexivity. }
    by destruct Hord'.
Qed.

(** C10.  For a window size of zero or less, whatever the items: the
    first [next()] ends the stream.  The consumer receives no result; no
    render was started, nothing was awaited, and no item was pulled from
    the iterator.  When the engine is ready and the fonts resolve the
    stream ends normally. *)
Theorem OGStream_non_positive_prefetch (items : list StreamItem) (fuel : nat) :
  (prefetch_size options <= 0)%Z ->
  1 <= fuel ->
  exists completion g',
    for_await env latency options fuel (OGStream items) []
      = Some ([], completion, g') /\
    pos g' = Completed /\
    pending g' = [] /\ awaited g' = [] /\ started g' = [] /\
    iterator g' = items /\ index g' = 0 /\
    (forall dd, prepare env (stream_defaults options) = Fulfilled dd ->
       completion = None /\
       (next env latency options (OGStream items)).2 = IterDone).
Proof.
  intros Hw Hfuel. destruct fuel as [|fuel]; [lia|].
  simpl. unfold next. simpl.
  destruct (prepare env (stream_defaults options)) as [dd|err].
  - rewrite fill_closed by done. unfold await_head. simpl.
    eexists _, _. split; [reflexivity|]. simpl. repeat split; done.
  - eexists _, _. split; [reflexivity|]. simpl. repeat split; try done.
    all: intros; discriminate.
Qed.

End StreamOrchestration.

Section StreamExamples.
Import Js Types Render Stream.

(** C2 on three items with a window of two. *)
Lemma OGStream_yields_in_input_order_witness :
  (1 <= prefetch_size (Samples.window 2))%Z /\
  prepare Samples.healthy (stream_defaults (Samples.window 2))
    = Fulfilled Samples.bitter_defaults /\
  length Samples.three_items < 4 /\
  exists g',
    for_await Samples.healthy Samples.slow_first (Samples.window 2) 4
      (OGStream Samples.three_items) []
      = Some (results_from Samples.healthy Samples.bitter_defaults 0
                Samples.three_items, None, g') /\
    length (results_from Samples.healthy Samples.bitter_defaults 0
              Samples.three_items) = length Samples.three_items /\
    (forall i r,
       results_from Samples.healthy Samples.bitter_defaults 0
         Samples.three_items !! i = Some r ->
       stream_index r = i /\
       exists item, Samples.three_items !! i = Some item /\
                    stream_result r
                    = render_item Samples.healthy Samples.bitter_defaults item) /\
    pos g' = Completed /\ pending g' = [] /\
    map (fun a => h_value a.1) (awaited g')
    = results_from Samples.healthy Samples.bitter_defaults 0
        Samples.three_items /\
    Forall awaits_head (awaited g').
Proof.
  assert (H1 : (1 <= prefetch_size (Samples.window 2))%Z)
    by (unfold prefetch_size; simpl; lia).
  assert (H3 : length Samples.three_items < 4) by (simpl; lia).
  split; [exact H1|]. split; [reflexivity|]. split; [exact H3|].
  exact (OGStream_yields_in_input_order Samples.healthy Samples.slow_first
           (Samples.window 2) Samples.bitter_defaults Samples.three_items 4
           H1 eq_refl H3).
Defined.

(** The same run, looked at through the clock.  The render of item 0
    settles at time 100, the render of item 1, started with it, at time
    1; the first await is still on item 0 and item 0 is yielded first.
    Each entry: index awaited, the time it settles, and the settle times
    of the window it heads. *)
Example slow_head_is_yielded_first :
  match for_await Samples.healthy Samples.slow_first (Samples.window 2) 4
          (OGStream Samples.three_items) [] with
  | Some (out, completion, g') =>
      map stream_index out = [0; 1; 2] /\
      completion = None /\
      map (fun a => (h_index a.1, h_settles_at a.1, map h_settles_at a.2))
          (awaited g')
      = [ (0, 100, [100; 1]); (1, 1, [1; 101]); (2, 101, [101]) ] /\
      clock g' = 101
  | None => False
  end.
Proof. vm_compute. repeat split. Qed.

(** C10 on three items with [prefetch: 0]. *)
Lemma OGStream_non_positive_prefetch_witness :
  (prefetch_size (Samples.window 0) <= 0)%Z /\
  1 <= 1 /\
  exists completion g',
    for_await Samples.healthy Samples.slow_first (Samples.window 0) 1
      (OGStream Samples.three_items) []
      = Some ([], completion, g') /\
    pos g' = Completed /\
    pending g' = [] /\ awaited g' = [] /\ started g' = [] /\
    iterator g' = Samples.three_items /\ index g' = 0 /\
    (forall dd,
       prepare Samples.healthy (stream_defaults (Samples.window 0))
         = Fulfilled dd ->
       completion = None /\
       (next Samples.healthy Samples.slow_first (Samples.window 0)
          (OGStream Samples.three_items)).2 = IterDone).
Proof.
  assert (H1 : (prefetch_size (Samples.window 0) <= 0)%Z)
    by (unfold prefetch_size; simpl; lia).
  split; [exact H1|]. split; [lia|].
  exact (OGStream_non_positive_prefetch Samples.healthy Samples.slow_first
           (Samples.window 0) Samples.three_items 1 H1 (le_n 1)).
Defined.

(** C2 as stated, for every item sequence, does not hold.  In a runtime
    whose engine initialization has failed, the consumer of a stream over
    three items with a window of two receives no result at all: the first
    [next()] throws and the stream is over. *)
Lemma failed_prologue_yields_nothing :
  length Samples.three_items = 3 /\
  (fun r => (r.1, pos r.2)) <$>
    for_await Samples.engine_down Samples.slow_first (Samples.window 2) 4
      (OGStream Samples.three_items) []
  = Some (([], Some Samples.wasm_failure), Completed).
Proof. split; reflexivity. Qed.

End StreamExamples.

(* ================================================================== *)
(** * A failed engine initialization, seen from the three entry points *)
(* ================================================================== *)

Section EngineInitFailure.
Import Js Types Render.

(** [generateOGBatch] awaits the engine outside any [try]: when the
    readiness promise rejects, so does the promise of the batch. *)
Lemma generateOGBatch_init_failure (env : Env) (items : list BatchItem)
    (options : BatchOptions) (err : thrown) (fuel : nat) :
  ensureYogaInitialized env = Rejected err ->
  Batch.generateOGBatch fuel env items options = Some (Rejected err).
Proof.
  intros H. unfold Batch.generateOGBatch, Batch.generateOGBatch_started, prepare.
  rewrite H. reflexivity.
Qed.

(** [OGStream] does the same: the first [next()] rejects and the
    generator is finished. *)
Lemma OGStream_init_failure (env : Env) (latency : nat -> nat)
    (options : StreamOptions) (items : list StreamItem) (err : thrown) :
  ensureYogaInitialized env = Rejected err ->
  (Stream.next env latency options (Stream.OGStream items)).2
    = Stream.IterThrow err /\
  Stream.pos (Stream.next env latency options (Stream.OGStream items)).1
    = Stream.Completed.
Proof.
  intros H. unfold Stream.next, prepare. simpl. rewrite H. simpl. done.
Qed.

(** C4, in a runtime whose engine initialization has failed with
    [wasm_failure].  [generateOG] is fulfilled with the error variant
    carrying that error.  [generateOGBatch] is not fulfilled at all: its
    promise rejects with the error, for every fuel.  The first [next()]
    on an [OGStream] rejects with it, so a consumer gets the exception
    and no result. *)
Theorem init_failure_escapes_batch_and_stream :
  Single.generateOG Samples.engine_down (HtmlString "<p>0</p>") no_options
    = Fulfilled (OGError (mkError "CompileError"
                            "WebAssembly.instantiate(): out of memory")) /\
  (forall fuel,
     Batch.generateOGBatch fuel Samples.engine_down Samples.six_items
       Samples.no_batch_options = Some (Rejected Samples.wasm_failure)) /\
  (Stream.next Samples.engine_down Samples.slow_first
     Samples.no_stream_options (Stream.OGStream Samples.three_items)).2
    = Stream.IterThrow Samples.wasm_failure /\
  (fun r => r.1) <$>
    Stream.for_await Samples.engine_down Samples.slow_first
      Samples.no_stream_options 1 (Stream.OGStream Samples.three_items) []
    = Some ([], Some Samples.wasm_failure).
Proof.
  split; [reflexivity|].
  split; [intros fuel; by apply generateOGBatch_init_failure|].
  split; reflexivity.
Qed.

End EngineInitFailure.

(* ================================================================== *)
(** * getAttributes: the style attribute                               *)
(* ================================================================== *)

Section StyleAttribute.
Import Utils.

Context (camelCase : string -> string).

Lemma append_cons (c : ascii) (s t : string) :
  String c s +:+ t = String c (s +:+ t).
Proof. reflexivity. Qed.

Lemma append_nil_l (t : string) : "" +:+ t = t.
Proof. reflexivity. Qed.

Lemma append_nil_r (s : string) : s +:+ "" = s.
Proof. induction s as [|c s IH]; [done|]. rewrite append_cons. by f_equal. Qed.

Lemma append_assoc (a b c : string) : (a +:+ b) +:+ c = a +:+ (b +:+ c).
Proof.
  induction a as [|x a IH]; [done|]. rewrite !append_cons. by f_equal.
Qed.

(** The [reduce] over the pieces appends the text of each entry, so the
    entries are what ends up between the braces of ["style":{...}]. *)
Lemma style_reduce_entries (pieces : list string) : forall acc : string,
  fold_left (style_step camelCase) pieces acc
  = acc +:+ fold_right (fun e t => entry_text e +:+ t) ""
              (omap (style_entry camelCase) pieces).
Proof.
  induction pieces as [|cur pieces IH]; intros acc.
  - symmetry. apply append_nil_r.
  - cbn [fold_left omap list_omap]. rewrite IH. unfold style_step.
    destruct (style_entry camelCase cur) as [e|]; [|done].
    cbn [fold_right]. by rewrite append_assoc.
Qed.

(** Every key of the style map is [camelCase] of the trimmed text before
    the first colon of its piece, every value the sanitized trimmed text
    after it. *)
Lemma style_entry_normalized (cur key value : string) :
  style_entry camelCase cur = Some (key, value) ->
  exists k v, split_first_colon cur = (k, Some v) /\
              key = camelCase (trim k) /\
              value = sanitizeJSON (trim v).
Proof.
  unfold style_entry.
  destruct (split_first_colon cur) as [k [v|]]; [|by destruct k].
  destruct k as [|c k]; [done|]. destruct v as [|a v]; [done|].
  intros [= <- <-]. eauto.
Qed.

Lemma style_entries_normalized (clean key value : string) :
  (key, value) ∈ style_entries camelCase clean ->
  exists cur k v, cur ∈ split_style clean /\
                  split_first_colon cur = (k, Some v) /\
                  key = camelCase (trim k) /\
                  value = sanitizeJSON (trim v).
Proof.
  unfold style_entries. rewrite list_elem_of_omap.
  intros (cur & Hin & Hentry).
  destruct (style_entry_normalized cur key value Hentry) as (k & v & ?).
  exists cur, k, v. by split.
Qed.

(** The style of the example in the specification: two entries, the
    gradient in one piece. *)
Example linear_gradient_survives :
  style_entries camelCase
    (cleanStyle "color: red; background: linear-gradient(90deg, red, blue)")
  = [ (camelCase "color", "red");
      (camelCase "background", "linear-gradient(90deg, red, blue)") ].
Proof. reflexivity. Qed.

Lemma split_style_nonempty (s : string) : split_style s <> [].
Proof.
  destruct s as [|c s]; simpl; [done|].
  destruct (Ascii.eqb c ";" && negb (closes_before_open s)); [done|].
  by destruct (split_style s).
Qed.

(** Text in front of a string only adds pieces in front and extends the
    first piece to the left. *)
Lemma split_style_prefix (pre x p : string) (ps : list string) :
  split_style x = p :: ps ->
  exists before p', split_style (pre +:+ x) = before ++ (p' +:+ p) :: ps.
Proof.
  intros Hx. induction pre as [|c pre IH].
  - exists [], "". by rewrite !append_nil_l, Hx.
  - destruct IH as (before & p' & IH). rewrite append_cons. simpl. rewrite IH.
    destruct (Ascii.eqb c ";" && negb (closes_before_open (pre +:+ x))).
    + by exists ("" :: before), p'.
    + destruct before as [|b before]; simpl.
      * by exists [], (String c p').
      * by exists (String c b :: before), p'.
Qed.

Lemma closes_after_flat_text (body post : string) :
  no_parentheses body = true ->
  closes_before_open (body +:+ String ")" post) = true.
Proof.
  induction body as [|c body IH]; [done|].
  rewrite append_cons. simpl.
  intros H. apply andb_prop in H as [H Hb]. apply andb_prop in H as [Ho Hc].
  destruct (Ascii.eqb c ")"); [done|]. destruct (Ascii.eqb c "("); [done|].
  by apply IH.
Qed.

Lemma split_style_flat (body post q : string) (qs : list string) :
  no_parentheses body = true ->
  split_style post = q :: qs ->
  split_style (body +:+ String ")" post)
  = (body +:+ String ")" q) :: qs.
Proof.
  intros Hflat Hpost. induction body as [|c body IH].
  - rewrite !append_nil_l. simpl. by rewrite Hpost.
  - simpl in Hflat. apply andb_prop in Hflat as [H Hb].
    rewrite !append_cons. simpl.
    rewrite (closes_after_flat_text body post Hb), andb_false_r.
    by rewrite (IH Hb).
Qed.

(** What the split regex does protect: a parenthesized group with no
    parenthesis inside it always stays within one piece, whatever
    semicolons it contains. *)
Lemma flat_group_survives (pre body post : string) :
  no_parentheses body = true ->
  exists before p q after,
    split_style (pre +:+ "(" +:+ body +:+ ")" +:+ post)
    = before ++ (p +:+ "(" +:+ body +:+ ")" +:+ q) :: after.
Proof.
  intros Hflat.
  destruct (split_style post) as [|q qs] eqn:Hpost.
  { by apply split_style_nonempty in Hpost. }
  pose proof (split_style_flat body post q qs Hflat Hpost) as Hbody.
  assert (Hopen : split_style ("(" +:+ body +:+ ")" +:+ post)
                  = ("(" +:+ body +:+ ")" +:+ q) :: qs).
  { change (")" +:+ post) with (String ")" post).
    change (")" +:+ q) with (String ")" q).
    change ("(" +:+ body +:+ String ")" post)
      with (String "(" (body +:+ String ")" post)).
    simpl. by rewrite Hbody. }
  destruct (split_style_prefix pre _ _ _ Hopen) as (before & p & H).
  by exists before, p, q, qs.
Qed.

(** C6, at a style whose value is a [url(...)] with a data URL that
    itself contains a parenthesized group.  The semicolon at position 34
    lies inside the parentheses of [url(] (depth 1, and the parentheses
    of the whole style are balanced), yet it is a position at which the
    style is cut: the value of [background] is cut short and the rest,
    having no colon, is dropped. *)
Theorem nested_parentheses_are_split :
  let style :=
    "background: url(data:image/svg+xml;utf8,<svg fill='rgb(0,0,0)'/>)" in
  cleanStyle style = style /\
  String.get 34 style = Some ";"%char /\
  depth_at 0 style 34 = 1 /\
  depth_at 0 style (String.length style) = 0 /\
  split_positions 0 (cleanStyle style) = [34] /\
  split_style (cleanStyle style)
  = [ "background: url(data:image/svg+xml";
      "utf8,<svg fill='rgb(0,0,0)'/>)" ] /\
  style_entries camelCase (cleanStyle style)
  = [ (camelCase "background", "url(data:image/svg+xml") ].
Proof. repeat split. Qed.

End StyleAttribute.

(* ================================================================== *)
(** * parseHtml                                                        *)
(* ================================================================== *)

Section HtmlParser.
Import Js Utils Parser.

Context (rewrite : string -> settled (list rewriter_event))
        (JSON_parse : string -> option Types.ReactNode)
        (camelCase : string -> string).

(** Once the rewriter has streamed the document, [parseHtml] is fulfilled:
    with [null] exactly when [JSON.parse] throws on the text built from
    the events, never with a rejection. *)
Lemma parseHtml_null_iff (html : string) (events : list rewriter_event) :
  rewrite (wrap html) = Fulfilled events ->
  (exists node, parseHtml rewrite JSON_parse camelCase html = Fulfilled node) /\
  (parseHtml rewrite JSON_parse camelCase html = Fulfilled None
   <-> JSON_parse (vdom_text camelCase events) = None).
Proof.
  intros H. unfold parseHtml. rewrite H. simpl. split; [eauto|].
  split; [by intros [= ->] | by intros ->].
Qed.

(** An element without attributes gets an empty attribute text. *)
Example no_attributes :
  getAttributes camelCase {| tagName := "span"; attributes := [] |} = "".
Proof. reflexivity. Qed.

(** A text chunk is dropped when it is empty. *)
Example empty_text_dropped (vdomStr : string) :
  handle camelCase vdomStr (TextEvent "") = vdomStr.
Proof. reflexivity. Qed.

End HtmlParser.

(** The example of the specification: one root with a two-entry style
    map, the gradient intact, and one child element with the text child
    "Hi" (all inside the synthetic parent). *)
Example example_document_text :
  Parser.vdom_text (Samples.hyphen_to_camel false) Samples.example_events
  = Samples.quoted
      ("{'type':'div', 'props':{'style':{'display': 'flex','flexDirection': 'column'},'children': [" +:+
       "{'type':'div', 'props':{'style':{'color': 'red','background': 'linear-gradient(90deg, red, blue)'},'children': [" +:+
       "{'type':'span', 'props':{'children': ['Hi']}}]}}]}}").
Proof. vm_compute. reflexivity. Qed.

(** The element of C6's failing style, as text: the value of
    [background] ends where the data URL has its semicolon. *)
Example nested_parentheses_attribute_text :
  Utils.getAttributes (Samples.hyphen_to_camel false)
    {| Utils.tagName := "div";
       Utils.attributes :=
         [("style",
           "background: url(data:image/svg+xml;utf8,<svg fill='rgb(0,0,0)'/>)")] |}
  = Samples.quoted "'style':{'background': 'url(data:image/svg+xml'},".
Proof. vm_compute. reflexivity. Qed.

(* ================================================================== *)
(** * More on the engine singleton                                     *)
(* ================================================================== *)

Section YogaLifetime.
Import Js Yoga YogaInvariants.

Lemma accounted_initial : accounted initial_world.
Proof. split; simpl; try done. Qed.

Lemma accounted_step (w w' : world) (ev : event) :
  wf w -> accounted w -> step w ev = Some w' -> accounted w'.
Proof.
  intros [Hf Hn Hp] [Hc Hs Hq Hy Hsat]. destruct ev as [|r s]; simpl.
  - intros [= <-]. unfold ensureYogaInitialized, in_flight in *.
    destruct (initialized (state w)) eqn:Hi.
    { split; unfold in_flight; simpl; auto. congruence. }
    destruct (initializing (state w)) as [p|] eqn:Hini.
    { split; unfold in_flight; simpl; rewrite ?Hini; auto. }
    split; unfold in_flight; simpl; try lia; auto.
  - unfold in_flight in *.
    destruct (initializing (state w)) as [p|] eqn:Hini; [|done].
    pose proof (initialization_body_clears (state w) r s) as Hclr.
    pose proof (initialization_body_satori_calls (state w) r s) as Hcalls.
    assert (Hyoga : initialized (initialization_body (state w) r s).1.1 = false ->
                    yoga (initialization_body (state w) r s).1.1 = None).
    { destruct (Hf p eq_refl) as [Hi _]. specialize (Hy Hi).
      unfold initialization_body.
      destruct r as [y|err]; [destruct s as [err|]|];
        try destruct (already_initialized err); simpl; done. }
    destruct (initialization_body (state w) r s) as [[st o] m].
    simpl in Hclr, Hcalls, Hyoga. intros [= <-].
    assert (Hsize : size (<[p:=o]> (promises w)) = S (size (promises w))).
    { apply map_size_insert_None. by apply Hp. }
    clear Hf Hp.
    split; unfold in_flight; simpl; rewrite ?Hclr, ?Hsize; try lia; auto.
    subst m. destruct r; lia.
Qed.

Lemma accounted_run (evs : list event) : forall w w',
  wf w -> accounted w -> run w evs = Some w' -> accounted w'.
Proof.
  induction evs as [|ev evs IH]; intros w w' Hw Ha; simpl.
  - by intros [= <-].
  - destruct (step w ev) as [w1|] eqn:Hs; [|done].
    apply IH; [by eapply wf_step | by eapply accounted_step].
Qed.

Lemma accounted_reachable (w : world) : reachable w -> accounted w.
Proof.
  intros [evs Hrun].
  exact (accounted_run evs _ _ wf_initial accounted_initial Hrun).
Qed.

(** X1.  In every world the process can reach, initialization attempts
    never overlap: all calls of [initYoga] but at most one (the attempt in
    flight) belong to attempts that have settled; each attempt suspended
    exactly once; the engine is not flagged ready while an attempt is in
    flight; and [initSatori] ran at most once per settled attempt. *)
Theorem attempts_never_overlap (w : world) :
  reachable w ->
  initYoga_calls w = size (promises w) + in_flight w /\
  in_flight w <= 1 /\
  suspensions w = initYoga_calls w /\
  initSatori_calls w <= size (promises w) /\
  (in_flight w = 1 -> isInitialized w = false) /\
  (isInitialized w = false -> yoga (state w) = None).
Proof.
  intros Hr. pose proof (wf_reachable w Hr) as Hwf.
  destruct (accounted_reachable w Hr) as [Hc Hs Hq Hy Hsat].
  split; [done|]. unfold in_flight, isInitialized in *.
  split; [destruct (initializing (state w)); lia|].
  split; [done|]. split; [done|]. split; [|done].
  destruct (initializing (state w)) as [p|] eqn:Hini; [|done].
  intros _. by destruct (wf_flight w Hwf p Hini).
Qed.

(** X1 after a failed attempt, a retry and two more callers. *)
Lemma attempts_never_overlap_witness :
  let boom := ThrownError (mkError "Error" "out of memory") in
  exists w,
    run initial_world [Call; InitYogaSettles (Rejected boom) None; Call; Call]
      = Some w /\
    reachable w /\
    initYoga_calls w = 2 /\ size (promises w) = 1 /\
    initYoga_calls w = size (promises w) + in_flight w /\
    in_flight w <= 1 /\
    suspensions w = initYoga_calls w /\
    initSatori_calls w <= size (promises w) /\
    (in_flight w = 1 -> isInitialized w = false) /\
    (isInitialized w = false -> yoga (state w) = None).
Proof.
  intros boom. eexists. split; [reflexivity|].
  match goal with |- reachable ?w /\ _ =>
    assert (Hr : reachable w)
      by (exists [Call; InitYogaSettles (Rejected boom) None; Call; Call];
          reflexivity)
  end.
  split; [exact Hr|]. split; [reflexivity|]. split; [reflexivity|].
  exact (attempts_never_overlap _ Hr).
Defined.

(** Once the engine is ready only calls can happen, and they change
    nothing but the list of returned promises. *)
Lemma ready_run (evs : list event) : forall w w',
  wf w -> isInitialized w = true -> run w evs = Some w' ->
  evs = replicate (length evs) Call /\
  w' = {| state := state w; promises := promises w;
          next_promise := next_promise w;
          initYoga_calls := initYoga_calls w;
          initSatori_calls := initSatori_calls w;
          suspensions := suspensions w;
          returned := returned w ++ replicate (length evs) ReturnedUndefined |}.
Proof.
  induction evs as [|ev evs IH]; intros w w' Hwf Hi; simpl.
  - intros [= <-]. split; [done|]. rewrite app_nil_r. by destruct w.
  - destruct ev as [|r s]; simpl.
    + intros Hrun.
      assert (Hcall : ensureYogaInitialized w = returns w ReturnedUndefined).
      { unfold ensureYogaInitialized. unfold isInitialized in Hi. by rewrite Hi. }
      rewrite Hcall in Hrun.
      destruct (IH (returns w ReturnedUndefined) w') as [Hevs Hw']; try done.
      { destruct Hwf as [Hf Hn Hp]. split; simpl; auto. }
      split; [by rewrite <- Hevs|].
      rewrite Hw'. simpl. by rewrite <- app_assoc.
    + destruct (initializing (state w)) as [p|] eqn:Hini; [|done].
      destruct (wf_flight w Hwf p Hini) as [Hfalse _].
      unfold isInitialized in Hi. congruence.
Qed.

(** X2.  Readiness is permanent.  From a reachable world in which the
    engine is ready, whatever happens next consists of calls only; the
    singleton's state and the promises stay as they are, [initYoga] and
    [initSatori] never run again, and every one of these later callers is
    handed an already fulfilled promise. *)
Theorem ready_is_permanent (w w' : world) (evs : list event) :
  reachable w ->
  isInitialized w = true ->
  run w evs = Some w' ->
  evs = replicate (length evs) Call /\
  state w' = state w /\
  promises w' = promises w /\
  initYoga_calls w' = initYoga_calls w /\
  initSatori_calls w' = initSatori_calls w /\
  suspensions w' = suspensions w /\
  (forall c, c < length (returned w) -> observe w' c = observe w c) /\
  (forall c, length (returned w) <= c < length (returned w) + length evs ->
     observe w' c = Some (Fulfilled tt)).
Proof.
  intros Hr Hi Hrun.
  destruct (ready_run evs w w' (wf_reachable w Hr) Hi Hrun) as [Hevs ->].
  split; [done|]. simpl. repeat (split; [done|]).
  split.
  - intros c Hc. unfold observe. simpl. by rewrite lookup_app_l.
  - intros c Hc. unfold observe. simpl.
    rewrite lookup_app_r by lia.
    rewrite lookup_replicate_2; [done|lia].
Qed.

Lemma ready_is_permanent_witness :
  let w := {| state := {| yoga := Some (yoga_instance 7);
                          initialized := true; initializing := None |};
              promises := {[ 0 := Fulfilled tt ]}; next_promise := 1;
              initYoga_calls := 1; initSatori_calls := 1; suspensions := 1;
              returned := [ReturnedPromise 0] |} in
  exists w',
    reachable w /\ isInitialized w = true /\
    run w [Call; Call] = Some w' /\
    [Call; Call] = replicate (length [Call; Call]) Call /\
    state w' = state w /\
    promises w' = promises w /\
    initYoga_calls w' = initYoga_calls w /\
    initSatori_calls w' = initSatori_calls w /\
    suspensions w' = suspensions w /\
    (forall c, c < length (returned w) -> observe w' c = observe w c) /\
    (forall c, length (returned w) <= c
               < length (returned w) + length [Call; Call] ->
       observe w' c = Some (Fulfilled tt)).
Proof.
  intros w. eexists.
  assert (Hr : reachable w).
  { exists [Call; InitYogaSettles (Fulfilled (yoga_instance 7)) None].
    reflexivity. }
  split; [exact Hr|]. split; [reflexivity|]. split; [reflexivity|].
  exact (ready_is_permanent w _ [Call; Call] Hr eq_refl eq_refl).
Defined.

(** X3.  The "Already initialized" signal.  When the attempt in flight
    ends with [initYoga] rejecting with an [Error] whose message contains
    "Already initialized", every caller waiting on the attempt is
    fulfilled and [isInitialized()] becomes true, although [initSatori]
    was not called and [state.yoga] is still [null]. *)
Theorem already_initialized_signal (w : world) (p : promise_id) (err : thrown) :
  reachable w ->
  initializing (state w) = Some p ->
  already_initialized err = true ->
  exists w',
    step w (InitYogaSettles (Rejected err) None) = Some w' /\
    (forall c, returned w !! c = Some (ReturnedPromise p) ->
               observe w' c = Some (Fulfilled tt)) /\
    isInitialized w' = true /\
    initializing (state w') = None /\
    yoga (state w') = None /\
    initSatori_calls w' = initSatori_calls w /\
    initYoga_calls w' = initYoga_calls w.
Proof.
  intros Hr Hp Herr.
  destruct (wf_flight w (wf_reachable w Hr) p Hp) as [Hi _].
  pose proof (acc_yoga w (accounted_reachable w Hr) Hi) as Hyoga.
  unfold step. rewrite Hp. unfold initialization_body. rewrite Herr.
  eexists. split; [reflexivity|]. simpl.
  split.
  { intros c Hc. unfold observe. simpl. rewrite Hc. apply lookup_insert_eq. }
  repeat split; try done.
Qed.

Lemma already_initialized_signal_witness :
  let err := ThrownError (mkError "Error" "Yoga: Already initialized.") in
  let w := {| state := {| yoga := None; initialized := false;
                          initializing := Some 0 |};
              promises := ∅; next_promise := 1;
              initYoga_calls := 1; initSatori_calls := 0; suspensions := 1;
              returned := [ReturnedPromise 0; ReturnedPromise 0] |} in
  reachable w /\ initializing (state w) = Some 0 /\
  already_initialized err = true /\
  exists w',
    step w (InitYogaSettles (Rejected err) None) = Some w' /\
    (forall c, returned w !! c = Some (ReturnedPromise 0) ->
               observe w' c = Some (Fulfilled tt)) /\
    isInitialized w' = true /\
    initializing (state w') = None /\
    yoga (state w') = None /\
    initSatori_calls w' = initSatori_calls w /\
    initYoga_calls w' = initYoga_calls w.
Proof.
  intros err w.
  assert (Hr : reachable w) by (exists [Call; Call]; reflexivity).
  split; [exact Hr|]. split; [reflexivity|]. split; [reflexivity|].
  exact (already_initialized_signal w 0 err Hr eq_refl eq_refl).
Defined.



End YogaLifetime.

(* ================================================================== *)
(** * More on generateOG                                               *)
(* ================================================================== *)

Section SingleOutcomes.
Import Js Types Single SingleSpec.

(** [generateOG] is fulfilled with the success variant exactly when
    every stage succeeded: the engine became ready, the element resolved
    to a node that is not [null], the fonts resolved, and satori, called
    with the node, the given or default dimensions (1200 by 630), those
    fonts and the emoji option, produced the SVG. *)
Lemma generateOG_ok_iff (env : Env) (e : element) (options : OGOptions)
    (svg : string) :
  generateOG env e options = Fulfilled (OGSuccess svg) <->
  ensureYogaInitialized env = Fulfilled tt /\
  exists node fonts,
    resolve_element env e = Fulfilled (Some node) /\
    resolve_fonts env options = Fulfilled fonts /\
    satori env node (satori_options options fonts) = Fulfilled svg.
Proof.
  unfold generateOG, resolve_fonts, satori_options, try_catch, await.
  destruct (ensureYogaInitialized env) as [[]|err0]; [|split; [done|by intros [? _]]].
  destruct (resolve_element env e) as [[node|]|err1].
  - destruct (if has_fonts options then _ else _) as [fonts|err2] eqn:Hfonts.
    + destruct (satori env node _) as [svg'|err3] eqn:Hsat.
      * split.
        -- intros [= ->]. split; [done|]. exists node, fonts. by rewrite Hsat.
        -- intros [_ (node' & fonts' & [= <-] & [= <-] & Hs)].
           rewrite Hsat in Hs. by injection Hs as ->.
      * split; [done|].
        intros [_ (node' & fonts' & [= <-] & [= <-] & Hs)]. congruence.
    + split; [done|]. by intros [_ (node' & fonts' & _ & ? & _)].
  - split; [done|]. by intros [_ (node' & fonts' & ? & _)].
  - split; [done|]. by intros [_ (node' & fonts' & ? & _)].
Qed.

(** X5.  When the caller passes a non-empty font list, [generateOG] does
    not depend on the font loader at all: with any other loader the
    outcome is the same. *)
Theorem generateOG_given_fonts_skip_loader (env : Env) (e : element)
    (options : OGOptions) (loader : GoogleFontOptions -> settled (list N)) :
  has_fonts options = true ->
  generateOG (with_font_loader env loader) e options = generateOG env e options.
Proof. intros H. unfold generateOG, with_font_loader. simpl. by rewrite H. Qed.

Lemma generateOG_given_fonts_witness :
  let roboto := {| font_name := "Roboto"; font_data := [7%N];
                   font_weight := 700; font_style := "normal" |} in
  let options := {| width := None; height := None; fonts := Some [roboto];
                    emoji := None; debug := None |} in
  let failing := fun _ : GoogleFontOptions =>
                   @Rejected (list N) (ThrownOther "offline") in
  has_fonts options = true /\
  generateOG (with_font_loader Samples.healthy failing)
    (HtmlString "<p>0</p>") options
  = generateOG Samples.healthy (HtmlString "<p>0</p>") options.
Proof.
  intros roboto options failing. split; [reflexivity|].
  exact (generateOG_given_fonts_skip_loader Samples.healthy
           (HtmlString "<p>0</p>") options failing eq_refl).
Defined.

End SingleOutcomes.

(* ================================================================== *)
(** * More on generateOGBatch                                          *)
(* ================================================================== *)

Section BatchEdges.
Import Js Types Render Batch.

(** X6.  An empty batch settles at once, whatever the concurrency (zero
    and negative values included) and with no fuel at all: it is fulfilled
    with the empty list.  The engine and the default fonts are awaited all
    the same, so if one of them fails the empty batch rejects. *)
Theorem generateOGBatch_empty (fuel : nat) (env : Env) (options : BatchOptions) :
  generateOGBatch fuel env [] options =
  Some match prepare env (batch_defaults options) with
       | Fulfilled _ => Fulfilled []
       | Rejected err => Rejected err
       end.
Proof.
  unfold generateOGBatch, generateOGBatch_started.
  destruct (prepare env (batch_defaults options)) as [d|err]; [|done].
  by destruct fuel.
Qed.

Lemma non_positive_concurrency_loops (env : Env) (d : defaults)
    (items : list BatchItem) (c : Z) (fuel : nat) :
  items <> [] -> (c <= 0)%Z ->
  forall (i : Z) results started, (i <= 0)%Z ->
    chunk_loop env d items c false fuel i results false started = None.
Proof.
  intros Hne Hc.
  assert (Hlen : 0 < length items).
  { destruct items as [|x l]; [done|]. rewrite length_cons. lia. }
  induction fuel as [|fuel IH]; intros i results started Hi; simpl.
  - destruct (Z.ltb_spec i (Z.of_nat (length items))); [done|lia].
  - destruct (Z.ltb_spec i (Z.of_nat (length items))); simpl; [|lia].
    apply IH. lia.
Qed.

(** X7.  With a concurrency of zero or less and without [failFast], a
    batch that is not empty never settles: the loop variable does not move
    forward, so no amount of fuel ends the chunk loop. *)
Theorem non_positive_concurrency_never_settles (fuel : nat) (env : Env)
    (items : list BatchItem) (options : BatchOptions) (d : defaults) :
  items <> [] ->
  (nullish (concurrency options) 5 <= 0)%Z ->
  nullish (failFast options) false = false ->
  prepare env (batch_defaults options) = Fulfilled d ->
  generateOGBatch fuel env items options = None.
Proof.
  intros Hne Hc Hff Hprep.
  unfold generateOGBatch, generateOGBatch_started. rewrite Hprep, Hff.
  by rewrite non_positive_concurrency_loops.
Qed.

Lemma non_positive_concurrency_witness :
  let options := {| concurrency := Some (-2)%Z; failFast := None;
                    batch_defaults := no_options |} in
  Samples.six_items <> [] /\
  (nullish (concurrency options) 5 <= 0)%Z /\
  nullish (failFast options) false = false /\
  prepare Samples.healthy (batch_defaults options)
    = Fulfilled Samples.bitter_defaults /\
  generateOGBatch 1000 Samples.healthy Samples.six_items options = None.
Proof.
  intros options.
  assert (H1 : Samples.six_items <> []) by discriminate.
  assert (H2 : (nullish (concurrency options) 5 <= 0)%Z) by (simpl; lia).
  split; [exact H1|]. split; [exact H2|]. split; [reflexivity|].
  split; [reflexivity|].
  exact (non_positive_concurrency_never_settles 1000 Samples.healthy
           Samples.six_items options Samples.bitter_defaults
           H1 H2 eq_refl eq_refl).
Defined.



End BatchEdges.

(* ================================================================== *)
(** * More on OGStream                                                 *)
(* ================================================================== *)

Section StreamWindow.
Import Js Types Render Stream StreamSpec.

Context (env : Env) (latency : nat -> nat) (options : StreamOptions)
        (d : defaults) (items : list StreamItem).
Hypothesis window_positive : (1 <= prefetch_size options)%Z.
Hypothesis prepared : prepare env (stream_defaults options) = Fulfilled d.

Local Abbreviation w' := (Z.to_nat (prefetch_size options)).
Local Abbreviation n := (length items).
Local Abbreviation nexts := (StreamSpec.nexts env latency options).
Local Abbreviation g0 := (OGStream items).

Lemma nexts_add (j k : nat) : forall g, nexts (j + k) g = nexts k (nexts j g).
Proof. induction j as [|j IH]; intros g; simpl; [done|]. apply IH. Qed.

Lemma nexts_S_r (k : nat) (g : generator) :
  nexts (S k) g = (next env latency options (nexts k g)).1.
Proof. replace (S k) with (k + 1) by lia. by rewrite nexts_add. Qed.

Lemma nexts_completed (k : nat) : forall g, pos g = Completed -> nexts k g = g.
Proof.
  induction k as [|k IH]; intros g Hg; simpl; [done|].
  unfold next. rewrite Hg. simpl. by apply IH.
Qed.

(** The initial fill starts the first [min (w - i) (length it)] items. *)
Lemma fill_count (it : list StreamItem) :
  forall (now : nat) (i : Z) (pending : list handle) (index : nat)
         pending' index' it',
  fill env latency options d now i it pending index = (pending', index', it') ->
  let k := Nat.min (Z.to_nat (prefetch_size options - i)) (length it) in
  length pending' = length pending + k /\ index' = index + k /\ it' = drop k it.
Proof.
  induction it as [|item it IH]; intros now i pending index pending' index' it'; simpl.
  - destruct (Z.ltb_spec i (prefetch_size options)); intros [= <- <- <-];
      rewrite Nat.min_0_r; repeat split; lia.
  - destruct (Z.ltb_spec i (prefetch_size options)) as [Hlt|Hge].
    + intros Hfill. destruct (IH _ _ _ _ _ _ _ Hfill) as (Hl & Hi & Hit).
      rewrite length_app in Hl. simpl in Hl.
      replace (Z.to_nat (prefetch_size options - i))
        with (S (Z.to_nat (prefetch_size options - (i + 1)))) by lia.
      rewrite <- Nat.succ_min_distr. simpl. repeat split; [lia|lia|done].
    + intros [= <- <- <-].
      replace (Z.to_nat (prefetch_size options - i)) with 0 by lia.
      simpl. repeat split; lia.
Qed.

(** The state of the pipeline after the consumer has taken [k] results. *)
Lemma taken_invariant (k : nat) :
  1 <= k <= n ->
  let g := nexts k g0 in
  pos g = AtYield /\ stream_d g = Some d /\
  index g = Nat.min n (w' + k - 1) /\
  length (pending g) = index g - k /\
  iterator g = drop (index g) items /\
  length (awaited g) = k /\
  Forall (fun a => length a.2 <= w') (awaited g).
Proof.
  induction k as [|k IH]; [lia|]. intros Hk.
  destruct (decide (k = 0)) as [->|Hk0].
  - (* the first result *)
    simpl. unfold next. simpl. rewrite prepared.
    destruct (fill env latency options d 0 0 items [] 0)
      as [[pending0 index0] it0] eqn:Hfill.
    destruct (fill_count _ _ _ _ _ _ _ _ Hfill) as (Hl & Hi & Hit).
    rewrite Z.sub_0_r in Hl, Hi, Hit. simpl in Hl, Hi.
    unfold await_head. simpl.
    destruct pending0 as [|h rest]; simpl in *; [lia|].
    split; [done|]. split; [done|].
    split; [lia|]. split; [lia|].
    split. { rewrite Hit, Hi. done. }
    split; [done|]. repeat constructor. simpl. lia.
  - destruct IH as (Hpos & Hd & Hidx & Hlen & Hit & Hawl & Haw); [lia|].
    rewrite nexts_S_r. set (g := nexts k g0) in *.
    unfold next. rewrite Hpos. unfold refill. rewrite Hd.
    destruct (iterator g) as [|item it'] eqn:Hiter.
    + (* the source is exhausted *)
      assert (Hfull : index g = n).
      { apply (f_equal length) in Hit. rewrite length_drop in Hit.
        simpl in Hit. lia. }
      unfold await_head.
      destruct (pending g) as [|h rest] eqn:Hp; simpl in *; [lia|].
      split; [done|]. split; [done|].
      split; [lia|]. split; [lia|].
      split. { rewrite Hfull. by rewrite drop_all. }
      split; [rewrite length_app; simpl; lia|].
      apply Forall_app. split; [done|]. repeat constructor. simpl. lia.
    + assert (Hroom : index g < n).
      { apply (f_equal length) in Hit. rewrite length_drop in Hit.
        simpl in Hit. lia. }
      unfold await_head. cbn [pending].
      destruct (pending g ++ [generateItem env latency d item (index g) (clock g)])
        as [|h rest] eqn:Hp.
      { by destruct (pending g). }
      assert (Hlp : length (h :: rest) = S (length (pending g))).
      { rewrite <- Hp, length_app. simpl. lia. }
      simpl in Hlp. simpl.
      split; [done|]. split; [done|].
      split; [lia|]. split; [lia|].
      split.
      { assert (Hlk : items !! index g = Some item).
        { rewrite <- (Nat.add_0_r (index g)), <- lookup_drop, <- Hit. done. }
        rewrite (drop_S _ _ _ Hlk) in Hit. by injection Hit. }
      split; [rewrite length_app; simpl; lia|].
      apply Forall_app. split; [done|]. repeat constructor. simpl. lia.
Qed.

(** After the last result the next [next()] ends the generator and logs
    no further await. *)
Lemma finished_after_last :
  pos (nexts (S n) g0) = Completed /\
  pending (nexts (S n) g0) = [] /\
  awaited (nexts (S n) g0) = awaited (nexts n g0).
Proof.
  destruct (decide (n = 0)) as [Hn|Hn].
  - rewrite Hn. simpl. unfold next. simpl. rewrite prepared.
    destruct (fill env latency options d 0 0 items [] 0)
      as [[pending0 index0] it0] eqn:Hfill.
    destruct (fill_count _ _ _ _ _ _ _ _ Hfill) as (Hl & Hi & Hit).
    rewrite Hn, Nat.min_0_r in Hl. simpl in Hl.
    destruct pending0; [|simpl in Hl; lia]. done.
  - destruct (taken_invariant n) as (Hpos & Hd & Hidx & Hlen & Hit & _); [lia|].
    rewrite nexts_S_r. set (g := nexts n g0) in *.
    assert (Hfull : index g = n) by lia.
    unfold next. rewrite Hpos. unfold refill. rewrite Hd.
    rewrite Hfull, drop_all in Hit. rewrite Hit.
    unfold await_head.
    destruct (pending g) as [|h rest]; [done|]. simpl in Hlen. lia.
Qed.

End StreamWindow.

Section StreamBounds.
Import Js Types Render Stream StreamSpec.





End StreamBounds.

Section StreamAndBatch.
Import Js Types Render Stream.

(** What the consumer of a whole stream receives (window of at least one,
    prologue succeeded). *)
Lemma consumer_receives_all (env : Env) (latency : nat -> nat)
    (options : StreamOptions) (d : defaults) (items : list StreamItem)
    (fuel : nat) :
  (1 <= prefetch_size options)%Z ->
  prepare env (stream_defaults options) = Fulfilled d ->
  length items < fuel ->
  exists g',
    for_await env latency options fuel (OGStream items) []
    = Some (results_from env d 0 items, None, g').
Proof.
  intros Hw Hprep Hfuel. destruct fuel as [|fuel]; [lia|].
  simpl. unfold next. simpl. rewrite Hprep.
  destruct (fill env latency options d 0 0 items [] 0)
    as [[pending0 index0] it0] eqn:Hfill.
  destruct (fill_spec env latency options d _ _ _ _ _ _ _ _ Hfill)
    as (Hfut & _ & Hnonempty & Hord).
  simpl in Hfut. destruct Hord as [Hs Hb]; [constructor|constructor|].
  set (g0 := {| pos := NotStarted; stream_d := Some d; pending := pending0;
                index := index0; iterator := it0; clock := 0;
                awaited := [] |}).
  assert (Hord0 : ordered g0) by (split; simpl; [done|done|constructor]).
  destruct pending0 as [|h rest] eqn:Hp.
  - destruct items as [|item items'].
    2:{ exfalso. simpl in Hnonempty.
        assert (0 < 0); [apply Hnonempty; [lia|done]|lia]. }
    unfold await_head. simpl. by eexists.
  - destruct (await_head_spec env d g0 h rest eq_refl Hord0)
      as (g2 & Hawait & Hpos2 & Hd2 & Hfut2 & _ & Hord2).
    rewrite Hawait.
    assert (Hall : results_from env d 0 items = h_value h :: future env d g2).
    { rewrite <- Hfut, <- Hfut2. reflexivity. }
    destruct (drain env latency options d fuel g2 [h_value h] Hpos2)
      as (g' & Hrun & _); [done|done| |].
    { apply (f_equal length) in Hall.
      rewrite (length_results_from env d) in Hall. simpl in Hall. lia. }
    exists g'. by rewrite Hrun, Hall.
Qed.

Lemma results_from_positions (env : Env) (d : defaults)
    (it : list StreamItem) : forall idx,
  map (fun r => (Z.of_nat (stream_index r), stream_result r))
      (results_from env d idx it)
  = imap (fun k item => (Z.of_nat (idx + k), render_item env d item)) it.
Proof.
  induction it as [|item it IH]; intros idx; [done|].
  simpl. rewrite Nat.add_0_r. f_equal.
  rewrite IH. apply imap_ext. intros k x _. simpl. do 2 f_equal. lia.
Qed.



End StreamAndBatch.

(* ================================================================== *)
(** * More on html/utils.ts                                            *)
(* ================================================================== *)

Section Sanitize.
Import Utils UtilsSpec.

Lemma replace_char_app (c : ascii) (by_ a b : string) :
  replace_char c by_ (a +:+ b)
  = replace_char c by_ a +:+ replace_char c by_ b.
Proof.
  induction a as [|x a IH]; [done|].
  rewrite append_cons. simpl. rewrite IH.
  destruct (Ascii.eqb x c); [by rewrite append_assoc | done].
Qed.

Lemma sanitizeJSON_app (a b : string) :
  sanitizeJSON (a +:+ b) = sanitizeJSON a +:+ sanitizeJSON b.
Proof. unfold sanitizeJSON. by rewrite !replace_char_app. Qed.

Lemma sanitizeJSON_char (c : ascii) :
  sanitizeJSON (String c "") = escape_char c.
Proof.
  destruct c as [[] [] [] [] [] [] [] []]; vm_compute; reflexivity.
Qed.

(** The six passes of [sanitizeJSON] amount to one pass that escapes each
    character on its own: no pass touches what an earlier one wrote. *)
Lemma sanitizeJSON_escape (s : string) : sanitizeJSON s = escape s.
Proof.
  induction s as [|c s IH]; [done|].
  change (String c s) with (String c "" +:+ s).
  rewrite sanitizeJSON_app, sanitizeJSON_char, IH. done.
Qed.

Lemma occurs_app (c : ascii) (a b : string) :
  occurs c (a +:+ b) = occurs c a || occurs c b.
Proof.
  induction a as [|x a IH]; [done|].
  rewrite append_cons. simpl. rewrite IH. by rewrite orb_assoc.
Qed.

Lemma unescape_escape (s : string) : unescape (escape s) = s.
Proof.
  induction s as [|c s IH]; [done|].
  simpl. unfold escape_char, backslash, dquote.
  repeat match goal with
         | |- context [Ascii.eqb c ?x] =>
             destruct (Ascii.eqb_spec c x) as [->|?]
         end;
    rewrite ?append_cons, ?append_nil_l; simpl;
    rewrite ?append_nil_l, ?IH; try done.
  by destruct (Ascii.eqb_spec c "092").
Qed.

Lemma escape_free_of (c : ascii) (s : string) :
  c ∈ ["010"; "013"; "009"; "012"]%char ->
  occurs c (escape s) = false.
Proof.
  intros Hc.
  assert (Hcases : c = "010"%char \/ c = "013"%char \/ c = "009"%char
                   \/ c = "012"%char).
  { repeat (apply elem_of_cons in Hc as [->|Hc]; [tauto|]).
    by apply elem_of_nil in Hc. }
  induction s as [|x s IH]; [done|].
  simpl. rewrite occurs_app, IH, orb_false_r.
  unfold escape_char, backslash, dquote.
  repeat match goal with
         | |- context [Ascii.eqb x ?y] =>
             destruct (Ascii.eqb_spec x y) as [->|?]
         end;
    rewrite ?append_cons, ?append_nil_l;
    try (destruct Hcases as [-> | [-> | [-> | ->]]]; reflexivity).
  simpl. rewrite orb_false_r. apply Ascii.eqb_neq.
  destruct Hcases as [-> | [-> | [-> | ->]]]; done.
Qed.

(** X12.  [sanitizeJSON] loses nothing and leaves none of the control
    characters it is there for: reading the escapes back gives the
    original string, so different strings have different escapes; the
    result contains no line feed, carriage return, tab or form feed; and
    it is empty only for the empty string. *)
Theorem sanitizeJSON_reversible (s : string) :
  unescape (sanitizeJSON s) = s /\
  (forall t, sanitizeJSON s = sanitizeJSON t -> s = t) /\
  (forall c, c ∈ ["010"; "013"; "009"; "012"]%char ->
     occurs c (sanitizeJSON s) = false) /\
  (sanitizeJSON s = "" <-> s = "").
Proof.
  assert (Hback : forall x, unescape (sanitizeJSON x) = x).
  { intros x. rewrite sanitizeJSON_escape. apply unescape_escape. }
  split; [apply Hback|]. split.
  { intros t H. rewrite <- (Hback s), <- (Hback t). by rewrite H. }
  split.
  { intros c Hc. rewrite sanitizeJSON_escape. by apply escape_free_of. }
  split.
  - intros H. rewrite <- (Hback s), H. done.
  - by intros ->.
Qed.

End Sanitize.

Section CleanStyle.
Import Utils UtilsSpec.

Lemma replace_char_removes (c : ascii) (s : string) :
  occurs c (replace_char c "" s) = false.
Proof.
  induction s as [|a s IH]; [done|]. simpl.
  destruct (Ascii.eqb a c) eqn:E; [by rewrite append_nil_l|].
  simpl. by rewrite E, IH.
Qed.

Lemma replace_char_absent (c : ascii) (by_ s : string) :
  occurs c s = false -> replace_char c by_ s = s.
Proof.
  induction s as [|a s IH]; [done|]. simpl.
  destruct (Ascii.eqb a c); [done|]. simpl. intros H. by rewrite IH.
Qed.

Lemma occurs_one (c r : ascii) : r <> c -> occurs c (String r "") = false.
Proof.
  intros H. cbn [occurs]. rewrite orb_false_r. by apply Ascii.eqb_neq.
Qed.

(** Collapsing writes only characters it has read, or a space. *)
Lemma collapse_keeps_out (c : ascii) (s : string) :
  forall run : option (ascii * bool),
  c <> " "%char ->
  occurs c s = false ->
  (forall r b, run = Some (r, b) -> r <> c) ->
  occurs c (collapse_whitespace run s) = false.
Proof.
  intros run Hsp. revert run.
  assert (Hflush : forall run : option (ascii * bool),
            (forall r b, run = Some (r, b) -> r <> c) ->
            occurs c match run with
                     | None => ""
                     | Some (r, false) => String r ""
                     | Some (_, true) => " "
                     end = false).
  { intros [[r []]|] Hrun; [|by eapply occurs_one, Hrun|done].
    apply occurs_one. congruence. }
  induction s as [|a s IH]; intros run Hs Hrun; cbn [collapse_whitespace].
  - by apply Hflush.
  - cbn [occurs] in Hs. apply orb_false_elim in Hs as [Ha Hs].
    destruct (is_whitespace a).
    + apply IH; [done|].
      intros r b. destruct run as [[r0 b0]|]; intros [= <- <-].
      * by eapply Hrun.
      * by apply Ascii.eqb_neq.
    + rewrite occurs_app, (Hflush run Hrun). cbn [occurs orb].
      rewrite Ha. by apply IH.
Qed.

Lemma adjacent_after_plain (a : ascii) (s : string) :
  is_whitespace a = false ->
  adjacent_whitespace (String a s) = adjacent_whitespace s.
Proof. intros H. simpl. destruct s; [done|]. by rewrite H. Qed.

Lemma adjacent_before_plain (c a : ascii) (s : string) :
  is_whitespace a = false ->
  adjacent_whitespace (String c (String a s)) = adjacent_whitespace s.
Proof.
  intros H. rewrite <- (adjacent_after_plain a s H).
  cbn [adjacent_whitespace]. by rewrite H, andb_false_r.
Qed.

Lemma collapse_no_adjacent (s : string) : forall run,
  adjacent_whitespace (collapse_whitespace run s) = false.
Proof.
  induction s as [|a s IH]; intros run; simpl.
  - by destruct run as [[r []]|].
  - destruct (is_whitespace a) eqn:Ha; [apply IH|].
    destruct run as [[r []]|]; rewrite ?append_cons, ?append_nil_l.
    + change (" " +:+ String a (collapse_whitespace None s))
        with (String " " (String a (collapse_whitespace None s))).
      rewrite adjacent_before_plain by done. apply IH.
    + rewrite adjacent_before_plain by done. apply IH.
    + rewrite adjacent_after_plain by done. apply IH.
Qed.

Lemma collapse_fixes_clean (s : string) :
  (adjacent_whitespace s = false -> collapse_whitespace None s = s) /\
  (forall c, is_whitespace c = true ->
     adjacent_whitespace (String c s) = false ->
     collapse_whitespace (Some (c, false)) s = String c s).
Proof.
  induction s as [|a s [IH1 IH2]]; [done|]. split.
  - intros H. simpl. destruct (is_whitespace a) eqn:Ha.
    + by apply IH2.
    + rewrite append_nil_l. f_equal. apply IH1.
      by rewrite adjacent_after_plain in H.
  - intros c Hc H. simpl.
    assert (Ha : is_whitespace a = false).
    { cbn [adjacent_whitespace] in H. rewrite Hc in H.
      destruct (is_whitespace a); [done|done]. }
    rewrite Ha. rewrite append_cons, append_nil_l. do 2 f_equal.
    apply IH1. by rewrite adjacent_before_plain in H.
Qed.

(** X13.  What [getAttributes] does to a style before it splits it: the
    cleaned style contains no line feed and no two whitespace characters
    next to each other; and cleaning is idempotent, a style that is
    already clean is left as it is. *)
Theorem cleanStyle_normalizes (style : string) :
  occurs "010" (cleanStyle style) = false /\
  adjacent_whitespace (cleanStyle style) = false /\
  cleanStyle (cleanStyle style) = cleanStyle style.
Proof.
  assert (H1 : occurs "010" (cleanStyle style) = false).
  { unfold cleanStyle. apply collapse_keeps_out; [done| |done].
    apply replace_char_removes. }
  assert (H2 : adjacent_whitespace (cleanStyle style) = false)
    by apply collapse_no_adjacent.
  split; [done|]. split; [done|].
  unfold cleanStyle at 1.
  rewrite (replace_char_absent _ _ _ H1).
  by apply collapse_fixes_clean.
Qed.

(** X14.  Splitting a style loses nothing: the pieces, joined again with
    semicolons, are the style. *)
Theorem split_style_join (s : string) :
  String.concat ";" (split_style s) = s.
Proof.
  induction s as [|c s IH]; [done|]. simpl.
  pose proof (split_style_nonempty s) as Hne.
  destruct (Ascii.eqb c ";" && negb (closes_before_open s)) eqn:Hcut.
  - apply andb_prop in Hcut as [Hc _]. apply Ascii.eqb_eq in Hc as ->.
    destruct (split_style s) as [|p ps]; [done|].
    change (String.concat ";" ("" :: p :: ps))
      with ("" +:+ ";" +:+ String.concat ";" (p :: ps)).
    by rewrite IH.
  - destruct (split_style s) as [|p ps]; [done|].
    destruct ps as [|q qs].
    + simpl in *. by rewrite IH.
    + change (String.concat ";" (String c p :: q :: qs))
        with (String c p +:+ ";" +:+ String.concat ";" (q :: qs)).
      change (String.concat ";" (p :: q :: qs))
        with (p +:+ ";" +:+ String.concat ";" (q :: qs)) in IH.
      by rewrite append_cons, IH.
Qed.

End CleanStyle.

Section StyleRoundTrip.
Import Utils UtilsSpec.

Context (camelCase : string -> string).

Lemma free_of_occurs (cs : list ascii) (s : string) (c : ascii) :
  free_of cs s = true -> c ∈ cs -> occurs c s = false.
Proof.
  unfold free_of. rewrite forallb_forall. intros H Hc.
  apply negb_true_iff, H. by apply list_elem_of_In.
Qed.

Lemma closes_needs_paren (s : string) :
  occurs ")" s = false -> closes_before_open s = false.
Proof.
  induction s as [|c s IH]; [done|]. cbn [occurs closes_before_open].
  intros H. apply orb_false_elim in H as [Hc Hs]. rewrite Hc.
  destruct (Ascii.eqb c "("); [done|]. by apply IH.
Qed.

Lemma split_plain_prefix (p s hd : string) (tl : list string) :
  occurs ";" p = false ->
  split_style s = hd :: tl ->
  split_style (p +:+ s) = (p +:+ hd) :: tl.
Proof.
  intros Hp Hs. induction p as [|c p IH]; [by rewrite !append_nil_l|].
  cbn [occurs] in Hp. apply orb_false_elim in Hp as [Hc Hp].
  rewrite !append_cons. cbn [split_style]. rewrite Hc. cbn [andb].
  by rewrite (IH Hp).
Qed.

Lemma split_at_semicolon (s : string) :
  occurs ")" s = false ->
  split_style (String ";" s) = "" :: split_style s.
Proof.
  intros H. cbn [split_style].
  by rewrite (closes_needs_paren s H).
Qed.

Lemma is_line_terminator_eqb (c : ascii) :
  is_line_terminator c = Ascii.eqb c "010" || Ascii.eqb c "013".
Proof. destruct c as [[] [] [] [] [] [] [] []]; vm_compute; reflexivity. Qed.

Lemma line_prefix_whole (s : string) :
  occurs "010" s = false -> occurs "013" s = false -> line_prefix s = s.
Proof.
  induction s as [|c s IH]; [done|]. cbn [occurs line_prefix].
  intros H1 H2. apply orb_false_elim in H1 as [Hc1 H1].
  apply orb_false_elim in H2 as [Hc2 H2].
  rewrite is_line_terminator_eqb, Hc1, Hc2. cbn [orb]. by rewrite IH.
Qed.

Lemma split_first_colon_at (pre rest : string) :
  occurs ":" pre = false ->
  line_prefix rest <> "" ->
  split_first_colon (pre +:+ String ":" rest) = (pre, Some (line_prefix rest)).
Proof.
  intros Hpre Hrest. induction pre as [|c pre IH].
  - rewrite append_nil_l. cbn [split_first_colon].
    destruct (line_prefix rest); [done|]. reflexivity.
  - cbn [occurs] in Hpre. apply orb_false_elim in Hpre as [Hc Hpre].
    rewrite append_cons. cbn [split_first_colon]. rewrite Hc. cbn [andb].
    by rewrite (IH Hpre).
Qed.

Lemma occurs_declaration (c : ascii) (kv : string * string) :
  plain_declaration kv -> c ∈ structural ->
  occurs c (declaration_text kv) = false.
Proof.
  intros (_ & _ & _ & _ & _ & _ & Hk & Hv) Hc.
  unfold declaration_text. rewrite !occurs_app.
  rewrite (free_of_occurs _ _ _ Hk Hc), (free_of_occurs _ _ _ Hv Hc).
  unfold structural in Hc.
  repeat (apply elem_of_cons in Hc as [->|Hc]; [reflexivity|]).
  by apply elem_of_nil in Hc.
Qed.

Lemma style_text_cons (d d' : string * string) (ds : list (string * string)) :
  style_text (d :: d' :: ds)
  = declaration_text d +:+ String ";" (String " " (style_text (d' :: ds))).
Proof. reflexivity. Qed.

Lemma occurs_style_text (c : ascii) (ds : list (string * string)) :
  Forall plain_declaration ds -> c ∈ structural -> c <> ";"%char ->
  occurs c (style_text ds) = false.
Proof.
  intros Hall Hc Hsemi. induction Hall as [|d ds Hd Hds IH]; [done|].
  destruct ds as [|d' ds].
  - by apply occurs_declaration.
  - rewrite style_text_cons, occurs_app. cbn [occurs].
    rewrite (occurs_declaration c d Hd Hc), IH.
    assert (H1 : Ascii.eqb ";" c = false) by (apply Ascii.eqb_neq; congruence).
    rewrite H1. cbn [orb]. rewrite orb_false_r.
    unfold structural in Hc.
    repeat (apply elem_of_cons in Hc as [->|Hc]; [reflexivity|]).
    by apply elem_of_nil in Hc.
Qed.

(** The pieces of a style written from plain declarations. *)
Lemma split_style_text (ds : list (string * string)) : forall d,
  Forall plain_declaration (d :: ds) ->
  split_style (style_text (d :: ds))
  = declaration_text d :: map (fun kv => " " +:+ declaration_text kv) ds.
Proof.
  induction ds as [|d' ds IH]; intros d Hall.
  - apply Forall_cons in Hall as [Hd _].
    rewrite <- (append_nil_r (style_text [d])).
    rewrite (split_plain_prefix _ "" "" []); [by rewrite append_nil_r| |done].
    apply occurs_declaration; [done|]. unfold structural. set_solver.
  - apply Forall_cons in Hall as [Hd Hall].
    rewrite style_text_cons.
    assert (Hparen : occurs ")" (String " " (style_text (d' :: ds))) = false).
    { cbn [occurs]. apply occurs_style_text; [done| |done].
      unfold structural. set_solver. }
    rewrite (split_plain_prefix _ _ "" (split_style (String " " (style_text (d' :: ds))))).
    + rewrite append_nil_r. f_equal.
      change (String " " (style_text (d' :: ds)))
        with (" " +:+ style_text (d' :: ds)).
      by rewrite (split_plain_prefix " " _ _ _ eq_refl (IH d' Hall)).
    + apply occurs_declaration; [done|]. unfold structural. set_solver.
    + by apply split_at_semicolon.
Qed.

Lemma trim_leading_space (s : string) : trim (" " +:+ s) = trim s.
Proof. reflexivity. Qed.

(** A piece written from a plain declaration, with or without the space
    that follows the semicolon, gives the declaration back. *)
Lemma style_entry_declaration (kv : string * string) (lead : bool) :
  plain_declaration kv ->
  style_entry camelCase
    ((if lead then " " else "") +:+ declaration_text kv)
  = Some (camelCase kv.1, kv.2).
Proof.
  intros (Hk & Hv & Htk & Htv & Hsan & Hcolon & Hfk & Hfv).
  destruct kv as [k v]. cbn [fst snd] in *.
  assert (Hrest : line_prefix (" " +:+ v) = " " +:+ v).
  { apply line_prefix_whole; rewrite occurs_app; cbn [occurs orb];
      (rewrite (free_of_occurs _ _ _ Hfv); [done|unfold structural; set_solver]). }
  assert (Hsplit : split_first_colon
                     ((if lead then " " else "") +:+ declaration_text (k, v))
                   = ((if lead then " " else "") +:+ k, Some (" " +:+ v))).
  { unfold declaration_text. cbn [fst snd].
    rewrite <- append_assoc.
    change (": " +:+ v) with (String ":" (" " +:+ v)).
    rewrite split_first_colon_at; [by rewrite Hrest| |by rewrite Hrest].
    rewrite occurs_app, Hcolon. by destruct lead. }
  unfold style_entry. rewrite Hsplit.
  change (" " +:+ v) with (String " " v).
  assert (Hkey : exists c k', (if lead then " " else "") +:+ k = String c k'
                              /\ trim (String c k') = k).
  { destruct lead.
    - exists " "%char, k. split; [done|]. by rewrite <- Htk at 2.
    - rewrite append_nil_l. destruct k as [|c k']; [done|]. by exists c, k'. }
  destruct Hkey as (c & k' & -> & Htrim). rewrite Htrim.
  change (String " " v) with (" " +:+ v).
  change (match " " +:+ v with "" => None | String a v0 => _ end)
    with (Some (camelCase k, sanitizeJSON (trim (" " +:+ v)))).
  by rewrite trim_leading_space, Htv, Hsan.
Qed.

(** X15.  The style grammar reads back what was written.  For any list of
    plain declarations, written as [k: v] joined by [; ] (and left alone
    by the whitespace cleaning), the key/value pairs [getAttributes]
    extracts are exactly the declarations, in order, with each key passed
    through [camelCase] and each value untouched. *)
Theorem style_entries_round_trip (declarations : list (string * string)) :
  Forall plain_declaration declarations ->
  cleanStyle (style_text declarations) = style_text declarations ->
  style_entries camelCase (cleanStyle (style_text declarations))
  = map (fun kv => (camelCase kv.1, kv.2)) declarations.
Proof.
  intros Hall ->. unfold style_entries.
  destruct declarations as [|d ds]; [done|].
  rewrite (split_style_text ds d Hall).
  apply Forall_cons in Hall as [Hd Hds].
  cbn [omap list_omap map].
  pose proof (style_entry_declaration d false Hd) as H0.
  rewrite append_nil_l in H0. rewrite H0. f_equal.
  induction Hds as [|d' ds Hd' Hds IH]; [done|].
  cbn [omap list_omap map].
  rewrite (style_entry_declaration d' true Hd'). by f_equal.
Qed.

End StyleRoundTrip.

Lemma style_entries_round_trip_witness :
  let declarations :=
    [ ("color", "red"); ("border-top", "1px solid #333");
      ("font-size", "60px") ] in
  Forall UtilsSpec.plain_declaration declarations /\
  Utils.cleanStyle (UtilsSpec.style_text declarations)
    = UtilsSpec.style_text declarations /\
  UtilsSpec.style_text declarations
    = "color: red; border-top: 1px solid #333; font-size: 60px" /\
  Utils.style_entries (Samples.hyphen_to_camel false)
    (Utils.cleanStyle (UtilsSpec.style_text declarations))
  = [ ("color", "red"); ("borderTop", "1px solid #333");
      ("fontSize", "60px") ].
Proof.
  intros declarations.
  assert (H1 : Forall UtilsSpec.plain_declaration declarations).
  { repeat constructor; simpl; done. }
  split; [exact H1|]. split; [reflexivity|]. split; [reflexivity|].
  exact (style_entries_round_trip (Samples.hyphen_to_camel false)
           declarations H1 eq_refl).
Defined.

(* ================================================================== *)
(** * More on html/parser.ts                                           *)
(* ================================================================== *)

Section Serialization.
Import Utils UtilsSpec Parser MarkupSpec.

Context (camelCase : string -> string).

Local Abbreviation json := (MarkupSpec.json camelCase).
Local Abbreviation handle := (Parser.handle camelCase).
Local Abbreviation open_text := (MarkupSpec.open_text camelCase).

Lemma markup_forall_ind (P : markup -> Prop) :
  (forall text, P (MText text)) ->
  (forall element, P (MVoid element)) ->
  (forall element children, Forall P children -> P (MElement element children)) ->
  forall m, P m.
Proof.
  intros Ht Hv He. fix IH 1. intros [text|element|element children].
  - apply Ht.
  - apply Hv.
  - apply He. induction children as [|c cs IHcs]; constructor; [apply IH|done].
Qed.

Lemma endsWith_char_snoc (a : string) (c c' : ascii) :
  Js.endsWith_char (a +:+ String c "") c' = Ascii.eqb c c'.
Proof.
  induction a as [|x a IH]; [done|].
  rewrite append_cons. cbn [Js.endsWith_char]. rewrite IH.
  destruct a; reflexivity.
Qed.

Lemma drop_last_snoc (a : string) (c : ascii) :
  Js.drop_last (a +:+ String c "") = a.
Proof.
  induction a as [|x a IH]; [done|].
  rewrite append_cons. cbn [Js.drop_last]. rewrite IH.
  destruct a; reflexivity.
Qed.

(** Removing the trailing comma removes exactly one comma. *)
Lemma strip_comma (a : string) : maybeRemoveTrailingComma (a +:+ ",") = a.
Proof.
  unfold maybeRemoveTrailingComma.
  by rewrite endsWith_char_snoc, drop_last_snoc.
Qed.

Lemma strip_other (a : string) (c : ascii) :
  Ascii.eqb c "," = false ->
  maybeRemoveTrailingComma (a +:+ String c "") = a +:+ String c "".
Proof.
  intros H. unfold maybeRemoveTrailingComma.
  by rewrite endsWith_char_snoc, H.
Qed.

Lemma open_text_bracket (element : Element) :
  exists pre, open_text element = pre +:+ "[".
Proof.
  unfold MarkupSpec.open_text. eexists.
  repeat rewrite <- append_assoc.
  change (": [") with (": " +:+ "[").
  rewrite <- append_assoc. reflexivity.
Qed.

Lemma emitted_joined (texts : list string) :
  texts <> [] -> emitted texts = String.concat "," texts +:+ ",".
Proof.
  induction texts as [|j js IH]; [done|]. intros _.
  destruct js as [|j' js].
  - cbn. by rewrite append_nil_r.
  - change (emitted (j :: j' :: js)) with (j +:+ "," +:+ emitted (j' :: js)).
    rewrite IH by done.
    change (String.concat "," (j :: j' :: js))
      with (j +:+ "," +:+ String.concat "," (j' :: js)).
    by rewrite !append_assoc.
Qed.

Lemma emitted_app (a b : list string) :
  emitted (a ++ b) = emitted a +:+ emitted b.
Proof.
  induction a as [|j a IH]; [done|].
  change (emitted ((j :: a) ++ b)) with (j +:+ "," +:+ emitted (a ++ b)).
  rewrite IH.
  change (emitted (j :: a)) with (j +:+ "," +:+ emitted a).
  by rewrite !append_assoc.
Qed.

(** Closing an element: whatever the children have appended, the comma
    after the last of them goes and none is taken from anywhere else. *)
Lemma close_after_children (acc : string) (element : Element)
    (texts : list string) :
  close_element ((acc +:+ open_text element) +:+ emitted texts)
  = acc +:+ (open_text element +:+ String.concat "," texts +:+ "]}}") +:+ ",".
Proof.
  unfold close_element.
  destruct (decide (texts = [])) as [->|Hne].
  - cbn [emitted fold_right String.concat]. rewrite append_nil_r.
    destruct (open_text_bracket element) as [pre Hpre].
    rewrite Hpre, <- (append_assoc acc pre "[").
    rewrite strip_other by done.
    rewrite !append_assoc. reflexivity.
  - rewrite (emitted_joined texts Hne).
    rewrite <- (append_assoc _ (String.concat "," texts) ",").
    rewrite strip_comma. rewrite !append_assoc. reflexivity.
Qed.

Lemma sanitizeJSON_nonempty (c : ascii) (s : string) :
  is_empty (sanitizeJSON (String c s)) = false.
Proof.
  rewrite sanitizeJSON_escape. cbn [escape]. unfold escape_char, backslash.
  repeat match goal with
         | |- context [Ascii.eqb c ?x] => destruct (Ascii.eqb c x)
         end; reflexivity.
Qed.

(** What the handlers append for one tree. *)
Lemma handle_tree (m : markup) : forall acc,
  fold_left handle (events m) acc = acc +:+ emitted (option_texts (json m)).
Proof.
  induction m as [text|element|element children IH] using markup_forall_ind;
    intros acc.
  - cbn [events fold_left Parser.handle MarkupSpec.json].
    destruct text as [|c text]; cbn [is_empty].
    + by rewrite append_nil_r.
    + rewrite sanitizeJSON_nonempty. cbn [option_texts emitted fold_right].
      by rewrite !append_assoc, append_nil_r.
  - cbn [events fold_left Parser.handle MarkupSpec.json option_texts].
    change (close_element ?x) with (close_element x).
    pose proof (close_after_children acc element []) as H.
    cbn [emitted fold_right String.concat] in H.
    rewrite append_nil_r in H.
    cbn [emitted fold_right]. rewrite append_nil_r.
    etransitivity; [|etransitivity; [exact H|]].
    + reflexivity.
    + by rewrite append_nil_l.
  - cbn [events MarkupSpec.json option_texts].
    cbn [fold_left]. rewrite fold_left_app.
    assert (Hkids : forall acc',
              fold_left handle (concat (map events children)) acc'
              = acc' +:+ emitted (omap json children)).
    { clear acc. induction IH as [|c cs Hc Hcs IHcs]; intros acc'.
      - cbn. by rewrite append_nil_r.
      - cbn [map concat]. rewrite fold_left_app, Hc, IHcs.
        cbn [omap list_omap].
        destruct (json c) as [j|]; cbn [option_texts].
        + change (j :: omap json cs) with ([j] ++ omap json cs).
          by rewrite emitted_app, append_assoc.
        + cbn [emitted fold_right]. by rewrite append_nil_r. }
    change (Parser.handle camelCase acc (ElementEvent element false))
      with (acc +:+ open_text element).
    rewrite Hkids. cbn [fold_left Parser.handle].
    rewrite close_after_children.
    cbn [emitted fold_right]. by rewrite append_nil_r.
Qed.

(** X16.  Streaming gives the nested JSON.  For any sequence of trees,
    the text [parseHtml] builds from their events (an element, its
    children in document order, its end tag) is the JSON of the trees
    joined by single commas: every element is an object whose [children]
    array holds exactly its non-empty children separated by commas, with
    no comma left over before a closing bracket or at the end. *)
Theorem vdom_text_is_json (trees : list markup) :
  vdom_text camelCase (concat (map events trees))
  = String.concat "," (omap json trees).
Proof.
  unfold vdom_text.
  assert (Hforest : forall acc,
            fold_left handle (concat (map events trees)) acc
            = acc +:+ emitted (omap json trees)).
  { induction trees as [|m ms IH]; intros acc.
    - cbn. by rewrite append_nil_r.
    - cbn [map concat]. rewrite fold_left_app, handle_tree, IH.
      cbn [omap list_omap].
      destruct (json m) as [j|]; cbn [option_texts].
      + change (j :: omap json ms) with ([j] ++ omap json ms).
        by rewrite emitted_app, append_assoc.
      + cbn [emitted fold_right]. by rewrite append_nil_r. }
  rewrite Hforest, append_nil_l.
  destruct (decide (omap json trees = [])) as [->|Hne]; [done|].
  rewrite (emitted_joined _ Hne). apply strip_comma.
Qed.

End Serialization.

(** The example document of the specification is the event sequence of
    a tree, so its text is the JSON of that tree. *)
Example example_events_are_a_tree :
  Samples.example_events
  = MarkupSpec.events
      (MarkupSpec.MElement
         {| Utils.tagName := "div";
            Utils.attributes :=
              [("style", "display: flex; flex-direction: column;")] |}
         [ MarkupSpec.MElement
             {| Utils.tagName := "div";
                Utils.attributes :=
                  [("style",
                    "color: red; background: linear-gradient(90deg, red, blue)")] |}
             [ MarkupSpec.MElement
                 {| Utils.tagName := "span"; Utils.attributes := [] |}
                 [ MarkupSpec.MText "Hi" ] ] ]).
Proof. reflexivity. Qed.

(* ================================================================== *)
(** * assets/emoji.ts: code points and the asset cache                 *)
(* ================================================================== *)

Section EmojiFacts.
Import Js Types Emoji.

Lemma surrogate_pair (cp : Z) :
  (65536 <= cp <= 1114111)%Z ->
  let h := (55296 + Z.shiftr (cp - 65536) 10)%Z in
  let l := (56320 + Z.land (cp - 65536) 1023)%Z in
  (55296 <= h <= 56319)%Z /\ (56320 <= l <= 57343)%Z /\
  (65536 + Z.shiftl (h - 55296) 10 + (l - 56320))%Z = cp.
Proof.
  intros Hcp h l. subst h l.
  change 1023%Z with (Z.ones 10).
  rewrite Z.land_ones by lia.
  rewrite Z.shiftr_div_pow2 by lia.
  rewrite Z.shiftl_mul_pow2 by lia.
  change (2 ^ 10)%Z with 1024%Z.
  pose proof (Z.div_mod (cp - 65536) 1024 ltac:(lia)) as Hdm.
  pose proof (Z.mod_pos_bound (cp - 65536) 1024 ltac:(lia)) as Hm.
  assert (0 <= (cp - 65536) / 1024 <= 1023)%Z.
  { split; [apply Z.div_pos; lia|].
    apply Z.lt_succ_r. apply Z.div_lt_upper_bound; lia. }
  lia.
Qed.

Lemma loop_code_point (cp : Z) (rest : units) (r : list string) :
  scalar cp ->
  toCodePoint_loop (utf16 cp ++ rest) 0 r
  = toCodePoint_loop rest 0 (r ++ [toString16 cp]).
Proof.
  intros Hs. unfold utf16.
  destruct (cp <? 65536)%Z eqn:Hlt.
  - apply Z.ltb_lt in Hlt. cbn [app toCodePoint_loop Z.eqb negb].
    replace ((55296 <=? cp)%Z && (cp <=? 56319)%Z) with false; [done|].
    symmetry. apply andb_false_iff. unfold scalar in Hs.
    destruct (Z.leb_spec 55296 cp); [right; apply Z.leb_gt; lia | by left].
  - apply Z.ltb_ge in Hlt.
    assert (Hcp : (65536 <= cp <= 1114111)%Z) by (unfold scalar in Hs; lia).
    destruct (surrogate_pair cp Hcp) as (Hh & Hl & Hsum).
    set (h := (55296 + Z.shiftr (cp - 65536) 10)%Z) in *.
    set (l := (56320 + Z.land (cp - 65536) 1023)%Z) in *.
    cbn [app toCodePoint_loop Z.eqb negb].
    replace ((55296 <=? h)%Z && (h <=? 56319)%Z) with true
      by (symmetry; apply andb_true_iff; split; apply Z.leb_le; lia).
    replace (h =? 0)%Z with false by (symmetry; apply Z.eqb_neq; lia).
    cbn [negb]. by rewrite Hsum.
Qed.

Lemma loop_code_points (cps : list Z) (r : list string) :
  Forall scalar cps ->
  toCodePoint_loop (of_code_points cps) 0 r = r ++ map toString16 cps.
Proof.
  intros H. revert r. induction H as [|cp cps Hcp _ IH]; intros r.
  - by rewrite app_nil_r.
  - unfold of_code_points in *. cbn [map concat].
    rewrite loop_code_point by done. rewrite IH.
    by rewrite <- app_assoc.
Qed.

Lemma toCodePoint_of_code_points (cps : list Z) :
  Forall scalar cps ->
  toCodePoint (of_code_points cps)
  = String.concat "-" (map toString16 cps).
Proof.
  intros H. unfold toCodePoint. by rewrite loop_code_points.
Qed.

(** A unit below the surrogate range, or above it, occurs in the string
    exactly where it occurs as a code point. *)
Lemma unit_of_utf16 (u cp : Z) :
  scalar cp -> (u < 55296 \/ 57344 <= u)%Z -> (u < 65536)%Z ->
  forall x, x ∈ utf16 cp ->
  x = u <-> (cp = u /\ utf16 cp = [x]).
Proof.
  intros Hs Hu Hb x Hx. unfold utf16 in *.
  destruct (cp <? 65536)%Z eqn:Hlt.
  - apply list_elem_of_singleton in Hx. subst x. split; [by intros ->|by intros [-> _]].
  - apply Z.ltb_ge in Hlt.
    assert (Hcp : (65536 <= cp <= 1114111)%Z) by (unfold scalar in Hs; lia).
    destruct (surrogate_pair cp Hcp) as (Hh & Hl & _).
    split; [|lia].
    intros ->. exfalso.
    apply elem_of_cons in Hx as [->|Hx]; [lia|].
    apply list_elem_of_singleton in Hx. lia.
Qed.

Lemma filter_all {A} (P : A -> Prop) `{!forall x, Decision (P x)}
    (l : list A) :
  Forall P l -> filter P l = l.
Proof.
  induction 1 as [|x l Hx _ IH]; [done|].
  by rewrite filter_cons, decide_True, IH.
Qed.

Lemma filter_utf16 (u cp : Z) :
  scalar cp -> (u < 55296 \/ 57344 <= u)%Z -> (u < 65536)%Z ->
  filter (fun c => c <> u) (utf16 cp)
  = if decide (cp = u) then [] else utf16 cp.
Proof.
  intros Hs Hu Hb.
  destruct (decide (cp = u)) as [->|Hne].
  - unfold utf16. replace (u <? 65536)%Z with true
      by (symmetry; apply Z.ltb_lt; lia).
    cbv beta iota.
    rewrite filter_cons, decide_False; [done|]. intros H. by apply H.
  - apply filter_all. apply Forall_forall. intros x Hx Hxu.
    apply (unit_of_utf16 u cp Hs Hu Hb x Hx) in Hxu as [? _]. done.
Qed.

Lemma filter_of_code_points (u : Z) (cps : list Z) :
  Forall scalar cps -> (u < 55296 \/ 57344 <= u)%Z -> (u < 65536)%Z ->
  filter (fun c => c <> u) (of_code_points cps)
  = of_code_points (filter (fun c => c <> u) cps).
Proof.
  intros H Hu Hb. induction H as [|cp cps Hcp _ IH]; [done|].
  unfold of_code_points in *. cbn [map concat].
  rewrite filter_app, IH, filter_utf16 by done.
  rewrite filter_cons. destruct (decide (cp = u)) as [->|Hne].
  - by rewrite decide_False by (intros H; by apply H).
  - by rewrite decide_True by done.
Qed.

Lemma existsb_of_code_points (u : Z) (cps : list Z) :
  Forall scalar cps -> (u < 55296 \/ 57344 <= u)%Z -> (u < 65536)%Z ->
  existsb (Z.eqb u) (of_code_points cps) = bool_decide (u ∈ cps).
Proof.
  intros H Hu Hb.
  apply eq_true_iff_eq. rewrite existsb_exists, bool_decide_eq_true.
  unfold of_code_points. split.
  - intros (x & Hin & Hx). apply Z.eqb_eq in Hx. subst x.
    apply in_concat in Hin as (l & Hl & Hin).
    apply in_map_iff in Hl as (cp & <- & Hcp).
    apply list_elem_of_In in Hcp, Hin.
    rewrite Forall_forall in H.
    destruct (unit_of_utf16 u cp (H cp Hcp) Hu Hb u Hin) as [Heq _].
    destruct Heq as [-> _]; done.
  - intros Hin. exists u. split; [|by apply Z.eqb_eq].
    apply in_concat. exists (utf16 u). split.
    + apply in_map. by apply list_elem_of_In.
    + unfold utf16. replace (u <? 65536)%Z with true
        by (symmetry; apply Z.ltb_lt; lia). by left.
Qed.

Lemma Forall_scalar_filter (P : Z -> Prop) `{!forall x, Decision (P x)}
    (cps : list Z) :
  Forall scalar cps -> Forall scalar (filter P cps).
Proof.
  induction 1 as [|x l Hx _ IH]; [done|].
  rewrite filter_cons. destruct (decide (P x)); [by constructor|done].
Qed.

(** X17 ([toCodePoint]).  For a string of Unicode scalar values,
    [toCodePoint] gives the hexadecimal code of each code point, joined
    by hyphens: every surrogate pair is combined back into the code point
    it encodes. *)
Theorem toCodePoint_decodes_utf16 (cps : list Z) :
  Forall scalar cps ->
  toCodePoint (of_code_points cps)
  = String.concat "-" (map toString16 cps).
Proof.
  intros H. unfold toCodePoint.
  rewrite loop_code_points by exact H.
  by rewrite app_nil_l.
Qed.

Lemma toCodePoint_decodes_utf16_witness :
  Forall scalar [128512; 8205; 9794]%Z /\
  toCodePoint (of_code_points [128512; 8205; 9794]%Z) = "1f600-200d-2642".
Proof.
  assert (H : Forall scalar [128512; 8205; 9794]%Z).
  { repeat constructor; unfold scalar; lia. }
  split; [exact H|].
  rewrite (toCodePoint_decodes_utf16 _ H). reflexivity.
Defined.

(** X18 ([getIconCode]).  The variation selector U+FE0F is left out of
    the icon code exactly when the emoji holds no zero-width joiner
    U+200D; with a joiner every code point is kept. *)
Theorem getIconCode_variation_selector (cps : list Z) :
  Forall scalar cps ->
  getIconCode (of_code_points cps)
  = String.concat "-"
      (map toString16
         (if bool_decide (U200D ∈ cps) then cps
          else filter (fun c => c <> UFE0F) cps)).
Proof.
  intros H. unfold getIconCode.
  rewrite existsb_of_code_points by (done || unfold U200D; lia).
  destruct (bool_decide (U200D ∈ cps)); cbn [negb].
  - by apply toCodePoint_of_code_points.
  - rewrite filter_of_code_points by (done || unfold UFE0F; lia).
    apply toCodePoint_of_code_points. by apply Forall_scalar_filter.
Qed.

Lemma getIconCode_variation_selector_witness :
  Forall scalar [10084; 65039]%Z /\
  getIconCode (of_code_points [10084; 65039]%Z) = "2764".
Proof.
  assert (H : Forall scalar [10084; 65039]%Z).
  { repeat constructor; unfold scalar; lia. }
  split; [exact H|].
  rewrite (getIconCode_variation_selector _ H). reflexivity.
Defined.

Section Cache.
Context (toLowerCase toUpperCase : string -> string)
        (btoa : string -> settled string)
        (stringify_pair : string -> units -> string)
        (fetch_text : string -> settled string).

Notation load := (loadDynamicAsset toLowerCase toUpperCase btoa
                    stringify_pair fetch_text).

Lemma fn_asset (e : EmojiType) (code : string) (seg : units)
    (st st' : loader_state) (a : asset) :
  fn toLowerCase toUpperCase btoa fetch_text e code seg st
  = (Fulfilled (Some a), st') ->
  asset_truthy a = true /\ assetCache st' = assetCache st.
Proof.
  unfold fn. destruct (String.eqb code "emoji"); [|done].
  destruct (fetch_text _) as [svg|]; [|done]. cbn [await].
  destruct (btoa svg) as [enc|]; [|done]. cbn [await].
  intros [= <- <-]. done.
Qed.

Lemma fn_cache (e : EmojiType) (code : string) (seg : units)
    (st : loader_state) :
  assetCache (fn toLowerCase toUpperCase btoa fetch_text e code seg st).2
  = assetCache st.
Proof. unfold fn. by destruct (String.eqb code "emoji"). Qed.

Lemma fn_no_asset (e e' : EmojiType) (code : string) (seg : units)
    (st st' st2 : loader_state) :
  fn toLowerCase toUpperCase btoa fetch_text e code seg st
  = (Fulfilled None, st') ->
  st' = st /\
  fn toLowerCase toUpperCase btoa fetch_text e' code seg st2
  = (Fulfilled None, st2).
Proof.
  unfold fn. destruct (String.eqb code "emoji").
  - destruct (fetch_text _) as [svg|]; [|done]. cbn [await].
    destruct (btoa svg) as [enc|]; done.
  - by intros [= <-].
Qed.

Lemma miss_memoized (e e' : EmojiType) (code : string) (seg : units)
    (st st' : loader_state) (a : asset) :
  match fn toLowerCase toUpperCase btoa fetch_text e code seg st with
  | (Rejected err, st') => (Rejected err, st')
  | (Fulfilled (Some a), st') =>
      if asset_truthy a then
        (Fulfilled a,
         {| assetCache := <[stringify_pair code seg := a]> (assetCache st');
            fetched := fetched st' |})
      else (Fulfilled (AssetFonts []), st')
  | (Fulfilled None, st') => (Fulfilled (AssetFonts []), st')
  end = (Fulfilled a, st') ->
  (match assetCache st !! stringify_pair code seg with
   | Some c => asset_truthy c = false
   | None => True
   end) ->
  load e' code seg st' = (Fulfilled a, st').
Proof.
  intros Hmiss Hkey.
  destruct (fn _ _ _ _ e code seg st) as [[[b|]|err] st1] eqn:Hfn; [| |done].
  - destruct (fn_asset _ _ _ _ _ _ Hfn) as [Ht Hc].
    rewrite Ht in Hmiss. injection Hmiss as <- <-.
    unfold loadDynamicAsset. cbn [assetCache].
    by rewrite lookup_insert_eq, Ht.
  - injection Hmiss as <- <-.
    destruct (fn_no_asset e e' _ _ _ _ st Hfn) as [-> Hfn'].
    unfold loadDynamicAsset. rewrite Hfn'.
    destruct (assetCache st !! stringify_pair code seg) as [c|]; [|done].
    by rewrite Hkey.
Qed.

(** X19 ([loadDynamicAsset]).  A load that fulfilled is memoized under
    the language code and the segment alone: asking again, even through
    a loader made for another emoji provider, gives the same asset
    without fetching anything and leaves the cache as it is. *)
Theorem loadDynamicAsset_memoized (e e' : EmojiType) (code : string)
    (seg : units) (st st' : loader_state) (a : asset) :
  load e code seg st = (Fulfilled a, st') ->
  load e' code seg st' = (Fulfilled a, st').
Proof.
  intros H. unfold loadDynamicAsset in H.
  destruct (assetCache st !! stringify_pair code seg) as [c|] eqn:Hc.
  - destruct (asset_truthy c) eqn:Ht.
    + injection H as <- <-. unfold loadDynamicAsset. by rewrite Hc, Ht.
    + eapply miss_memoized; [exact H|]. by rewrite Hc.
  - eapply miss_memoized; [exact H|]. by rewrite Hc.
Qed.

(** X20 ([loadDynamicAsset]).  A load that rejects stores nothing: the
    cache is unchanged, so the next request for the segment fetches
    again. *)
Theorem loadDynamicAsset_failure_not_cached (e : EmojiType) (code : string)
    (seg : units) (st st' : loader_state) (err : thrown) :
  load e code seg st = (Rejected err, st') ->
  assetCache st' = assetCache st /\
  code = "emoji" /\
  fetched st' = fetched st ++ [emoji_url toLowerCase toUpperCase
                                 (getIconCode seg) e].
Proof.
  intros H. unfold loadDynamicAsset in H.
  assert (Hmiss :
    match fn toLowerCase toUpperCase btoa fetch_text e code seg st with
    | (Rejected err, st') => (Rejected err, st')
    | (Fulfilled (Some a), st') =>
        if asset_truthy a then
          (Fulfilled a,
           {| assetCache := <[stringify_pair code seg := a]> (assetCache st');
              fetched := fetched st' |})
        else (Fulfilled (AssetFonts []), st')
    | (Fulfilled None, st') => (Fulfilled (AssetFonts []), st')
    end = (Rejected err, st')).
  { destruct (assetCache st !! stringify_pair code seg) as [c|]; [|done].
    by destruct (asset_truthy c). }
  clear H. unfold fn in Hmiss.
  destruct (String.eqb code "emoji") eqn:Hcode; [|done].
  apply String.eqb_eq in Hcode.
  destruct (fetch_text _) as [svg|]; cbn [await] in Hmiss.
  - destruct (btoa svg) as [enc|]; cbn [await] in Hmiss.
    + done.
    + by injection Hmiss as <- <-.
  - by injection Hmiss as <- <-.
Qed.

End Cache.

Import AssetSamples.

Lemma loadDynamicAsset_memoized_witness :
  load_up twemoji "emoji" grinning no_assets
  = (Fulfilled (AssetData "data:image/svg+xml;base64,PHN2Zy8+"),
     (load_up twemoji "emoji" grinning no_assets).2) /\
  load_up openmoji "emoji" grinning
    (load_up twemoji "emoji" grinning no_assets).2
  = (Fulfilled (AssetData "data:image/svg+xml;base64,PHN2Zy8+"),
     (load_up twemoji "emoji" grinning no_assets).2).
Proof.
  assert (H : load_up twemoji "emoji" grinning no_assets
    = (Fulfilled (AssetData "data:image/svg+xml;base64,PHN2Zy8+"),
       (load_up twemoji "emoji" grinning no_assets).2)) by reflexivity.
  split; [exact H|].
  exact (loadDynamicAsset_memoized id upper btoa_picture key_of cdn_up
           twemoji openmoji "emoji" grinning no_assets _ _ H).
Defined.

Lemma loadDynamicAsset_failure_not_cached_witness :
  load_down twemoji "emoji" grinning no_assets
  = (Rejected (ThrownOther "fetch failed"),
     (load_down twemoji "emoji" grinning no_assets).2) /\
  assetCache (load_down twemoji "emoji" grinning no_assets).2 = ∅ /\
  fetched (load_down twemoji "emoji" grinning no_assets).2
  = ["https://cdn.jsdelivr.net/gh/twitter/twemoji@14.0.2/assets/svg/1f600.svg"].
Proof.
  assert (H : load_down twemoji "emoji" grinning no_assets
    = (Rejected (ThrownOther "fetch failed"),
       (load_down twemoji "emoji" grinning no_assets).2)) by reflexivity.
  split; [exact H|].
  destruct (loadDynamicAsset_failure_not_cached id upper btoa_picture key_of
              cdn_down twemoji "emoji" grinning no_assets _ _ H)
    as (Hc & _ & Hf).
  split; [exact Hc|exact Hf].
Defined.

End EmojiFacts.

(* ================================================================== *)
(** * assets/font.ts: the style sheet and the cache                    *)
(* ================================================================== *)

Section FontFacts.
Import Js Types FontLoader FontSpec.

Lemma prefix_split (p s : string) :
  String.prefix p s = true -> s = p +:+ skip (String.length p) s.
Proof.
  revert s. induction p as [|c p IH]; intros s H.
  - by destruct s.
  - destruct s as [|d s]; [done|]. cbn [String.prefix] in H.
    destruct (ascii_dec c d) as [->|]; [|done].
    rewrite append_cons. cbn [String.length skip]. f_equal. by apply IH.
Qed.

Lemma prefix_append (p t : string) : String.prefix p (p +:+ t) = true.
Proof.
  induction p as [|c p IH]; [by destruct t|].
  rewrite append_cons. cbn [String.prefix].
  by destruct (ascii_dec c c).
Qed.

Lemma at_format_split (s : string) :
  at_format s = true ->
  exists fmt post,
    s = ") format('" +:+ fmt +:+ "')" +:+ post /\
    (fmt = "opentype" \/ fmt = "truetype").
Proof.
  unfold at_format. intros H. apply orb_true_iff in H as [H|H];
    apply prefix_split in H.
  - exists "opentype", (skip 20 s). split; [exact H|by left].
  - exists "truetype", (skip 20 s). split; [exact H|by right].
Qed.

Lemma at_format_append (fmt post : string) :
  fmt = "opentype" \/ fmt = "truetype" ->
  at_format (") format('" +:+ fmt +:+ "')" +:+ post) = true.
Proof.
  unfold at_format. intros [-> | ->]; apply orb_true_iff; [left|right].
  - apply (prefix_append ") format('opentype')" post).
  - apply (prefix_append ") format('truetype')" post).
Qed.

Lemma capture_rest_sound (s u : string) :
  capture_rest s = Some u ->
  one_line u = true /\
  exists fmt post,
    s = u +:+ ") format('" +:+ fmt +:+ "')" +:+ post /\
    (fmt = "opentype" \/ fmt = "truetype").
Proof.
  revert u. induction s as [|c s IH]; intros u H; [done|].
  cbn [capture_rest] in H.
  assert (Hhere : at_format (String c s) = true -> u = "" ->
    one_line u = true /\
    exists fmt post,
      String c s = u +:+ ") format('" +:+ fmt +:+ "')" +:+ post /\
      (fmt = "opentype" \/ fmt = "truetype")).
  { intros Hf ->. split; [done|]. by apply at_format_split. }
  destruct (Utils.is_line_terminator c) eqn:Hc.
  - destruct (at_format (String c s)) eqn:Hf; [|done].
    injection H as <-. by apply Hhere.
  - destruct (capture_rest s) as [v|] eqn:Hv.
    + injection H as <-.
      destruct (IH v eq_refl) as (Hone & fmt & post & -> & Hfmt).
      split; [cbn [one_line]; by rewrite Hc|].
      exists fmt, post. by rewrite append_cons.
    + destruct (at_format (String c s)) eqn:Hf; [|done].
      injection H as <-. by apply Hhere.
Qed.

Lemma capture_rest_complete (u fmt post : string) :
  one_line u = true -> fmt = "opentype" \/ fmt = "truetype" ->
  is_Some (capture_rest (u +:+ ") format('" +:+ fmt +:+ "')" +:+ post)).
Proof.
  intros Hone Hfmt. induction u as [|c u IH].
  - rewrite append_nil_l.
    pose proof (at_format_append fmt post Hfmt) as Hf.
    destruct (") format('" +:+ fmt +:+ "')" +:+ post) as [|d s] eqn:Hs; [done|].
    cbn [capture_rest]. rewrite Hf.
    destruct (Utils.is_line_terminator d); [done|].
    by destruct (capture_rest s).
  - cbn [one_line] in Hone. apply andb_true_iff in Hone as [Hc Hone].
    apply negb_true_iff in Hc.
    rewrite append_cons. cbn [capture_rest]. rewrite Hc.
    destruct (IH Hone) as [v ->]. done.
Qed.

Lemma capture_sound (s u : string) :
  capture s = Some u ->
  u <> "" /\ one_line u = true /\
  exists fmt post,
    s = u +:+ ") format('" +:+ fmt +:+ "')" +:+ post /\
    (fmt = "opentype" \/ fmt = "truetype").
Proof.
  destruct s as [|c s]; [done|]. cbn [capture].
  destruct (Utils.is_line_terminator c) eqn:Hc; [done|].
  destruct (capture_rest s) as [v|] eqn:Hv; [|done].
  intros [= <-].
  destruct (capture_rest_sound s v Hv) as (Hone & fmt & post & -> & Hfmt).
  split; [done|]. split; [cbn [one_line]; by rewrite Hc|].
  exists fmt, post. by rewrite append_cons.
Qed.

Lemma capture_complete (u fmt post : string) :
  u <> "" -> one_line u = true -> fmt = "opentype" \/ fmt = "truetype" ->
  is_Some (capture (u +:+ ") format('" +:+ fmt +:+ "')" +:+ post)).
Proof.
  intros Hne Hone Hfmt. destruct u as [|c u]; [done|].
  cbn [one_line] in Hone. apply andb_true_iff in Hone as [Hc Hone].
  apply negb_true_iff in Hc.
  rewrite append_cons. cbn [capture]. rewrite Hc.
  destruct (capture_rest_complete u fmt post Hone Hfmt) as [v ->]. done.
Qed.

Lemma match_font_url_sound (css u : string) :
  match_font_url css = Some u -> font_source css u.
Proof.
  induction css as [|c css IH]; [done|].
  cbn [match_font_url]. intros H.
  assert (Hlater : match_font_url css = Some u -> font_source (String c css) u).
  { intros Hm. destruct (IH Hm) as (pre & fmt & post & -> & Hrest).
    exists (String c pre), fmt, post. by rewrite append_cons. }
  destruct (String.prefix "src: url(" (String c css)) eqn:Hp; [|by apply Hlater].
  destruct (capture (skip 9 (String c css))) as [v|] eqn:Hv; [|by apply Hlater].
  injection H as ->.
  apply prefix_split in Hp. change (String.length "src: url(") with 9 in Hp.
  destruct (capture_sound _ _ Hv) as (Hne & Hone & fmt & post & Hs & Hfmt).
  exists "", fmt, post. rewrite append_nil_l. split; [|done].
  rewrite Hp at 1. by rewrite Hs.
Qed.

Lemma match_font_url_complete (css u : string) :
  font_source css u -> is_Some (match_font_url css).
Proof.
  intros (pre & fmt & post & -> & Hfmt & Hne & Hone).
  induction pre as [|c pre IH].
  - rewrite append_nil_l.
    pose proof (prefix_append "src: url("
      (u +:+ ") format('" +:+ fmt +:+ "')" +:+ post)) as Hp.
    pose proof (capture_complete u fmt post Hne Hone Hfmt) as [v Hv].
    assert (Hskip : skip 9 ("src: url(" +:+
              u +:+ ") format('" +:+ fmt +:+ "')" +:+ post)
            = u +:+ ") format('" +:+ fmt +:+ "')" +:+ post) by reflexivity.
    destruct ("src: url(" +:+ u +:+ ") format('" +:+ fmt +:+ "')" +:+ post)
      as [|d s] eqn:Hs; [done|].
    cbn [match_font_url]. rewrite Hp, Hskip, Hv. done.
  - rewrite append_cons. cbn [match_font_url].
    destruct (String.prefix _ _); [|exact IH].
    destruct (capture _); [done|exact IH].
Qed.

(** X21 ([loadGoogleFont], the pattern applied to the style sheet).  A
    font URL is found exactly when the style sheet declares a source
    [src: url(...) format('opentype')] or [format('truetype')] on one
    line, and the URL found is one the style sheet declares in that
    way; a sheet offering only another format, woff2 for one, has
    none. *)
Theorem font_url_found_iff_declared (css : string) :
  (is_Some (match_font_url css) <-> exists u, font_source css u) /\
  (forall u, match_font_url css = Some u -> font_source css u).
Proof.
  split; [split|].
  - intros [u Hu]. exists u. by apply match_font_url_sound.
  - intros [u Hu]. by apply (match_font_url_complete css u).
  - apply match_font_url_sound.
Qed.

Lemma load_from_css_requests (rt : Runtime) (o : GoogleFontOptions)
    (res : Response) (nw : network) :
  let out := load_from_css rt o res nw in
  cache out.2 = cache nw /\
  ((exists u, font_source (body res) u /\
      out.1 = fetch_font rt u /\
      sent_between nw out.2 [FontRequest u])
   \/
   ((forall u, ~ font_source (body res) u) /\
      out.1 = Rejected (ThrownError
        (Errors.FontLoadError ("Could not find font URL for " +:+ family o))) /\
      out.2 = nw)).
Proof.
  unfold load_from_css.
  destruct (match_font_url (body res)) as [u|] eqn:Hm; cbn [fst snd].
  - split; [done|]. left. exists u.
    split; [by apply match_font_url_sound|]. done.
  - split; [done|]. right. split; [|done].
    intros u Hu. apply match_font_url_complete in Hu as [v Hv]. congruence.
Qed.

(** X22 ([loadGoogleFont], cache hit).  When the cache holds the style
    sheet under the request's URL, no style sheet is requested and the
    cache is left as it is: either the sheet declares a font file, and
    the one request sent asks for a file it declares, or it declares
    none, and the call rejects with a FontLoadError naming the family
    without sending anything. *)
Theorem loadGoogleFont_cache_hit (rt : Runtime) (o : GoogleFontOptions)
    (nw : network) (res : Response) :
  cache nw !! css_url rt o = Some res ->
  let out := loadGoogleFont rt o nw in
  cache out.2 = cache nw /\
  ((exists u, font_source (body res) u /\
      out.1 = fetch_font rt u /\
      sent_between nw out.2 [FontRequest u])
   \/
   ((forall u, ~ font_source (body res) u) /\
      out.1 = Rejected (ThrownError
        (Errors.FontLoadError ("Could not find font URL for " +:+ family o))) /\
      out.2 = nw)).
Proof.
  intros Hhit. unfold loadGoogleFont. rewrite Hhit.
  apply load_from_css_requests.
Qed.

(** X23 ([loadGoogleFont], cache miss).  On a miss the style sheet is
    requested once, with the fixed User-Agent; when that request rejects,
    the call rejects with its error and [cache.put] is not called.
    Otherwise [cache.put] is called once, with the URL as key and the
    sheet with [Cache-Control: s-maxage=3600] appended, before the sheet
    is searched: a sheet that declares no font file is handed to the cache
    all the same, and the call then rejects with a FontLoadError after
    that single request.  When the promise of [put] rejects, the call
    rejects with that error and the cache is unchanged; when it is
    fulfilled, the cache holds the sheet under the URL afterwards if the
    platform kept it, and is unchanged if it did not. *)
Theorem loadGoogleFont_cache_miss (rt : Runtime) (o : GoogleFontOptions)
    (nw : network) :
  cache nw !! css_url rt o = None ->
  let url := css_url rt o in
  let out := loadGoogleFont rt o nw in
  match fetch_css rt url with
  | Rejected err =>
      out.1 = Rejected err /\ cache out.2 = cache nw /\
      puts out.2 = puts nw /\
      sent_between nw out.2 [CssRequest url user_agent]
  | Fulfilled res =>
      let stored :=
        {| body := body res;
           headers := headers res ++ [("Cache-Control", "s-maxage=3600")] |} in
      puts out.2 = puts nw ++ [(url, stored)] /\
      match cache_put rt url stored with
      | Rejected err =>
          out.1 = Rejected err /\ cache out.2 = cache nw /\
          sent_between nw out.2 [CssRequest url user_agent]
      | Fulfilled _ =>
          cache out.2
          = (if cache_keeps rt url stored then <[url := stored]> (cache nw)
             else cache nw) /\
          ((exists u, font_source (body res) u /\
              out.1 = fetch_font rt u /\
              sent_between nw out.2 [CssRequest url user_agent; FontRequest u])
           \/
           ((forall u, ~ font_source (body res) u) /\
              out.1 = Rejected (ThrownError
                (Errors.FontLoadError
                   ("Could not find font URL for " +:+ family o))) /\
              sent_between nw out.2 [CssRequest url user_agent]))
      end
  end.
Proof.
  intros Hmiss url out. subst url out. unfold loadGoogleFont. rewrite Hmiss.
  destruct (fetch_css rt (css_url rt o)) as [res|err]; [|done].
  cbv zeta. unfold cached.
  set (stored := {| body := body res;
                    headers := headers res
                               ++ [("Cache-Control", "s-maxage=3600")] |}).
  set (url := css_url rt o).
  set (nw1 := sent nw (CssRequest url user_agent)).
  assert (Hput : cache (put rt url stored nw1)
                 = match cache_put rt url stored with
                   | Fulfilled _ =>
                       if cache_keeps rt url stored
                       then <[url := stored]> (cache nw) else cache nw
                   | Rejected _ => cache nw
                   end) by reflexivity.
  pose proof (load_from_css_requests rt o stored (put rt url stored nw1)) as H.
  cbv zeta in H. destruct H as [Hc H].
  destruct (cache_put rt url stored) as [[]|err] eqn:Hcp.
  - split.
    { destruct (match_font_url (body stored)) as [u|] eqn:Hm;
        unfold load_from_css; rewrite Hm; reflexivity. }
    rewrite Hc, Hput. split; [done|].
    destruct H as [(u & Hsrc & Hres & Hsent)|(Hnone & Hres & Hout)].
    + left. exists u. split; [exact Hsrc|]. split; [exact Hres|].
      unfold sent_between in *. rewrite Hsent. cbn [requests put sent nw1].
      by rewrite <- app_assoc.
    + right. split; [exact Hnone|]. split; [exact Hres|].
      unfold sent_between. by rewrite Hout.
  - cbn [fst snd]. rewrite Hput. done.
Qed.

Import AssetSamples.

Lemma loadGoogleFont_cache_hit_witness :
  cache warm !! css_url woff2_only bitter = Some truetype_sheet /\
  cache (loadGoogleFont woff2_only bitter warm).2 = cache warm.
Proof.
  assert (H : cache warm !! css_url woff2_only bitter = Some truetype_sheet)
    by (vm_compute; reflexivity).
  split; [exact H|].
  exact (proj1 (loadGoogleFont_cache_hit woff2_only bitter warm _ H)).
Defined.

Lemma loadGoogleFont_cache_miss_witness :
  cache cold !! css_url woff2_only bitter = None /\
  puts (loadGoogleFont woff2_only bitter cold).2
  = puts cold
    ++ [(css_url woff2_only bitter,
         {| body := body woff2_sheet;
            headers := headers woff2_sheet
                       ++ [("Cache-Control", "s-maxage=3600")] |})].
Proof.
  assert (H : cache cold !! css_url woff2_only bitter = None)
    by (vm_compute; reflexivity).
  split; [exact H|].
  exact (proj1 (loadGoogleFont_cache_miss woff2_only bitter cold H)).
Defined.

(** The sheet of the example is sent as private: the cache is handed it
    and does not keep it, so the next call asks for the sheet again. *)
Example private_sheet_is_not_kept :
  cache (loadGoogleFont woff2_only bitter cold).2 = cache cold /\
  requests (loadGoogleFont woff2_only bitter
              (loadGoogleFont woff2_only bitter cold).2).2
  = [CssRequest (css_url woff2_only bitter) user_agent;
     CssRequest (css_url woff2_only bitter) user_agent].
Proof. split; reflexivity. Qed.

End FontFacts.
